(** * The weighting-and-scoring engine of indicator_calculator

    A shallow embedding of [backend/app/engine.py].

    Numbers.  The engine computes on numpy [float64] arrays.  They are
    modelled here as real numbers ([R]): every arithmetic operation is
    exact, there is no rounding, no overflow and no NaN or infinity.
    Two things follow.  A quantity that is 0 in exact arithmetic can be a
    tiny non-zero number in [float64] (the standard deviation of a
    constant column whose mean is rounded, the diversity of a uniform
    column), so the engine's tests [std == 0] and [total <= 0] fire in the
    model on inputs where they need not fire in a run; min-max bounds are
    entries of the data and are compared exactly in both.  And the one
    place where numpy produces a NaN from finite data (the sample standard
    deviation of fewer than two rows) ends the model's computation with
    [FloatingPointNaN]: this is not an exception of the engine, which goes
    on with NaN values there (PCA then reports too few samples, AHP
    returns a record of NaN parameters).  A property of trained records
    that would fail on such a record asks for two training rows.

    Arrays.  A one-dimensional array is a [list R]; a two-dimensional
    array is an [ndarray]: its number of columns and the list of its rows.

    Dictionaries.  A Python [dict] with string keys is an association
    list in insertion order, with Python's update discipline.

    Exceptions.  A function that can raise returns a [res]. *)

From Stdlib Require Import Reals Lra Lia String Bool Arith PeanoNat List.
Import ListNotations.

Open Scope R_scope.

(** ** Exceptions and the error monad *)

(** Every [raise ComputeError(...)] of the engine, named after the
    condition it reports. *)
Inductive compute_error : Type :=
| DegenerateColumnMinMax      (* max==min column, min-max *)
| DegenerateColumnZScore      (* std==0 column, z-score *)
| EntropyAllZeroDiversity     (* total <= 0 *)
| PCAInsufficientSamples      (* fewer than 2 rows *)
| PCAZeroVariance             (* total eigenvalue sum <= 0 *)
| PCAInvalidWeights           (* raw weight sum <= 0 *)
| AHPNonSquareMatrix          (* shape[0] != shape[1] *)
| AHPEmptyMatrix              (* n < 1 *)
| AHPZeroWeightVector         (* sum(vec) == 0 *)
| AHPMatrixRequired           (* ahp_matrix is None *)
| UnknownMethod
| UnknownStandardizationKind.

Inductive exn : Type :=
| ComputeError (why : compute_error)
| ValueError          (* numpy: shapes do not agree, reduction of an empty array *)
| IndexError          (* index out of bounds *)
| KeyError            (* missing dictionary key *)
| LinAlgError         (* numpy.linalg rejects its argument *)
| FloatingPointNaN.   (* numpy goes on with a NaN; outside the real-number model *)

Inductive res (A : Type) : Type :=
| Ok (a : A)
| Err (e : exn).
Arguments Ok {A} a.
Arguments Err {A} e.

Definition bind {A B : Type} (m : res A) (f : A -> res B) : res B :=
  match m with
  | Ok a => f a
  | Err e => Err e
  end.

Notation "x <- m ;; f" := (bind m (fun x => f))
  (at level 61, m at next level, right associativity).
Notation "' p <- m ;; f" := (bind m (fun p => f))
  (at level 61, p pattern, m at next level, right associativity).

Fixpoint mapM {A B : Type} (f : A -> res B) (l : list A) : res (list B) :=
  match l with
  | [] => Ok []
  | a :: t => b <- f a ;; bs <- mapM f t ;; Ok (b :: bs)
  end.

(** ** Decisions on real numbers *)

Definition Reqb (a b : R) : bool := if Req_dec_T a b then true else false.
Definition Rltb (a b : R) : bool := if Rlt_dec a b then true else false.
Definition Rleb (a b : R) : bool := if Rle_dec a b then true else false.

(** ** Dictionaries *)

Definition dict (V : Type) : Type := list (string * V).

Fixpoint dict_get {V : Type} (k : string) (d : dict V) : option V :=
  match d with
  | [] => None
  | (k', v) :: t => if String.eqb k k' then Some v else dict_get k t
  end.

(** [d[k] = v]: an existing key keeps its place, a new key goes last. *)
Fixpoint dict_set {V : Type} (k : string) (v : V) (d : dict V) : dict V :=
  match d with
  | [] => [(k, v)]
  | (k', v') :: t =>
      if String.eqb k k' then (k', v) :: t else (k', v') :: dict_set k v t
  end.

(** [d.get(k, dflt)] *)
Definition dict_get_default {V : Type} (k : string) (dflt : V) (d : dict V) : V :=
  match dict_get k d with
  | Some v => v
  | None => dflt
  end.

(** [d[k]] *)
Definition dict_lookup {V : Type} (k : string) (d : dict V) : res V :=
  match dict_get k d with
  | Some v => Ok v
  | None => Err KeyError
  end.

(** [{k: v for k, v in pairs}]: a later pair overwrites an earlier one. *)
Definition dict_of_pairs {V : Type} (pairs : list (string * V)) : dict V :=
  fold_left (fun d kv => dict_set (fst kv) (snd kv) d) pairs [].

Definition dict_keys {V : Type} (d : dict V) : list string := map fst d.
Definition dict_values {V : Type} (d : dict V) : list V := map snd d.

(** ** Arrays *)

Definition vec : Type := list R.

Record ndarray : Type := mk_ndarray {
  ncols : nat;            (* shape[1] *)
  rows : list vec         (* shape[0] rows *)
}.

Definition nrows (x : ndarray) : nat := length (rows x).

(** Every row has [shape[1]] entries. *)
Definition well_shaped (x : ndarray) : Prop :=
  Forall (fun r => length r = ncols x) (rows x).

(** [x[:, j]] *)
Definition column (j : nat) (x : ndarray) : vec :=
  map (fun r => nth j r 0) (rows x).

Fixpoint vsum (v : vec) : R :=
  match v with
  | [] => 0
  | a :: t => a + vsum t
  end.

(** [np.sum(x, axis=0)] *)
Definition col_sums (x : ndarray) : vec :=
  map (fun j => vsum (column j x)) (seq 0 (ncols x)).

(** [np.min] and [np.max] of a one-dimensional array; numpy refuses an
    empty one. *)
Definition np_min (v : vec) : res R :=
  match v with
  | [] => Err ValueError
  | a :: t => Ok (fold_left Rmin t a)
  end.

Definition np_max (v : vec) : res R :=
  match v with
  | [] => Err ValueError
  | a :: t => Ok (fold_left Rmax t a)
  end.

Fixpoint map2 {A B C : Type} (f : A -> B -> C) (a : list A) (b : list B) : list C :=
  match a, b with
  | x :: a', y :: b' => f x y :: map2 f a' b'
  | _, _ => []
  end.

(** numpy broadcasting of two axes of lengths [p] and [q]. *)
Definition bcast_len (p q : nat) : res nat :=
  if Nat.eqb p q then Ok p
  else if Nat.eqb q 1 then Ok p
  else if Nat.eqb p 1 then Ok q
  else Err ValueError.

(** The broadcast operation on two rows whose lengths are compatible. *)
Definition row_bcast (f : R -> R -> R) (a b : vec) : vec :=
  if Nat.eqb (length a) (length b) then map2 f a b
  else match b with
       | [y] => map (fun x => f x y) a
       | _ => match a with
              | [x] => map (fun y => f x y) b
              | _ => []
              end
       end.

(** [a op b] on one-dimensional arrays. *)
Definition vec_bcast (f : R -> R -> R) (a b : vec) : res vec :=
  _ <- bcast_len (length a) (length b) ;;
  Ok (row_bcast f a b).

(** [x op v] for a two-dimensional [x] and a one-dimensional [v]. *)
Definition mat_bcast (f : R -> R -> R) (x : ndarray) (v : vec) : res ndarray :=
  c <- bcast_len (ncols x) (length v) ;;
  Ok {| ncols := c; rows := map (fun r => row_bcast f r v) (rows x) |}.

(** ** Direction normalizer *)

Inductive Direction : Type := positive | negative.

Fixpoint list_update {A : Type} (j : nat) (a : A) (l : list A) : list A :=
  match l, j with
  | [], _ => []
  | _ :: t, O => a :: t
  | h :: t, S j' => h :: list_update j' a t
  end.

(** [x[:, j] = -x[:, j]] *)
Definition negate_column (j : nat) (x : ndarray) : res ndarray :=
  if Nat.ltb j (ncols x)
  then Ok {| ncols := ncols x;
             rows := map (fun r => list_update j (- nth j r 0) r) (rows x) |}
  else Err IndexError.

Fixpoint apply_direction_from (j : nat) (directions : list Direction) (x : ndarray)
  : res ndarray :=
  match directions with
  | [] => Ok x
  | positive :: ds => apply_direction_from (S j) ds x
  | negative :: ds => x' <- negate_column j x ;; apply_direction_from (S j) ds x'
  end.

Definition _apply_direction (values : ndarray) (directions : list Direction)
  : res ndarray :=
  apply_direction_from 0 directions values.

(** ** Standardization *)

(** [np.nanmin(x, axis=0)], [np.nanmax(x, axis=0)]: a reduction over zero
    rows is refused. *)
Definition _minmax_fit (x : ndarray) : res (vec * vec) :=
  match rows x with
  | [] => Err ValueError
  | _ =>
      min_v <- mapM (fun j => np_min (column j x)) (seq 0 (ncols x)) ;;
      max_v <- mapM (fun j => np_max (column j x)) (seq 0 (ncols x)) ;;
      Ok (min_v, max_v)
  end.

Definition _minmax_transform (x : ndarray) (min_v max_v : vec) : res ndarray :=
  denom <- vec_bcast Rminus max_v min_v ;;
  if existsb (fun d => Reqb d 0) denom
  then Err (ComputeError DegenerateColumnMinMax)
  else num <- mat_bcast Rminus x min_v ;; mat_bcast Rdiv num denom.

(** [np.nanmean(x, axis=0)] and [np.nanstd(x, axis=0, ddof=1)], in exact
    arithmetic: the standard deviation is 0 exactly for a constant column,
    where [float64] can give a tiny non-zero number.  With fewer than two
    rows numpy divides zero by zero, returns NaN and the engine goes on;
    the model stops there with [FloatingPointNaN]. *)
Definition col_mean (x : ndarray) (j : nat) : R :=
  vsum (column j x) / INR (nrows x).

Definition col_std (x : ndarray) (j : nat) : R :=
  let m := col_mean x j in
  sqrt (vsum (map (fun a => Rsqr (a - m)) (column j x)) / (INR (nrows x) - 1)).

Definition _zscore_fit (x : ndarray) : res (vec * vec) :=
  if Nat.ltb (nrows x) 2 then Err FloatingPointNaN
  else Ok (map (col_mean x) (seq 0 (ncols x)), map (col_std x) (seq 0 (ncols x))).

Definition _zscore_transform (x : ndarray) (mean std : vec) : res ndarray :=
  if existsb (fun s => Reqb s 0) std
  then Err (ComputeError DegenerateColumnZScore)
  else num <- mat_bcast Rminus x mean ;; mat_bcast Rdiv num std.

(** ** Scaler *)

Definition scale_0_100 (values : vec) (vmin vmax : R) : vec :=
  let denom := vmax - vmin in
  if Reqb denom 0
  then map (fun _ => 50) values
  else map (fun v => (v - vmin) / denom * 100) values.

(** ** Entropy weighting *)

Definition mat_map (f : R -> R) (x : ndarray) : ndarray :=
  {| ncols := ncols x; rows := map (map f) (rows x) |}.

(** Entrywise product of two arrays of one shape. *)
Definition mat_mul (x y : ndarray) : ndarray :=
  {| ncols := ncols x; rows := map2 (map2 Rmult) (rows x) (rows y) |}.

(** [z] is non-negative (after min-max), shape (n, p).  The guard
    [np.where(np.isfinite(d), d, 0.0)] is the identity on real numbers.
    In exact arithmetic a uniform column has the diversity 0; in
    [float64] it has a rounding residue, which [total <= 0] need not
    catch. *)
Definition _entropy_weights (z : ndarray) : res vec :=
  let n := nrows z in
  let col_sum := col_sums z in
  let col_sum := map (fun s => if Reqb s 0 then 1 else s) col_sum in
  pij <- mat_bcast Rdiv z col_sum ;;
  let logp := mat_map (fun p => if Rltb 0 p then ln p else 0) pij in
  let k := if Nat.ltb 1 n then 1 / ln (INR n) else 0 in
  let e := map (fun s => - k * s) (col_sums (mat_mul pij logp)) in
  let d := map (fun ej => 1 - ej) e in
  let total := vsum d in
  if Rleb total 0 then Err (ComputeError EntropyAllZeroDiversity)
  else Ok (map (fun dj => dj / total) d).

(** ** PCA weighting *)

Record PcaResult : Type := mk_PcaResult {
  pca_weights : vec;
  pca_k : nat;
  pca_cumulative : R
}.

(** [np.cov(z, rowvar=False, ddof=1)] for two or more columns. *)
Definition np_cov (z : ndarray) : ndarray :=
  let p := ncols z in
  let centred j := map (fun a => a - col_mean z j) (column j z) in
  {| ncols := p;
     rows := map (fun j =>
               map (fun l => vsum (map2 Rmult (centred j) (centred l))
                             / (INR (nrows z) - 1))
                   (seq 0 p))
               (seq 0 p) |}.

(** [np.argsort]: the indices that sort [v] in ascending order, here by
    insertion of (value, index) pairs. *)
Fixpoint insert_sorted (a : R * nat) (l : list (R * nat)) : list (R * nat) :=
  match l with
  | [] => [a]
  | b :: t => if Rltb (fst a) (fst b) then a :: b :: t else b :: insert_sorted a t
  end.

Definition np_argsort (v : vec) : list nat :=
  map snd (fold_left (fun acc a => insert_sorted a acc)
                     (combine v (seq 0 (length v))) []).

(** [v[order]] *)
Definition take_indices (v : vec) (order : list nat) : vec :=
  map (fun i => nth i v 0) order.

(** [np.cumsum] *)
Fixpoint cumsum_from (acc : R) (v : vec) : vec :=
  match v with
  | [] => []
  | a :: t => (acc + a) :: cumsum_from (acc + a) t
  end.

Definition np_cumsum (v : vec) : vec := cumsum_from 0 v.

(** [np.searchsorted(a, key)] (side left): bisection on [lo, hi). *)
Fixpoint bisect_left (fuel : nat) (a : vec) (key : R) (lo hi : nat) : nat :=
  match fuel with
  | O => lo
  | S fuel' =>
      if Nat.ltb lo hi then
        let mid := (lo + (hi - lo) / 2)%nat in
        if Rltb (nth mid a 0) key
        then bisect_left fuel' a key (S mid) hi
        else bisect_left fuel' a key lo mid
      else lo
  end.

Definition np_searchsorted (a : vec) (key : R) : nat :=
  bisect_left (S (length a)) a key 0 (length a).

(** [w_raw += t] in place: [t] must fit the shape of [w_raw]. *)
Definition vec_iadd (w_raw t : vec) : res vec :=
  if Nat.eqb (length t) (length w_raw) then Ok (map2 Rplus w_raw t)
  else match t with
       | [y] => Ok (map (fun a => a + y) w_raw)
       | _ => Err ValueError
       end.

(** [a[i]] *)
Definition vec_index (a : vec) (i : nat) : res R :=
  match nth_error a i with
  | Some v => Ok v
  | None => Err IndexError
  end.

Section LinearAlgebra.

(** [np.linalg.eigh] of a symmetric matrix: eigenvalues in ascending order
    and the matrix whose columns are the matching eigenvectors. *)
Variable eigh : ndarray -> vec * ndarray.

(** The loop [for l in range(k): w_raw += (v**2) * (lam**2)], at step [l]
    with [todo] steps left. *)
Fixpoint pca_accumulate (eigvals : vec) (eigvecs : ndarray) (w_raw : vec)
         (l todo : nat) : res vec :=
  match todo with
  | O => Ok w_raw
  | S todo' =>
      lam <- vec_index eigvals l ;;
      _ <- (if Nat.ltb l (ncols eigvecs) then Ok tt else Err IndexError) ;;
      let v := column l eigvecs in
      w_raw' <- vec_iadd w_raw (map (fun vj => Rsqr vj * Rsqr lam) v) ;;
      pca_accumulate eigvals eigvecs w_raw' (S l) todo'
  end.

(** The eigenvalues as the selection uses them: descending, negative
    ones clipped to 0. *)
Definition pca_eigvals (z : ndarray) : vec :=
  let '(eigvals, _) := eigh (np_cov z) in
  let order := rev (np_argsort eigvals) in
  map (fun v => if Rltb v 0 then 0 else v) (take_indices eigvals order).

Definition pca_eigvecs (z : ndarray) : ndarray :=
  let '(eigvals, eigvecs) := eigh (np_cov z) in
  let order := rev (np_argsort eigvals) in
  {| ncols := length order;
     rows := map (fun r => take_indices r order) (rows eigvecs) |}.

(** [cum = np.cumsum(eigvals) / total] *)
Definition pca_cum (z : ndarray) : vec :=
  let eigvals := pca_eigvals z in
  map (fun c => c / vsum eigvals) (np_cumsum eigvals).

(** [z] is standardized (z-score), shape (n, p).  For a single column
    [np.cov] squeezes its result to a zero-dimensional array, which
    [np.linalg.eigh] rejects. *)
Definition _pca_weights (z : ndarray) (cum_var_threshold : R) : res PcaResult :=
  if Nat.ltb (nrows z) 2 then Err (ComputeError PCAInsufficientSamples)
  else if Nat.eqb (ncols z) 1 then Err LinAlgError
  else
    let eigvals := pca_eigvals z in
    let eigvecs := pca_eigvecs z in
    let total := vsum eigvals in
    if Rleb total 0 then Err (ComputeError PCAZeroVariance)
    else
      let cum := pca_cum z in
      let k := (np_searchsorted cum cum_var_threshold + 1)%nat in
      let k := Nat.max 1 (Nat.min k (ncols z)) in
      cumulative <- vec_index cum (k - 1) ;;
      w_raw <- pca_accumulate eigvals eigvecs (repeat 0 (ncols z)) 0 k ;;
      let s := vsum w_raw in
      if Rleb s 0 then Err (ComputeError PCAInvalidWeights)
      else Ok {| pca_weights := map (fun a => a / s) w_raw;
                 pca_k := k;
                 pca_cumulative := cumulative |}.

(** ** AHP weighting *)

(** A complex number: real and imaginary part. *)
Definition complex : Type := (R * R)%type.
Definition re (c : complex) : R := fst c.

(** [np.linalg.eig] of a square matrix: eigenvalues and the rows of the
    matrix whose columns are the matching eigenvectors. *)
Variable eig : ndarray -> list complex * list (list complex).

(** [np.argmax]: the first index of the largest entry. *)
Fixpoint argmax_from (best : R) (besti i : nat) (v : vec) : nat :=
  match v with
  | [] => besti
  | a :: t => if Rltb best a then argmax_from a i (S i) t
              else argmax_from best besti (S i) t
  end.

Definition np_argmax (v : vec) : res nat :=
  match v with
  | [] => Err ValueError
  | a :: t => Ok (argmax_from a 0 1 t)
  end.

Definition ri_table (n : nat) : R :=
  match n with
  | 1%nat => 0 | 2%nat => 0 | 3%nat => 0.58 | 4%nat => 0.9 | 5%nat => 1.12
  | 6%nat => 1.24 | 7%nat => 1.32 | 8%nat => 1.41 | 9%nat => 1.45
  | 10%nat => 1.49 | 11%nat => 1.51 | 12%nat => 1.48 | 13%nat => 1.56
  | 14%nat => 1.57 | 15%nat => 1.59
  | _ => 1.59
  end.

(** Returns weights, lambda_max, CI, CR. *)
Definition _ahp_weights (matrix : ndarray) : res (vec * R * R * R) :=
  if negb (Nat.eqb (nrows matrix) (ncols matrix))
  then Err (ComputeError AHPNonSquareMatrix)
  else
    let n := nrows matrix in
    if Nat.ltb n 1 then Err (ComputeError AHPEmptyMatrix)
    else
      let '(eigvals, eigvecs) := eig matrix in
      idx <- np_argmax (map re eigvals) ;;
      lambda_max <- vec_index (map re eigvals) idx ;;
      _ <- (if existsb (fun r => Nat.leb (length r) idx) eigvecs
            then Err IndexError else Ok tt) ;;
      let vec := map (fun r => re (nth idx r (0, 0))) eigvecs in
      let vec := map (fun v => if Rltb v 0 then - v else v) vec in
      if Reqb (vsum vec) 0 then Err (ComputeError AHPZeroWeightVector)
      else
        let w := map (fun v => v / vsum vec) vec in
        let ci := if Nat.ltb 1 n then (lambda_max - INR n) / (INR n - 1) else 0 in
        let ri := ri_table n in
        let cr := if Reqb ri 0 then 0 else ci / ri in
        Ok (w, lambda_max, ci, cr).

(** ** Dimension aggregator *)

(** [IndicatorRecord] of [types.py]. *)
Record IndicatorRecord : Type := mk_IndicatorRecord {
  ind_key : string;
  ind_name : string;
  ind_dimension2Key : string;
  ind_direction : Direction;
  ind_unit : option string
}.

(** [ind["dimension2Key"] or "default"] *)
Definition dimension2_of (ind : IndicatorRecord) : string :=
  if String.eqb (ind_dimension2Key ind) EmptyString then "default"%string
  else ind_dimension2Key ind.

Definition build_dimension2_weights (indicators : list IndicatorRecord)
           (weights : dict R) : dict R :=
  fold_left
    (fun dim ind =>
       let k := ind_key ind in
       let g := dimension2_of ind in
       dict_set g (dict_get_default g 0 dim + dict_get_default k 0 weights) dim)
    indicators [].

(** [z @ w]: the shapes must agree. *)
Definition dot (a b : vec) : R := vsum (map2 Rmult a b).

Definition matvec (z : ndarray) (w : vec) : res vec :=
  if Nat.eqb (ncols z) (length w) then Ok (map (fun r => dot r w) (rows z))
  else Err ValueError.

(** [z[:, idxs]] *)
Definition take_columns (z : ndarray) (idxs : list nat) : ndarray :=
  {| ncols := length idxs; rows := map (fun r => take_indices r idxs) (rows z) |}.

(** [dims.setdefault(g, []).append(idx)] *)
Definition dims_append (g : string) (idx : nat) (dims : dict (list nat))
  : dict (list nat) :=
  dict_set g (dict_get_default g [] dims ++ [idx]) dims.

Definition group_indices (indicator_keys : list string)
           (indicators : list IndicatorRecord) : dict (list nat) :=
  let key_to_dim :=
    dict_of_pairs (map (fun i => (ind_key i, dimension2_of i)) indicators) in
  fold_left
    (fun dims ik =>
       dims_append (dict_get_default (snd ik) "default"%string key_to_dim) (fst ik) dims)
    (combine (seq 0 (length indicator_keys)) indicator_keys) [].

(** The loop over [dims.items()]; a group of weight [<= 0] is skipped. *)
Fixpoint sub_scores_loop (z : ndarray) (w : vec) (dims : dict (list nat))
         (sub_scores : dict vec) : res (dict vec) :=
  match dims with
  | [] => Ok sub_scores
  | (g, idxs) :: rest =>
      let wg := vsum (take_indices w idxs) in
      if Rleb wg 0 then sub_scores_loop z w rest sub_scores
      else
        let w_cond := map (fun a => a / wg) (take_indices w idxs) in
        v <- matvec (take_columns z idxs) w_cond ;;
        sub_scores_loop z w rest (dict_set g v sub_scores)
  end.

Definition compute_scores (z : ndarray) (indicator_keys : list string)
           (indicators : list IndicatorRecord) (weights : dict R)
  : res (vec * dict vec) :=
  w <- mapM (fun k => dict_lookup k weights) indicator_keys ;;
  score_raw <- matvec z w ;;
  sub_scores <- sub_scores_loop z w (group_indices indicator_keys indicators) [] ;;
  Ok (score_raw, sub_scores).

(** ** The model record *)

Inductive WeightMethod : Type :=
| entropy | pca | ahp
| other_method (tag : string).

(** [StandardizationParams] of [types.py], with the tag the applier
    rejects. *)
Inductive StandardizationParams : Type :=
| minmax (min max : dict R)
| zscore (mean std : dict R)
| other_kind (kind : string).

(** The [scaling] entry as the applier reads it: each key may be absent. *)
Record ScoreScalingParams : Type := mk_ScoreScalingParams {
  scoreMin : option R;
  scoreMax : option R;
  subScoreMin : option (dict R);
  subScoreMax : option (dict R)
}.

Record PcaInfo : Type := mk_PcaInfo {
  info_k : nat;
  info_cumulative : R;
  info_threshold : R
}.

Record AhpInfo : Type := mk_AhpInfo {
  info_matrix : list (list R);
  info_lambdaMax : R;
  info_CI : R;
  info_CR : R
}.

Record WeightModelRecord : Type := mk_WeightModelRecord {
  model_id : string;
  model_name : string;
  model_createdAt : string;
  model_method : WeightMethod;
  indicatorKeys : list string;
  weights : dict R;
  dimension2Weights : dict R;
  standardization : StandardizationParams;
  scaling : option ScoreScalingParams;
  trainedOnDatasetIds : list string;
  model_pca : option PcaInfo;
  model_ahp : option AhpInfo
}.

(** ** Model trainer *)

(** [{k: float(v[i]) for i, k in enumerate(indicator_keys)}] *)
Definition keyed (indicator_keys : list string) (v : vec) : res (dict R) :=
  pairs <- mapM (fun ik => a <- vec_index v (fst ik) ;; Ok (snd ik, a))
                (combine (seq 0 (length indicator_keys)) indicator_keys) ;;
  Ok (dict_of_pairs pairs).

(** [np.array(ahp_matrix, dtype=float)], followed by the read of
    [shape[1]]: a ragged list is refused, an empty one is one-dimensional. *)
Definition np_array2 (l : list (list R)) : res ndarray :=
  match l with
  | [] => Err IndexError
  | r :: t =>
      if forallb (fun r' => Nat.eqb (length r') (length r)) t
      then Ok {| ncols := length r; rows := l |}
      else Err ValueError
  end.

(** [{g: float(f(v)) for g, v in d.items()}] *)
Definition dict_mapM {A B : Type} (f : A -> res B) (d : dict A) : res (dict B) :=
  pairs <- mapM (fun gv => b <- f (snd gv) ;; Ok (fst gv, b)) d ;;
  Ok (dict_of_pairs pairs).

(** What a method fits on the direction-normalized matrix: the
    standardized matrix, the weight vector, the stored standardization
    parameters and the diagnostics. *)
Definition train_fit (method : WeightMethod) (indicator_keys : list string)
           (x : ndarray) (ahp_matrix : option (list (list R)))
           (pca_cum_var_threshold : R)
  : res (ndarray * vec * StandardizationParams * option PcaInfo * option AhpInfo) :=
  match method with
  | entropy =>
      '(min_v, max_v) <- _minmax_fit x ;;
      z <- _minmax_transform x min_v max_v ;;
      w_vec <- _entropy_weights z ;;
      smin <- keyed indicator_keys min_v ;;
      smax <- keyed indicator_keys max_v ;;
      Ok (z, w_vec, minmax smin smax, None, None)
  | pca =>
      '(mean, std) <- _zscore_fit x ;;
      z <- _zscore_transform x mean std ;;
      pca_res <- _pca_weights z pca_cum_var_threshold ;;
      smean <- keyed indicator_keys mean ;;
      sstd <- keyed indicator_keys std ;;
      Ok (z, pca_weights pca_res, zscore smean sstd,
          Some {| info_k := pca_k pca_res;
                  info_cumulative := pca_cumulative pca_res;
                  info_threshold := pca_cum_var_threshold |},
          None)
  | ahp =>
      match ahp_matrix with
      | None => Err (ComputeError AHPMatrixRequired)
      | Some am =>
          '(mean, std) <- _zscore_fit x ;;
          z <- _zscore_transform x mean std ;;
          m <- np_array2 am ;;
          '(w_vec, lambda_max, ci, cr) <- _ahp_weights m ;;
          smean <- keyed indicator_keys mean ;;
          sstd <- keyed indicator_keys std ;;
          Ok (z, w_vec, zscore smean sstd, None,
              Some {| info_matrix := am; info_lambdaMax := lambda_max;
                      info_CI := ci; info_CR := cr |})
      end
  | other_method _ => Err (ComputeError UnknownMethod)
  end.

(** [model_id] and [created_at] stand for [uuid.uuid4().hex] and
    [now_iso()]. *)
Definition train_weight_model (model_id created_at : string)
           (method : WeightMethod) (name : string)
           (indicator_keys : list string) (indicators : list IndicatorRecord)
           (x_train : ndarray) (directions : list Direction)
           (trained_on_dataset_ids : list string)
           (ahp_matrix : option (list (list R))) (pca_cum_var_threshold : R)
  : res WeightModelRecord :=
  x <- _apply_direction x_train directions ;;
  '(z, w_vec, standardization, pca_info, ahp_info) <-
     train_fit method indicator_keys x ahp_matrix pca_cum_var_threshold ;;
  weights <- keyed indicator_keys w_vec ;;
  let dim_weights := build_dimension2_weights indicators weights in
  '(score_raw, sub_scores) <- compute_scores z indicator_keys indicators weights ;;
  score_min <- np_min score_raw ;;
  score_max <- np_max score_raw ;;
  sub_min <- dict_mapM np_min sub_scores ;;
  sub_max <- dict_mapM np_max sub_scores ;;
  Ok {| model_id := model_id;
        model_name := name;
        model_createdAt := created_at;
        model_method := method;
        indicatorKeys := indicator_keys;
        weights := weights;
        dimension2Weights := dim_weights;
        standardization := standardization;
        scaling := Some {| scoreMin := Some score_min; scoreMax := Some score_max;
                           subScoreMin := Some sub_min; subScoreMax := Some sub_max |};
        trainedOnDatasetIds := trained_on_dataset_ids;
        model_pca := pca_info;
        model_ahp := ahp_info |}.

(** The standardized matrix, raw scores and sub-scores of the training
    sample, as [train_weight_model] computes them on the way. *)
Definition train_scores (method : WeightMethod)
           (indicator_keys : list string) (indicators : list IndicatorRecord)
           (x_train : ndarray) (directions : list Direction)
           (ahp_matrix : option (list (list R))) (pca_cum_var_threshold : R)
  : res (ndarray * vec * dict vec) :=
  x <- _apply_direction x_train directions ;;
  '(z, w_vec, standardization, pca_info, ahp_info) <-
     train_fit method indicator_keys x ahp_matrix pca_cum_var_threshold ;;
  weights <- keyed indicator_keys w_vec ;;
  '(score_raw, sub_scores) <- compute_scores z indicator_keys indicators weights ;;
  Ok (z, score_raw, sub_scores).

End LinearAlgebra.

(** ** Model applier *)

(** [model.get("scaling") or {}] *)
Definition scaling_or_empty (model : WeightModelRecord) : ScoreScalingParams :=
  match scaling model with
  | Some s => s
  | None => {| scoreMin := None; scoreMax := None;
               subScoreMin := None; subScoreMax := None |}
  end.

(** [dict(scaling.get(name) or {})] *)
Definition dict_or_empty (d : option (dict R)) : dict R :=
  match d with
  | Some d => d
  | None => []
  end.

(** [scaling.get(name, dflt)] *)
Definition option_default (o : option R) (dflt : R) : R :=
  match o with
  | Some v => v
  | None => dflt
  end.

(** The standardization, scoring part of the applier. *)
Definition apply_standardize (model : WeightModelRecord) (x : ndarray)
           (directions : list Direction) : res ndarray :=
  let indicator_keys := indicatorKeys model in
  x2 <- _apply_direction x directions ;;
  match standardization model with
  | minmax smin smax =>
      min_v <- mapM (fun k => dict_lookup k smin) indicator_keys ;;
      max_v <- mapM (fun k => dict_lookup k smax) indicator_keys ;;
      _minmax_transform x2 min_v max_v
  | zscore smean sstd =>
      mean <- mapM (fun k => dict_lookup k smean) indicator_keys ;;
      s <- mapM (fun k => dict_lookup k sstd) indicator_keys ;;
      _zscore_transform x2 mean s
  | other_kind _ => Err (ComputeError UnknownStandardizationKind)
  end.

(** The loop over [sub_scores.items()].  The defaults [np.min(v)] and
    [np.max(v)] are evaluated before the lookup. *)
Fixpoint sub_index_loop (sub_min sub_max : dict R) (sub_scores : dict vec)
         (sub_index_0_100 : dict vec) : res (dict vec) :=
  match sub_scores with
  | [] => Ok sub_index_0_100
  | (g, v) :: rest =>
      dmin <- np_min v ;;
      let vmin := dict_get_default g dmin sub_min in
      dmax <- np_max v ;;
      let vmax := dict_get_default g dmax sub_max in
      sub_index_loop sub_min sub_max rest
                     (dict_set g (scale_0_100 v vmin vmax) sub_index_0_100)
  end.

(** The body of [apply_weight_model] with all it computes: the four
    returned values and the local [index_0_100]. *)
Definition apply_weight_model_locals (model : WeightModelRecord)
           (indicators : list IndicatorRecord) (x : ndarray)
           (directions : list Direction)
  : res (ndarray * vec * dict vec * dict vec * vec) :=
  let indicator_keys := indicatorKeys model in
  let weights := weights model in
  z <- apply_standardize model x directions ;;
  '(score_raw, sub_scores) <- compute_scores z indicator_keys indicators weights ;;
  let scaling := scaling_or_empty model in
  dmin <- np_min score_raw ;;
  let score_min := option_default (scoreMin scaling) dmin in
  dmax <- np_max score_raw ;;
  let score_max := option_default (scoreMax scaling) dmax in
  let index_0_100 := scale_0_100 score_raw score_min score_max in
  let sub_min := dict_or_empty (subScoreMin scaling) in
  let sub_max := dict_or_empty (subScoreMax scaling) in
  sub_index_0_100 <- sub_index_loop sub_min sub_max sub_scores [] ;;
  Ok (z, score_raw, sub_scores, sub_index_0_100, index_0_100).

Definition apply_weight_model (model : WeightModelRecord)
           (indicators : list IndicatorRecord) (x : ndarray)
           (directions : list Direction)
  : res (ndarray * vec * dict vec * dict vec) :=
  '(z, score_raw, sub_scores, sub_index_0_100, _) <-
     apply_weight_model_locals model indicators x directions ;;
  Ok (z, score_raw, sub_scores, sub_index_0_100).

(** ** Reading arrays *)

(** [z[i, j]] *)
Definition entry (z : ndarray) (i j : nat) : R := nth j (nth i (rows z) []) 0.

(** Two arrays of one shape. *)
Definition same_shape (x y : ndarray) : Prop :=
  ncols x = ncols y /\ nrows x = nrows y /\ well_shaped y.

(** The record [model] with its [scaling] entry replaced. *)
Definition with_scaling (model : WeightModelRecord)
           (sc : option ScoreScalingParams) : WeightModelRecord :=
  {| model_id := model_id model;
     model_name := model_name model;
     model_createdAt := model_createdAt model;
     model_method := model_method model;
     indicatorKeys := indicatorKeys model;
     weights := weights model;
     dimension2Weights := dimension2Weights model;
     standardization := standardization model;
     scaling := sc;
     trainedOnDatasetIds := trainedOnDatasetIds model;
     model_pca := model_pca model;
     model_ahp := model_ahp model |}.

(** A one-dimensional array in non-decreasing order. *)
Definition nondecreasing (a : vec) : Prop :=
  forall i j, (i <= j)%nat -> (j < length a)%nat -> nth i a 0 <= nth j a 0.

(** The tolerance of the weight-sum property, 1e-9. *)
Definition tolerance : R := / 1000000000.

(** One entry of [pij * logp], with [0 * log 0 = 0]. *)
Definition plogp (p : R) : R := p * (if Rltb 0 p then ln p else 0).

(** The diversity [d_j = 1 - e_j] of [_entropy_weights], computed from
    column [j] of [z] alone. *)
Definition entropy_diversity (c : vec) : R :=
  let s := vsum c in
  let s := if Reqb s 0 then 1 else s in
  let k := if Nat.ltb 1 (length c) then 1 / ln (INR (length c)) else 0 in
  1 - - k * vsum (map (fun a => plogp (a / s)) c).

(** Every entry of the array is non-negative. *)
Definition nonnegative (z : ndarray) : Prop :=
  Forall (Forall (fun t => 0 <= t)) (rows z).

(** All entries of column [j] are equal. *)
Definition constant_column (j : nat) (x : ndarray) : Prop :=
  forall a b, In a (column j x) -> In b (column j x) -> a = b.

(** The indicators whose [dimension2Key or "default"] is [g], in order. *)
Definition indicators_of_group (g : string) (indicators : list IndicatorRecord)
  : list IndicatorRecord :=
  filter (fun ind => String.eqb (dimension2_of ind) g) indicators.

(** The dimension [compute_scores] files a key under: that of the last
    indicator record with this key, ["default"] when there is none. *)
Definition dimension_of_key (indicators : list IndicatorRecord) (k : string)
  : string :=
  match find (fun i => String.eqb (ind_key i) k) (rev indicators) with
  | Some i => dimension2_of i
  | None => "default"%string
  end.

(** ** Sample inputs *)

(** The 3 x 2 training matrix [[10,1],[20,2],[30,3]]. *)
Definition sample_x : ndarray :=
  {| ncols := 2; rows := [[10; 1]; [20; 2]; [30; 3]] |}.

(** The perfectly consistent comparison matrix
    [[1,2,4],[1/2,1,2],[1/4,1/2,1]] and an eigendecomposition of it:
    eigenvalues 3, 0, 0 with the eigenvectors (4,2,1), (2,-1,0), (4,0,-1)
    as columns. *)
Definition consistent_matrix : ndarray :=
  {| ncols := 3; rows := [[1; 2; 4]; [1/2; 1; 2]; [1/4; 1/2; 1]] |}.

Definition consistent_eig (_ : ndarray) : list complex * list (list complex) :=
  ([(3, 0); (0, 0); (0, 0)],
   [[(4, 0); (2, 0); (4, 0)];
    [(2, 0); (-1, 0); (0, 0)];
    [(1, 0); (0, 0); (-1, 0)]]).

(** A matrix without rows, [np.zeros((0, 0))]. *)
Definition empty_matrix : ndarray := {| ncols := 0; rows := [] |}.

(** Two perfectly correlated standardized columns, the z-scores of
    [sample_x], and the eigendecomposition of their covariance matrix
    [[1,1],[1,1]]: eigenvalues 0 and 2 in ascending order, with the unit
    eigenvectors (-1,1)/sqrt 2 and (1,1)/sqrt 2 as columns. *)
Definition correlated_z : ndarray :=
  {| ncols := 2; rows := [[-1; -1]; [0; 0]; [1; 1]] |}.

Definition correlated_eigh (_ : ndarray) : vec * ndarray :=
  ([0; 2],
   {| ncols := 2;
      rows := [[- / sqrt 2; / sqrt 2]; [/ sqrt 2; / sqrt 2]] |}).

(** A call of the trainer that gives the key ["a"] twice: the 2 x 2
    matrix [[0,0],[1,2]], its min-max standardization, the record the
    trainer returns for it and what the applier then standardizes the same
    matrix to. *)
Definition ind_a : IndicatorRecord :=
  {| ind_key := "a"; ind_name := "A"; ind_dimension2Key := EmptyString;
     ind_direction := positive; ind_unit := None |}.

Definition dup_x : ndarray := {| ncols := 2; rows := [[0; 0]; [1; 2]] |}.
Definition dup_z : ndarray := {| ncols := 2; rows := [[0; 0]; [1; 1]] |}.
Definition dup_z_applied : ndarray := {| ncols := 2; rows := [[0; 0]; [1 / 2; 1]] |}.

Definition dup_model : WeightModelRecord :=
  {| model_id := "id";
     model_name := "dup";
     model_createdAt := "now";
     model_method := entropy;
     indicatorKeys := ["a"; "a"]%string;
     weights := [("a"%string, 1 / 2)];
     dimension2Weights := [("default"%string, 1)];
     standardization := minmax [("a"%string, 0)] [("a"%string, 2)];
     scaling := Some {| scoreMin := Some 0; scoreMax := Some 1;
                        subScoreMin := Some [("default"%string, 0)];
                        subScoreMax := Some [("default"%string, 1)] |};
     trainedOnDatasetIds := [];
     model_pca := None;
     model_ahp := None |}.

(** The min-max standardization of [sample_x]. *)
Definition sample_z : ndarray :=
  {| ncols := 2; rows := [[0; 0]; [1 / 2; 1 / 2]; [1; 1]] |}.

(** A 2 x 2 matrix whose second column holds the single value 5. *)
Definition constant_x : ndarray := {| ncols := 2; rows := [[1; 5]; [2; 5]] |}.

(** One new row for a record trained on [sample_x]. *)
Definition new_x : ndarray := {| ncols := 2; rows := [[40; 0]] |}.

(** A non-negative 2 x 2 matrix whose first column is zero. *)
Definition zero_column_z : ndarray := {| ncols := 2; rows := [[0; 0]; [0; 1]] |}.

(** Two indicator records for the keys of the sample request, the first
    under the dimension ["economy"], the second without a dimension. *)
Definition ind_x1 : IndicatorRecord :=
  {| ind_key := "x1"; ind_name := "X1"; ind_dimension2Key := "economy";
     ind_direction := positive; ind_unit := None |}.

Definition ind_x2 : IndicatorRecord :=
  {| ind_key := "x2"; ind_name := "X2"; ind_dimension2Key := EmptyString;
     ind_direction := positive; ind_unit := None |}.

(** A matrix with a single column, and one with three. *)
Definition single_column_x : ndarray := {| ncols := 1; rows := [[15]] |}.
Definition three_column_x : ndarray := {| ncols := 3; rows := [[15; 2; 0]] |}.

(** The comparison matrix of a single indicator, [[1]], and its
    eigendecomposition. *)
Definition unit_eig (_ : ndarray) : list complex * list (list complex) :=
  ([(1, 0)], [[(1, 0)]]).

(** A record for two keys that lacks the weight of the second. *)
Definition incomplete_model : WeightModelRecord :=
  {| model_id := "id";
     model_name := "incomplete";
     model_createdAt := "now";
     model_method := entropy;
     indicatorKeys := ["x1"; "x2"]%string;
     weights := [("x1"%string, 1)];
     dimension2Weights := [("default"%string, 1)];
     standardization := minmax [("x1"%string, 10); ("x2"%string, 1)]
                               [("x1"%string, 30); ("x2"%string, 3)];
     scaling := None;
     trainedOnDatasetIds := [];
     model_pca := None;
     model_ahp := None |}.

(** * Properties *)

(** ** Decisions *)

Lemma Reqb_true (a b : R) : Reqb a b = true <-> a = b.
Proof. unfold Reqb; destruct (Req_dec_T a b); split; congruence. Qed.

Lemma Reqb_false (a b : R) : Reqb a b = false <-> a <> b.
Proof. unfold Reqb; destruct (Req_dec_T a b); split; congruence. Qed.

Lemma Rltb_true (a b : R) : Rltb a b = true <-> a < b.
Proof. unfold Rltb; destruct (Rlt_dec a b); split; congruence. Qed.

Lemma Rltb_false (a b : R) : Rltb a b = false <-> b <= a.
Proof.
  unfold Rltb; destruct (Rlt_dec a b); split; try congruence; intros; lra.
Qed.

Lemma Rleb_true (a b : R) : Rleb a b = true <-> a <= b.
Proof. unfold Rleb; destruct (Rle_dec a b); split; congruence. Qed.

Lemma Rleb_false (a b : R) : Rleb a b = false <-> b < a.
Proof.
  unfold Rleb; destruct (Rle_dec a b); split; try congruence; intros; lra.
Qed.

(** ** The scaler *)

Lemma scale_0_100_nondegenerate (values : vec) (vmin vmax : R) :
  vmax <> vmin ->
  scale_0_100 values vmin vmax
  = map (fun v => (v - vmin) / (vmax - vmin) * 100) values.
Proof.
  intros H. unfold scale_0_100.
  assert (E : Reqb (vmax - vmin) 0 = false) by (apply Reqb_false; lra).
  now rewrite E.
Qed.

Lemma scale_0_100_degenerate (values : vec) (v0 : R) :
  scale_0_100 values v0 v0 = map (fun _ => 50) values.
Proof.
  unfold scale_0_100.
  assert (E : Reqb (v0 - v0) 0 = true) by (apply Reqb_true; lra).
  now rewrite E.
Qed.

Lemma scale_0_100_length (values : vec) (vmin vmax : R) :
  length (scale_0_100 values vmin vmax) = length values.
Proof.
  unfold scale_0_100. destruct (Reqb _ _); apply length_map.
Qed.

Lemma scale_0_100_entry (values : vec) (vmin vmax : R) (i : nat) (a : R) :
  vmax <> vmin ->
  nth_error values i = Some a ->
  nth_error (scale_0_100 values vmin vmax) i
  = Some ((a - vmin) / (vmax - vmin) * 100).
Proof.
  intros H Hi. rewrite scale_0_100_nondegenerate by assumption.
  rewrite nth_error_map, Hi. reflexivity.
Qed.

(** C6.  For [vmax <> vmin], [scale_0_100] is the affine map
    [(v - vmin) / (vmax - vmin) * 100] on every entry, so an entry equal
    to [vmin] goes to exactly 0 and one equal to [vmax] to exactly 100;
    for [vmax = vmin] every entry goes to 50. *)
Theorem scale_0_100_spec (values : vec) (vmin vmax : R) :
  (vmax <> vmin ->
     scale_0_100 values vmin vmax
     = map (fun v => (v - vmin) / (vmax - vmin) * 100) values
     /\ (forall i, nth_error values i = Some vmin ->
                   nth_error (scale_0_100 values vmin vmax) i = Some 0)
     /\ (forall i, nth_error values i = Some vmax ->
                   nth_error (scale_0_100 values vmin vmax) i = Some 100))
  /\ (vmax = vmin ->
        scale_0_100 values vmin vmax = map (fun _ => 50) values
        /\ (forall i, (i < length values)%nat ->
                      nth_error (scale_0_100 values vmin vmax) i = Some 50)).
Proof.
  split.
  - intros H. split; [now apply scale_0_100_nondegenerate|]. split; intros i Hi.
    + rewrite (scale_0_100_entry _ _ _ _ _ H Hi). f_equal. field. lra.
    + rewrite (scale_0_100_entry _ _ _ _ _ H Hi). f_equal. field. lra.
  - intros ->. split; [apply scale_0_100_degenerate|].
    intros i Hi. rewrite scale_0_100_degenerate, nth_error_map.
    destruct (nth_error values i) eqn:E; [reflexivity|].
    apply nth_error_None in E. lia.
Qed.

(** ** Elementwise operations *)

Lemma bcast_len_same (p : nat) : bcast_len p p = Ok p.
Proof. unfold bcast_len. now rewrite Nat.eqb_refl. Qed.

Lemma row_bcast_same (f : R -> R -> R) (a b : vec) :
  length a = length b -> row_bcast f a b = map2 f a b.
Proof. intros H. unfold row_bcast. now rewrite H, Nat.eqb_refl. Qed.

Lemma map2_length {A B C : Type} (f : A -> B -> C) (a : list A) (b : list B) :
  length a = length b -> length (map2 f a b) = length a.
Proof.
  revert b; induction a as [|x a IH]; intros [|y b] H; simpl in *; try congruence.
  f_equal. apply IH. congruence.
Qed.

Lemma map2_nth (f : R -> R -> R) (a b : vec) (j : nat) :
  length a = length b -> (j < length a)%nat ->
  nth j (map2 f a b) 0 = f (nth j a 0) (nth j b 0).
Proof.
  revert b j; induction a as [|x a IH]; intros [|y b] j H Hj; simpl in *;
    try lia; try congruence.
  destruct j; [reflexivity|]. apply IH; [congruence|lia].
Qed.

Lemma vec_bcast_same (f : R -> R -> R) (a b : vec) :
  length a = length b -> vec_bcast f a b = Ok (map2 f a b).
Proof.
  intros H. unfold vec_bcast. rewrite H, bcast_len_same. simpl.
  now rewrite row_bcast_same.
Qed.

Lemma mat_bcast_same (f : R -> R -> R) (x : ndarray) (v : vec) :
  well_shaped x -> length v = ncols x ->
  mat_bcast f x v = Ok {| ncols := ncols x; rows := map (fun r => map2 f r v) (rows x) |}.
Proof.
  intros Hx Hv. unfold mat_bcast. rewrite Hv, bcast_len_same. simpl.
  do 2 f_equal. apply map_ext_in. intros r Hr. apply row_bcast_same.
  unfold well_shaped in Hx. rewrite Forall_forall in Hx. rewrite (Hx r Hr). congruence.
Qed.

Lemma existsb_zero (v : vec) :
  existsb (fun d => Reqb d 0) v = true
  <-> exists j, (j < length v)%nat /\ nth j v 0 = 0.
Proof.
  rewrite existsb_exists. split.
  - intros (d & Hin & Hd). apply Reqb_true in Hd. subst d.
    destruct (In_nth _ _ 0 Hin) as (j & Hj & E). eauto.
  - intros (j & Hj & E). exists (nth j v 0). split; [now apply nth_In|].
    now apply Reqb_true.
Qed.

Lemma existsb_zero_false (v : vec) :
  existsb (fun d => Reqb d 0) v = false
  <-> forall j, (j < length v)%nat -> nth j v 0 <> 0.
Proof.
  split.
  - intros H j Hj E.
    assert (T : existsb (fun d => Reqb d 0) v = true) by (apply existsb_zero; eauto).
    congruence.
  - intros H. destruct (existsb _ v) eqn:E; [|reflexivity].
    apply existsb_zero in E. destruct E as (j & Hj & E). now elim (H j Hj).
Qed.

Lemma entry_map_rows (f : vec -> vec) (x : ndarray) (c i j : nat) :
  (i < nrows x)%nat ->
  entry {| ncols := c; rows := map f (rows x) |} i j
  = nth j (f (nth i (rows x) [])) 0.
Proof.
  intros Hi. unfold entry. simpl.
  rewrite (nth_indep _ [] (f []));
    [now rewrite map_nth | now rewrite length_map].
Qed.

Lemma well_shaped_row (x : ndarray) (i : nat) :
  well_shaped x -> (i < nrows x)%nat -> length (nth i (rows x) []) = ncols x.
Proof.
  intros Hx Hi. unfold well_shaped in Hx. rewrite Forall_forall in Hx.
  apply Hx. now apply nth_In.
Qed.

(** ** The standardization transforms *)

Lemma minmax_transform_ok (x : ndarray) (min_v max_v : vec) :
  well_shaped x -> length min_v = ncols x -> length max_v = ncols x ->
  (forall j, (j < ncols x)%nat -> nth j max_v 0 <> nth j min_v 0) ->
  _minmax_transform x min_v max_v
  = Ok {| ncols := ncols x;
          rows := map (fun r => map2 Rdiv (map2 Rminus r min_v)
                                          (map2 Rminus max_v min_v)) (rows x) |}.
Proof.
  intros Hx Hmin Hmax Hne. unfold _minmax_transform.
  rewrite vec_bcast_same by congruence. simpl.
  assert (E : existsb (fun d => Reqb d 0) (map2 Rminus max_v min_v) = false).
  { apply existsb_zero_false. intros j Hj.
    rewrite map2_length in Hj by congruence.
    rewrite map2_nth by (congruence || lia).
    specialize (Hne j ltac:(lia)). lra. }
  rewrite E. rewrite mat_bcast_same by assumption. simpl.
  rewrite mat_bcast_same; simpl.
  - now rewrite map_map.
  - unfold well_shaped; simpl. rewrite Forall_map.
    unfold well_shaped in Hx. eapply Forall_impl; [|exact Hx].
    intros r Hr. simpl. rewrite map2_length; congruence.
  - rewrite map2_length; congruence.
Qed.

Lemma minmax_transform_degenerate (x : ndarray) (min_v max_v : vec) :
  length min_v = length max_v ->
  (exists j, (j < length max_v)%nat /\ nth j max_v 0 = nth j min_v 0) ->
  _minmax_transform x min_v max_v = Err (ComputeError DegenerateColumnMinMax).
Proof.
  intros Hlen (j & Hj & E). unfold _minmax_transform.
  rewrite vec_bcast_same by congruence. simpl.
  assert (T : existsb (fun d => Reqb d 0) (map2 Rminus max_v min_v) = true).
  { apply existsb_zero. exists j. rewrite map2_length by congruence.
    split; [assumption|]. rewrite map2_nth by (congruence || lia). lra. }
  now rewrite T.
Qed.

Lemma zscore_transform_ok (x : ndarray) (mean std : vec) :
  well_shaped x -> length mean = ncols x -> length std = ncols x ->
  (forall j, (j < ncols x)%nat -> nth j std 0 <> 0) ->
  _zscore_transform x mean std
  = Ok {| ncols := ncols x;
          rows := map (fun r => map2 Rdiv (map2 Rminus r mean) std) (rows x) |}.
Proof.
  intros Hx Hmean Hstd Hne. unfold _zscore_transform.
  assert (E : existsb (fun d => Reqb d 0) std = false).
  { apply existsb_zero_false. intros j Hj. apply Hne. lia. }
  rewrite E. rewrite mat_bcast_same by assumption. simpl.
  rewrite mat_bcast_same; simpl.
  - now rewrite map_map.
  - unfold well_shaped; simpl. rewrite Forall_map.
    unfold well_shaped in Hx. eapply Forall_impl; [|exact Hx].
    intros r Hr. simpl. rewrite map2_length; congruence.
  - assumption.
Qed.

Lemma zscore_transform_degenerate (x : ndarray) (mean std : vec) :
  (exists j, (j < length std)%nat /\ nth j std 0 = 0) ->
  _zscore_transform x mean std = Err (ComputeError DegenerateColumnZScore).
Proof.
  intros H. unfold _zscore_transform.
  apply existsb_zero in H. now rewrite H.
Qed.

Lemma minmax_degenerate_dec (min_v max_v : vec) (p : nat) :
  length min_v = p -> length max_v = p ->
  (exists j, (j < p)%nat /\ nth j max_v 0 = nth j min_v 0)
  \/ (forall j, (j < p)%nat -> nth j max_v 0 <> nth j min_v 0).
Proof.
  intros Hmin Hmax.
  destruct (existsb (fun d => Reqb d 0) (map2 Rminus max_v min_v)) eqn:E.
  - left. apply existsb_zero in E. destruct E as (j & Hj & E).
    rewrite map2_length in Hj by congruence.
    rewrite map2_nth in E by (congruence || lia).
    exists j. split; [lia | lra].
  - right. intros j Hj Heq.
    apply (proj1 (existsb_zero_false _) E j).
    + rewrite map2_length by congruence. lia.
    + rewrite map2_nth by (congruence || lia). lra.
Qed.

Lemma zscore_degenerate_dec (std : vec) :
  (exists j, (j < length std)%nat /\ nth j std 0 = 0)
  \/ (forall j, (j < length std)%nat -> nth j std 0 <> 0).
Proof.
  destruct (existsb (fun d => Reqb d 0) std) eqn:E.
  - left. now apply existsb_zero.
  - right. now apply existsb_zero_false.
Qed.



(** ** Dictionaries *)

Lemma dict_get_set_same {V : Type} (k : string) (v : V) (d : dict V) :
  dict_get k (dict_set k v d) = Some v.
Proof.
  induction d as [|[k' v'] d IH]; simpl.
  - now rewrite String.eqb_refl.
  - destruct (String.eqb k k') eqn:E; simpl; now rewrite E.
Qed.

Lemma dict_get_set_other {V : Type} (k k0 : string) (v : V) (d : dict V) :
  k <> k0 -> dict_get k (dict_set k0 v d) = dict_get k d.
Proof.
  intros Hne. induction d as [|[k' v'] d IH]; simpl.
  - destruct (String.eqb k k0) eqn:E; [|reflexivity].
    apply String.eqb_eq in E. contradiction.
  - destruct (String.eqb k0 k') eqn:E0; simpl.
    + apply String.eqb_eq in E0. subst k'.
      destruct (String.eqb k k0) eqn:E; [|reflexivity].
      apply String.eqb_eq in E. contradiction.
    + now rewrite IH.
Qed.

Lemma dict_get_in_keys {V : Type} (k : string) (d : dict V) :
  In k (dict_keys d) <-> exists v, dict_get k d = Some v.
Proof.
  induction d as [|[k' v'] d IH]; simpl.
  - split; [tauto | intros (v & H); discriminate].
  - destruct (String.eqb k k') eqn:E.
    + apply String.eqb_eq in E. subst. split; eauto.
    + apply String.eqb_neq in E. rewrite <- IH. split.
      * intros [H|H]; [congruence | assumption].
      * tauto.
Qed.

Lemma dict_get_not_in_keys {V : Type} (k : string) (d : dict V) :
  ~ In k (dict_keys d) -> dict_get k d = None.
Proof.
  intros H. destruct (dict_get k d) eqn:E; [|reflexivity].
  elim H. apply dict_get_in_keys. eauto.
Qed.

Lemma dict_set_keys_in {V : Type} (k : string) (v : V) (d : dict V) :
  In k (dict_keys d) -> dict_keys (dict_set k v d) = dict_keys d.
Proof.
  induction d as [|[k' v'] d IH]; simpl; [tauto|].
  intros H. destruct (String.eqb k k') eqn:E; simpl; [reflexivity|].
  apply String.eqb_neq in E. f_equal. apply IH. destruct H; congruence.
Qed.

Lemma dict_set_keys_new {V : Type} (k : string) (v : V) (d : dict V) :
  ~ In k (dict_keys d) -> dict_set k v d = d ++ [(k, v)].
Proof.
  induction d as [|[k' v'] d IH]; simpl; [reflexivity|].
  intros H. destruct (String.eqb k k') eqn:E.
  - apply String.eqb_eq in E. subst k'. tauto.
  - f_equal. apply IH. tauto.
Qed.

Lemma dict_set_nodup {V : Type} (k : string) (v : V) (d : dict V) :
  NoDup (dict_keys d) -> NoDup (dict_keys (dict_set k v d)).
Proof.
  intros H. destruct (in_dec string_dec k (dict_keys d)) as [Hin|Hin].
  - now rewrite dict_set_keys_in.
  - rewrite dict_set_keys_new by assumption. unfold dict_keys.
    rewrite map_app. simpl.
    apply NoDup_app; [assumption | constructor; [intros [] | constructor] |].
    intros a Ha [<-|[]]. contradiction.
Qed.

Lemma dict_of_pairs_snoc {V : Type} (pairs : list (string * V)) (k : string) (v : V) :
  dict_of_pairs (pairs ++ [(k, v)]) = dict_set k v (dict_of_pairs pairs).
Proof. unfold dict_of_pairs. now rewrite fold_left_app. Qed.

(** A comprehension over pairwise distinct keys keeps every pair, in
    order. *)
Lemma dict_of_pairs_nodup {V : Type} (pairs : list (string * V)) :
  NoDup (map fst pairs) -> dict_of_pairs pairs = pairs.
Proof.
  induction pairs as [|[k v] pairs IH] using rev_ind; [reflexivity|].
  rewrite map_app. simpl. intros H.
  rewrite dict_of_pairs_snoc.
  assert (H1 : NoDup (map fst pairs)) by (eapply NoDup_app_remove_r; exact H).
  rewrite IH by assumption.
  apply dict_set_keys_new. unfold dict_keys.
  intros Hin. apply NoDup_remove_2 with (l' := []) in H.
  rewrite app_nil_r in H. contradiction.
Qed.

Lemma dict_of_pairs_keys_nodup {V : Type} (pairs : list (string * V)) :
  NoDup (dict_keys (dict_of_pairs pairs)).
Proof.
  induction pairs as [|[k v] pairs IH] using rev_ind; [constructor|].
  rewrite dict_of_pairs_snoc. now apply dict_set_nodup.
Qed.

(** ** The error monad *)

Lemma bind_ok {A B : Type} (m : res A) (f : A -> res B) (b : B) :
  bind m f = Ok b -> exists a, m = Ok a /\ f a = Ok b.
Proof. destruct m; simpl; [eauto | discriminate]. Qed.

Ltac inv_bind H :=
  let a := fresh "a" in
  let Ha := fresh "H" a in
  apply bind_ok in H; destruct H as (a & Ha & H).

Lemma mapM_length {A B : Type} (f : A -> res B) (l : list A) (out : list B) :
  mapM f l = Ok out -> length out = length l.
Proof.
  revert out; induction l as [|a l IH]; simpl; intros out H.
  - now inversion H.
  - inv_bind H. inv_bind H. inversion H; subst. simpl. f_equal. now apply IH.
Qed.

Lemma mapM_nth_error {A B : Type} (f : A -> res B) (l : list A) (out : list B)
      (i : nat) (a : A) :
  mapM f l = Ok out -> nth_error l i = Some a ->
  exists b, f a = Ok b /\ nth_error out i = Some b.
Proof.
  revert out i; induction l as [|a0 l IH]; simpl; intros out i H Hi.
  - destruct i; discriminate.
  - inv_bind H. inv_bind H. inversion H; subst.
    destruct i; simpl in *.
    + inversion Hi; subst. eauto.
    + eapply IH; eauto.
Qed.

(** ** Sub-scores and sub-indices *)

Lemma sub_scores_loop_nodup (z : ndarray) (w : vec) (dims : dict (list nat))
      (acc out : dict vec) :
  sub_scores_loop z w dims acc = Ok out ->
  NoDup (dict_keys acc) -> NoDup (dict_keys out).
Proof.
  revert acc; induction dims as [|[g idxs] dims IH]; simpl; intros acc H Hacc.
  - inversion H; now subst.
  - destruct (Rleb _ 0); [now apply (IH acc)|].
    inv_bind H. apply (IH _ H). now apply dict_set_nodup.
Qed.

Lemma compute_scores_nodup (z : ndarray) (keys : list string)
      (indicators : list IndicatorRecord) (ws : dict R)
      (score_raw : vec) (sub_scores : dict vec) :
  compute_scores z keys indicators ws = Ok (score_raw, sub_scores) ->
  NoDup (dict_keys sub_scores).
Proof.
  unfold compute_scores. intros H. inv_bind H. inv_bind H. inv_bind H.
  inversion H; subst. eapply sub_scores_loop_nodup; [eassumption | constructor].
Qed.

Lemma sub_index_loop_keeps (smin smax : dict R) (ss : dict vec)
      (acc out : dict vec) (g : string) :
  sub_index_loop smin smax ss acc = Ok out ->
  ~ In g (dict_keys ss) -> dict_get g out = dict_get g acc.
Proof.
  revert acc; induction ss as [|[g' v] ss IH]; simpl; intros acc H Hg.
  - inversion H; now subst.
  - inv_bind H. inv_bind H. rewrite (IH _ H) by tauto.
    apply dict_get_set_other. intros ->. tauto.
Qed.

Lemma sub_index_loop_lookup (smin smax : dict R) (ss : dict vec)
      (acc out : dict vec) (g : string) (v : vec) :
  sub_index_loop smin smax ss acc = Ok out ->
  NoDup (dict_keys ss) -> dict_get g ss = Some v ->
  exists gmin gmax,
    np_min v = Ok gmin /\ np_max v = Ok gmax
    /\ dict_get g out
       = Some (scale_0_100 v (dict_get_default g gmin smin)
                             (dict_get_default g gmax smax)).
Proof.
  revert acc; induction ss as [|[g' v'] ss IH]; simpl; intros acc H Hnd Hg.
  - discriminate.
  - inversion Hnd as [|? ? Hnotin Hnd']; subst.
    inv_bind H. inv_bind H.
    destruct (String.eqb g g') eqn:E.
    + apply String.eqb_eq in E. subst g'. inversion Hg; subst v'.
      exists a, a0. repeat split; try assumption.
      rewrite (sub_index_loop_keeps _ _ _ _ _ g H) by assumption.
      apply dict_get_set_same.
    + eapply IH; eassumption.
Qed.

(** The loop fails exactly when one of the sub-score vectors is empty,
    whatever the stored boundaries are. *)
Lemma sub_index_loop_error (smin smax smin' smax' : dict R) (ss : dict vec)
      (acc acc' : dict vec) (e : exn) :
  sub_index_loop smin smax ss acc = Err e ->
  sub_index_loop smin' smax' ss acc' = Err e.
Proof.
  revert acc acc'; induction ss as [|[g v] ss IH]; simpl; intros acc acc' H.
  - discriminate.
  - destruct (np_min v); simpl in *; [|assumption].
    destruct (np_max v); simpl in *; [|assumption].
    eapply IH; eassumption.
Qed.

(** ** The applier and the scaling entry *)

Lemma apply_locals_error (model : WeightModelRecord) (sc sc' : option ScoreScalingParams)
      (indicators : list IndicatorRecord) (x : ndarray)
      (directions : list Direction) (e : exn) :
  apply_weight_model_locals (with_scaling model sc) indicators x directions = Err e ->
  apply_weight_model_locals (with_scaling model sc') indicators x directions = Err e.
Proof.
  unfold apply_weight_model_locals.
  change (apply_standardize (with_scaling model sc) x directions)
    with (apply_standardize model x directions).
  change (apply_standardize (with_scaling model sc') x directions)
    with (apply_standardize model x directions).
  simpl.
  destruct (apply_standardize model x directions) as [z|]; simpl; [|trivial].
  destruct (compute_scores z (indicatorKeys model) indicators (weights model))
    as [[score_raw sub_scores]|]; simpl; [|trivial].
  destruct (np_min score_raw); simpl; [|trivial].
  destruct (np_max score_raw); simpl; [|trivial].
  intros H.
  destruct (sub_index_loop _ _ sub_scores []) eqn:E in H; simpl in H; [discriminate|].
  inversion H; subst.
  erewrite sub_index_loop_error; [reflexivity | exact E].
Qed.

Lemma apply_weight_model_error (model : WeightModelRecord)
      (indicators : list IndicatorRecord) (x : ndarray)
      (directions : list Direction) (e : exn) :
  apply_weight_model model indicators x directions = Err e
  <-> apply_weight_model_locals model indicators x directions = Err e.
Proof.
  unfold apply_weight_model.
  destruct (apply_weight_model_locals model indicators x directions)
    as [[[[[z sr] ss] si] ix]|]; simpl; split; congruence.
Qed.

(** C9.  Whether the applier fails, and with what, does not depend on the
    [scaling] entry of the record: with any entry [sc] it raises exactly
    what it raises with none.  When it returns, each boundary is the
    stored one if the record has it and otherwise the minimum or maximum
    of the scores just computed on the new matrix: for the overall index
    and for the sub-index of every group. *)
Theorem apply_missing_scaling (model : WeightModelRecord)
        (indicators : list IndicatorRecord) (x : ndarray)
        (directions : list Direction) :
  (forall sc e,
      apply_weight_model (with_scaling model sc) indicators x directions = Err e
      <-> apply_weight_model (with_scaling model None) indicators x directions = Err e)
  /\ (forall sc z score_raw sub_scores sub_index index,
        apply_weight_model_locals (with_scaling model sc) indicators x directions
        = Ok (z, score_raw, sub_scores, sub_index, index) ->
        exists dmin dmax,
          np_min score_raw = Ok dmin /\ np_max score_raw = Ok dmax
          /\ index
             = scale_0_100 score_raw
                 (option_default (scoreMin (scaling_or_empty (with_scaling model sc))) dmin)
                 (option_default (scoreMax (scaling_or_empty (with_scaling model sc))) dmax)
          /\ forall g v, dict_get g sub_scores = Some v ->
               exists gmin gmax,
                 np_min v = Ok gmin /\ np_max v = Ok gmax
                 /\ dict_get g sub_index
                    = Some (scale_0_100 v
                        (dict_get_default g gmin
                           (dict_or_empty (subScoreMin (scaling_or_empty (with_scaling model sc)))))
                        (dict_get_default g gmax
                           (dict_or_empty (subScoreMax (scaling_or_empty (with_scaling model sc)))))))
  /\ (forall z score_raw sub_scores sub_index index,
        apply_weight_model_locals (with_scaling model None) indicators x directions
        = Ok (z, score_raw, sub_scores, sub_index, index) ->
        exists dmin dmax,
          np_min score_raw = Ok dmin /\ np_max score_raw = Ok dmax
          /\ index = scale_0_100 score_raw dmin dmax
          /\ forall g v, dict_get g sub_scores = Some v ->
               exists gmin gmax,
                 np_min v = Ok gmin /\ np_max v = Ok gmax
                 /\ dict_get g sub_index = Some (scale_0_100 v gmin gmax)).
Proof.
  assert (General : forall sc z score_raw sub_scores sub_index index,
        apply_weight_model_locals (with_scaling model sc) indicators x directions
        = Ok (z, score_raw, sub_scores, sub_index, index) ->
        exists dmin dmax,
          np_min score_raw = Ok dmin /\ np_max score_raw = Ok dmax
          /\ index
             = scale_0_100 score_raw
                 (option_default (scoreMin (scaling_or_empty (with_scaling model sc))) dmin)
                 (option_default (scoreMax (scaling_or_empty (with_scaling model sc))) dmax)
          /\ forall g v, dict_get g sub_scores = Some v ->
               exists gmin gmax,
                 np_min v = Ok gmin /\ np_max v = Ok gmax
                 /\ dict_get g sub_index
                    = Some (scale_0_100 v
                        (dict_get_default g gmin
                           (dict_or_empty (subScoreMin (scaling_or_empty (with_scaling model sc)))))
                        (dict_get_default g gmax
                           (dict_or_empty (subScoreMax (scaling_or_empty (with_scaling model sc))))))).
  { intros sc z score_raw sub_scores sub_index index H.
    unfold apply_weight_model_locals in H.
    inv_bind H. inv_bind H. destruct a0 as [sr ss].
    inv_bind H. inv_bind H. inv_bind H. inversion H; subst.
    exists a0, a1. repeat split; try assumption.
    intros g v Hg.
    eapply sub_index_loop_lookup; try eassumption.
    eapply compute_scores_nodup; eassumption. }
  split; [|split].
  - intros sc e. rewrite !apply_weight_model_error.
    split; apply apply_locals_error.
  - exact General.
  - intros z score_raw sub_scores sub_index index H.
    destruct (General None _ _ _ _ _ H) as (dmin & dmax & Hmin & Hmax & Hi & Hs).
    exists dmin, dmax. repeat split; try assumption.
Qed.

(** ** No clamping *)

Lemma scale_entry_increasing (vmin vmax a b : R) :
  vmin < vmax -> a < b ->
  (a - vmin) / (vmax - vmin) * 100 < (b - vmin) / (vmax - vmin) * 100.
Proof.
  intros H Hab. unfold Rdiv.
  assert (0 < / (vmax - vmin)) by (apply Rinv_0_lt_compat; lra).
  nra.
Qed.

(** C7.  For [vmin < vmax] the index is strictly increasing in the raw
    score, an entry above [vmax] gets an index above 100 and an entry
    below [vmin] an index below 0; and the applier scales the sub-scores
    of a group with the boundaries stored in the record for that group,
    by the same unclamped map. *)
Theorem scale_0_100_not_clamped (values : vec) (vmin vmax : R) :
  vmin < vmax ->
  (forall i j a b,
      nth_error values i = Some a -> nth_error values j = Some b -> a < b ->
      exists sa sb,
        nth_error (scale_0_100 values vmin vmax) i = Some sa
        /\ nth_error (scale_0_100 values vmin vmax) j = Some sb
        /\ sa < sb)
  /\ (forall i a,
        nth_error values i = Some a -> vmax < a ->
        exists sa, nth_error (scale_0_100 values vmin vmax) i = Some sa /\ 100 < sa)
  /\ (forall i a,
        nth_error values i = Some a -> a < vmin ->
        exists sa, nth_error (scale_0_100 values vmin vmax) i = Some sa /\ sa < 0)
  /\ (forall model indicators x directions z score_raw sub_scores sub_index
             sc smin smax g,
        apply_weight_model model indicators x directions
        = Ok (z, score_raw, sub_scores, sub_index) ->
        scaling model = Some sc ->
        subScoreMin sc = Some smin -> subScoreMax sc = Some smax ->
        dict_get g smin = Some vmin -> dict_get g smax = Some vmax ->
        dict_get g sub_scores = Some values ->
        dict_get g sub_index = Some (scale_0_100 values vmin vmax)).
Proof.
  intros H. assert (Hne : vmax <> vmin) by lra.
  assert (Hinv : 0 < / (vmax - vmin)) by (apply Rinv_0_lt_compat; lra).
  repeat split.
  - intros i j a b Hi Hj Hab.
    exists ((a - vmin) / (vmax - vmin) * 100), ((b - vmin) / (vmax - vmin) * 100).
    repeat split; try (now apply scale_0_100_entry).
    now apply scale_entry_increasing.
  - intros i a Hi Ha. exists ((a - vmin) / (vmax - vmin) * 100).
    split; [now apply scale_0_100_entry|].
    pose proof (scale_entry_increasing vmin vmax vmax a H Ha) as E.
    replace ((vmax - vmin) / (vmax - vmin) * 100) with 100 in E by (field; lra).
    exact E.
  - intros i a Hi Ha. exists ((a - vmin) / (vmax - vmin) * 100).
    split; [now apply scale_0_100_entry|].
    pose proof (scale_entry_increasing vmin vmax a vmin H Ha) as E.
    replace ((vmin - vmin) / (vmax - vmin) * 100) with 0 in E by (field; lra).
    exact E.
  - intros model indicators x directions z score_raw sub_scores sub_index
           sc smin smax g Happ Hsc Hsmin Hsmax Hgmin Hgmax Hg.
    unfold apply_weight_model in Happ. inv_bind Happ.
    destruct a as [[[[z' sr] ss] si] ix]. inversion Happ; subst.
    unfold apply_weight_model_locals in Ha.
    inv_bind Ha. inv_bind Ha. destruct a0 as [sr ss].
    inv_bind Ha. inv_bind Ha. inv_bind Ha. inversion Ha; subst.
    match goal with
    | Hl : sub_index_loop _ _ _ _ = Ok _ |- _ =>
        unfold scaling_or_empty in Hl; rewrite Hsc, Hsmin, Hsmax in Hl; simpl in Hl;
        destruct (sub_index_loop_lookup _ _ _ _ _ g values Hl)
          as (gmin & gmax & _ & _ & E)
    end.
    + eapply compute_scores_nodup; eassumption.
    + assumption.
    + rewrite E. unfold dict_get_default. now rewrite Hgmin, Hgmax.
Qed.

Lemma scale_0_100_not_clamped_witness :
  0 < 1 /\ exists sa, nth_error (scale_0_100 [2] 0 1) 0%nat = Some sa /\ 100 < sa.
Proof.
  assert (H : 0 < 1) by lra.
  split; [exact H|].
  destruct (scale_0_100_not_clamped [2] 0 1 H) as (_ & Above & _).
  apply (Above 0%nat 2); [reflexivity | lra].
Defined.

(** ** Sums and normalization *)

Lemma vsum_map_div (a : vec) (s : R) :
  vsum (map (fun t => t / s) a) = vsum a / s.
Proof.
  induction a as [|x a IH]; simpl.
  - unfold Rdiv. ring.
  - rewrite IH. unfold Rdiv. ring.
Qed.

Lemma vsum_normalized (a : vec) :
  vsum a <> 0 -> vsum (map (fun t => t / vsum a) a) = 1.
Proof. intros H. rewrite vsum_map_div. now field. Qed.

Lemma vsum_nonneg (a : vec) : Forall (fun t => 0 <= t) a -> 0 <= vsum a.
Proof. induction 1; simpl; lra. Qed.

Lemma normalized_nonneg (a : vec) (s : R) :
  0 < s -> Forall (fun t => 0 <= t) a -> Forall (fun t => 0 <= t) (map (fun t => t / s) a).
Proof.
  intros Hs H. rewrite Forall_map. eapply Forall_impl; [|exact H].
  intros t Ht. simpl. apply Rmult_le_pos; [assumption|].
  left. now apply Rinv_0_lt_compat.
Qed.

(** ** AHP weighting *)

Lemma argmax_from_spec (v pre : vec) (besti : nat) :
  (besti < length pre)%nat ->
  (forall j, (j < length pre)%nat -> nth j pre 0 <= nth besti pre 0) ->
  let r := argmax_from (nth besti pre 0) besti (length pre) v in
  (r < length (pre ++ v))%nat
  /\ forall j, (j < length (pre ++ v))%nat -> nth j (pre ++ v) 0 <= nth r (pre ++ v) 0.
Proof.
  revert pre besti. induction v as [|a t IH]; intros pre besti Hb Hmax; simpl.
  - rewrite app_nil_r. split; assumption.
  - assert (Hl : length (pre ++ [a]) = S (length pre))
      by (rewrite length_app; simpl; lia).
    assert (Happ : (pre ++ [a]) ++ t = pre ++ a :: t)
      by (now rewrite <- app_assoc).
    destruct (Rltb (nth besti pre 0) a) eqn:E.
    + apply Rltb_true in E.
      assert (Ha : nth (length pre) (pre ++ [a]) 0 = a)
        by (rewrite app_nth2 by lia; now rewrite Nat.sub_diag).
      pose proof (IH (pre ++ [a]) (length pre)) as IH'.
      rewrite Ha, Hl, Happ in IH'. apply IH'; [lia|].
      intros j Hj.
      destruct (Nat.eq_dec j (length pre)) as [->|Hne]; [rewrite Ha; lra|].
      rewrite app_nth1 by lia. specialize (Hmax j ltac:(lia)). lra.
    + apply Rltb_false in E.
      assert (Hb' : nth besti (pre ++ [a]) 0 = nth besti pre 0)
        by (now rewrite app_nth1).
      pose proof (IH (pre ++ [a]) besti) as IH'.
      rewrite Hb', Hl, Happ in IH'. apply IH'; [lia|].
      intros j Hj.
      destruct (Nat.eq_dec j (length pre)) as [->|Hne].
      * rewrite app_nth2 by lia. now rewrite Nat.sub_diag.
      * rewrite app_nth1 by lia. apply Hmax. lia.
Qed.

Lemma np_argmax_spec (v : vec) :
  v <> [] ->
  exists idx, np_argmax v = Ok idx
              /\ (idx < length v)%nat
              /\ forall j, (j < length v)%nat -> nth j v 0 <= nth idx v 0.
Proof.
  destruct v as [|a t]; [congruence|]. intros _. simpl.
  eexists. split; [reflexivity|].
  apply (argmax_from_spec t [a] 0%nat).
  - simpl; lia.
  - intros j Hj. simpl in Hj. replace j with 0%nat by lia. simpl. lra.
Qed.

(** [np.argmax] returns the first index of the largest entry: every entry
    before it is strictly smaller. *)
Lemma argmax_from_first (v pre : vec) (besti : nat) :
  (besti < length pre)%nat ->
  (forall j, (j < length pre)%nat -> nth j pre 0 <= nth besti pre 0) ->
  (forall j, (j < besti)%nat -> nth j pre 0 < nth besti pre 0) ->
  let r := argmax_from (nth besti pre 0) besti (length pre) v in
  forall j, (j < r)%nat -> nth j (pre ++ v) 0 < nth r (pre ++ v) 0.
Proof.
  revert pre besti. induction v as [|a t IH]; intros pre besti Hb Hmax Hfirst; simpl.
  - rewrite app_nil_r. exact Hfirst.
  - assert (Hl : length (pre ++ [a]) = S (length pre))
      by (rewrite length_app; simpl; lia).
    assert (Happ : (pre ++ [a]) ++ t = pre ++ a :: t)
      by (now rewrite <- app_assoc).
    destruct (Rltb (nth besti pre 0) a) eqn:E.
    + apply Rltb_true in E.
      assert (Ha : nth (length pre) (pre ++ [a]) 0 = a)
        by (rewrite app_nth2 by lia; now rewrite Nat.sub_diag).
      pose proof (IH (pre ++ [a]) (length pre)) as IH'.
      rewrite Ha, Hl, Happ in IH'. apply IH'; [lia| |].
      * intros j Hj.
        destruct (Nat.eq_dec j (length pre)) as [->|Hne]; [rewrite Ha; lra|].
        rewrite app_nth1 by lia. specialize (Hmax j ltac:(lia)). lra.
      * intros j Hj. rewrite app_nth1 by lia. specialize (Hmax j Hj). lra.
    + apply Rltb_false in E.
      assert (Hb' : nth besti (pre ++ [a]) 0 = nth besti pre 0)
        by (now rewrite app_nth1).
      pose proof (IH (pre ++ [a]) besti) as IH'.
      rewrite Hb', Hl, Happ in IH'. apply IH'; [lia| |].
      * intros j Hj.
        destruct (Nat.eq_dec j (length pre)) as [->|Hne].
        -- rewrite app_nth2 by lia. now rewrite Nat.sub_diag.
        -- rewrite app_nth1 by lia. apply Hmax. lia.
      * intros j Hj. rewrite app_nth1 by lia. now apply Hfirst.
Qed.

Lemma np_argmax_first (v : vec) (idx : nat) :
  np_argmax v = Ok idx -> forall j, (j < idx)%nat -> nth j v 0 < nth idx v 0.
Proof.
  destruct v as [|a t]; [discriminate|]. simpl. intros H. inversion H; subst idx.
  apply (argmax_from_first t [a] 0%nat).
  - simpl; lia.
  - intros j Hj. simpl in Hj. replace j with 0%nat by lia. simpl. lra.
  - intros j Hj. lia.
Qed.

Lemma flip_negative_abs (v : vec) :
  map (fun t => if Rltb t 0 then - t else t) v = map Rabs v.
Proof.
  apply map_ext. intros t. destruct (Rltb t 0) eqn:E.
  - apply Rltb_true in E. now rewrite Rabs_left.
  - apply Rltb_false in E. now rewrite Rabs_right by lra.
Qed.

Lemma map_Rabs_nonneg (v : vec) : Forall (fun t => 0 <= t) (map Rabs v).
Proof. rewrite Forall_map. apply Forall_forall. intros t _. apply Rabs_pos. Qed.

Lemma map_Rabs_of_nonneg (v : vec) :
  Forall (fun t => 0 <= t) v -> map Rabs v = v.
Proof.
  induction 1 as [|t v Ht _ IH]; simpl; [reflexivity|].
  rewrite IH. f_equal. apply Rabs_right. lra.
Qed.

Lemma map_Rabs_of_nonpos (v : vec) :
  Forall (fun t => t <= 0) v -> map Rabs v = map Ropp v.
Proof.
  induction 1 as [|t v Ht _ IH]; simpl; [reflexivity|].
  rewrite IH. f_equal. destruct Ht as [Ht| ->].
  - now apply Rabs_left.
  - rewrite Rabs_R0. ring.
Qed.

(** C5.  Given the eigendecomposition numpy returns for the matrix: a
    non-square matrix raises the non-square error; for a square comparison
    matrix of [n >= 1] indicators the eigenvector taken is the one of the
    eigenvalue of largest real part (the first one, should several share
    that real part), the sign of its real part is flipped where it is
    negative (the vector itself when no entry is negative, its opposite
    when no entry is positive), a zero sum raises the zero-weight-vector
    error and otherwise the result is that vector divided by its sum:
    non-negative entries of sum 1. *)
Theorem ahp_weights_spec
        (eig : ndarray -> list complex * list (list complex))
        (matrix : ndarray) (eigvals : list complex) (eigvecs : list (list complex)) :
  eig matrix = (eigvals, eigvecs) ->
  length eigvals = nrows matrix ->
  Forall (fun r => length r = nrows matrix) eigvecs ->
  (nrows matrix <> ncols matrix ->
   _ahp_weights eig matrix = Err (ComputeError AHPNonSquareMatrix))
  /\ (nrows matrix = ncols matrix -> (1 <= nrows matrix)%nat ->
      exists idx,
        (idx < nrows matrix)%nat
        /\ (forall j, (j < nrows matrix)%nat ->
                      re (nth j eigvals (0, 0)) <= re (nth idx eigvals (0, 0)))
        /\ (forall j, (j < idx)%nat ->
                      re (nth j eigvals (0, 0)) < re (nth idx eigvals (0, 0)))
        /\ let v := map (fun r => re (nth idx r (0, 0))) eigvecs in
           (vsum (map Rabs v) = 0 ->
            _ahp_weights eig matrix = Err (ComputeError AHPZeroWeightVector))
           /\ (vsum (map Rabs v) <> 0 ->
               exists w lambda_max ci cr,
                 _ahp_weights eig matrix = Ok (w, lambda_max, ci, cr)
                 /\ w = map (fun t => t / vsum (map Rabs v)) (map Rabs v)
                 /\ lambda_max = re (nth idx eigvals (0, 0))
                 /\ Forall (fun t => 0 <= t) w
                 /\ vsum w = 1
                 /\ (Forall (fun t => 0 <= t) v ->
                     w = map (fun t => t / vsum v) v)
                 /\ (Forall (fun t => t <= 0) v ->
                     w = map (fun t => t / vsum (map Ropp v)) (map Ropp v)))).
Proof.
  intros Heig Hvals Hvecs. unfold _ahp_weights. rewrite Heig.
  split.
  - intros H. apply Nat.eqb_neq in H. now rewrite H.
  - intros H H1. rewrite <- H, Nat.eqb_refl. simpl.
    assert (L : Nat.ltb (nrows matrix) 1 = false) by (apply Nat.ltb_ge; lia).
    rewrite L.
    destruct (np_argmax_spec (map re eigvals)) as (idx & Hidx & Hlt & Hmax).
    { destruct eigvals; simpl in *; [lia | discriminate]. }
    rewrite length_map, Hvals in Hlt, Hmax.
    assert (Hre : forall j, nth j (map re eigvals) 0 = re (nth j eigvals (0, 0))).
    { intros j. change 0 with (re (0, 0)) at 1. apply map_nth. }
    exists idx. split; [assumption|]. split.
    { intros j Hj. rewrite <- !Hre. now apply Hmax. }
    split.
    { intros j Hj. rewrite <- !Hre. now apply (np_argmax_first _ _ Hidx). }
    rewrite Hidx. simpl.
    assert (Hix : vec_index (map re eigvals) idx = Ok (re (nth idx eigvals (0, 0)))).
    { unfold vec_index. rewrite <- Hre.
      rewrite (nth_error_nth' _ 0); [reflexivity | rewrite length_map; lia]. }
    rewrite Hix. simpl.
    assert (Hex : existsb (fun r => Nat.leb (length r) idx) eigvecs = false).
    { destruct (existsb _ eigvecs) eqn:E; [|reflexivity].
      apply existsb_exists in E. destruct E as (r & Hr & Hle).
      rewrite Forall_forall in Hvecs. rewrite (Hvecs r Hr) in Hle.
      apply Nat.leb_le in Hle. lia. }
    rewrite Hex. simpl. rewrite flip_negative_abs.
    set (v := map (fun r => re (nth idx r (0, 0))) eigvecs).
    split.
    + intros Hz. apply Reqb_true in Hz. now rewrite Hz.
    + intros Hnz. pose proof Hnz as Hnz'. apply Reqb_false in Hnz'. rewrite Hnz'.
      do 4 eexists. split; [reflexivity|].
      assert (Hpos : 0 < vsum (map Rabs v)).
      { pose proof (vsum_nonneg _ (map_Rabs_nonneg v)). lra. }
      repeat split.
      * apply normalized_nonneg; [assumption | apply map_Rabs_nonneg].
      * now apply vsum_normalized.
      * intros Hv. now rewrite (map_Rabs_of_nonneg v Hv).
      * intros Hv. now rewrite (map_Rabs_of_nonpos v Hv).
Qed.

Lemma ahp_weights_spec_witness :
  consistent_eig consistent_matrix
  = ([(3, 0); (0, 0); (0, 0)],
     [[(4, 0); (2, 0); (4, 0)]; [(2, 0); (-1, 0); (0, 0)]; [(1, 0); (0, 0); (-1, 0)]])
  /\ exists w lambda_max ci cr,
       _ahp_weights consistent_eig consistent_matrix = Ok (w, lambda_max, ci, cr)
       /\ w = [4 / 7; 2 / 7; 1 / 7] /\ lambda_max = 3.
Proof.
  split; [reflexivity|].
  destruct (ahp_weights_spec consistent_eig consistent_matrix _ _ eq_refl eq_refl)
    as (_ & H).
  { repeat constructor. }
  destruct (H eq_refl) as (idx & Hidx & Hmax & _ & _ & Hok).
  { unfold nrows; simpl; lia. }
  unfold nrows in Hidx, Hmax; simpl in Hidx, Hmax.
  assert (idx = 0%nat) as ->.
  { pose proof (Hmax 0%nat ltac:(lia)) as H0.
    destruct idx as [|[|[|idx]]]; simpl in H0; try reflexivity; try lra. lia. }
  simpl in Hok.
  destruct Hok as (w & lambda_max & ci & cr & E & _ & Hl & _ & _ & Hw & _).
  { rewrite !Rabs_right by lra. lra. }
  exists w, lambda_max, ci, cr. split; [exact E|]. split; [|exact Hl].
  rewrite Hw by (repeat constructor; lra).
  repeat (f_equal; try lra).
Defined.

(** ** PCA: the component count *)

Lemma half_lt (d : nat) : (0 < d)%nat -> (d / 2 < d)%nat.
Proof. intros H. apply Nat.div_lt; lia. Qed.

Lemma bisect_left_step (fuel : nat) (a : vec) (key : R) (lo hi : nat) :
  bisect_left (S fuel) a key lo hi
  = if Nat.ltb lo hi then
      if Rltb (nth (lo + (hi - lo) / 2) a 0) key
      then bisect_left fuel a key (S (lo + (hi - lo) / 2)) hi
      else bisect_left fuel a key lo (lo + (hi - lo) / 2)
    else lo.
Proof. reflexivity. Qed.

Lemma bisect_left_spec (a : vec) (key : R) :
  nondecreasing a ->
  forall fuel lo hi,
    (lo <= hi)%nat -> (hi <= length a)%nat -> (hi - lo < fuel)%nat ->
    (forall i, (i < lo)%nat -> nth i a 0 < key) ->
    (forall i, (hi <= i)%nat -> (i < length a)%nat -> key <= nth i a 0) ->
    let r := bisect_left fuel a key lo hi in
    (lo <= r)%nat /\ (r <= hi)%nat
    /\ (forall i, (i < r)%nat -> nth i a 0 < key)
    /\ (forall i, (r <= i)%nat -> (i < length a)%nat -> key <= nth i a 0).
Proof.
  intros Hsorted. induction fuel as [|fuel IH]; intros lo hi Hle Hhi Hfuel Hlow Hhigh.
  - lia.
  - cbv zeta. rewrite bisect_left_step. destruct (Nat.ltb lo hi) eqn:E.
    + apply Nat.ltb_lt in E.
      pose proof (half_lt (hi - lo) ltac:(lia)) as Hhalf.
      set (mid := (lo + (hi - lo) / 2)%nat) in *.
      assert (Hmid : (lo <= mid < hi)%nat) by (unfold mid; lia).
      destruct (Rltb (nth mid a 0) key) eqn:C.
      * apply Rltb_true in C.
        destruct (IH (S mid) hi) as (R1 & R2 & R3 & R4); try lia; try assumption.
        { intros i Hi. apply Rle_lt_trans with (nth mid a 0); [|assumption].
          apply Hsorted; lia. }
        repeat split; try assumption; lia.
      * apply Rltb_false in C.
        destruct (IH lo mid) as (R1 & R2 & R3 & R4); try lia; try assumption.
        { intros i Hi Hlen. apply Rle_trans with (nth mid a 0); [assumption|].
          apply Hsorted; lia. }
        repeat split; try assumption; lia.
    + apply Nat.ltb_ge in E. assert (lo = hi) by lia. subst hi.
      repeat split; try assumption; lia.
Qed.

(** On a sorted array, [np.searchsorted] is the number of entries below
    the key: the first index whose entry reaches it. *)
Lemma np_searchsorted_spec (a : vec) (key : R) :
  nondecreasing a ->
  let r := np_searchsorted a key in
  (r <= length a)%nat
  /\ (forall i, (i < r)%nat -> nth i a 0 < key)
  /\ (forall i, (r <= i)%nat -> (i < length a)%nat -> key <= nth i a 0).
Proof.
  intros Hsorted. unfold np_searchsorted.
  destruct (bisect_left_spec a key Hsorted (S (length a)) 0 (length a))
    as (_ & R2 & R3 & R4); try lia.
  repeat split; assumption.
Qed.

Lemma cumsum_from_length (acc : R) (v : vec) :
  length (cumsum_from acc v) = length v.
Proof. revert acc; induction v; intros acc; simpl; congruence. Qed.

Lemma cumsum_from_lower (v : vec) :
  Forall (fun t => 0 <= t) v ->
  forall acc j, (j < length v)%nat -> acc <= nth j (cumsum_from acc v) 0.
Proof.
  induction 1 as [|a v Ha _ IH]; intros acc j Hj; simpl in *; [lia|].
  destruct j; [lra|].
  apply Rle_trans with (acc + a); [lra|]. apply IH. lia.
Qed.

Lemma cumsum_from_nondecreasing (v : vec) :
  Forall (fun t => 0 <= t) v ->
  forall acc, nondecreasing (cumsum_from acc v).
Proof.
  induction 1 as [|a v Ha Hv IH]; intros acc i j Hij Hj; simpl in *; [lia|].
  destruct j.
  - replace i with 0%nat by lia. lra.
  - destruct i.
    + apply cumsum_from_lower; [assumption|].
      rewrite cumsum_from_length in Hj. lia.
    + apply IH; lia.
Qed.

Lemma nondecreasing_scaled (v : vec) (s : R) :
  0 < s -> nondecreasing v -> nondecreasing (map (fun c => c / s) v).
Proof.
  intros Hs Hv i j Hij Hj. rewrite length_map in Hj.
  assert (E : forall n, nth n (map (fun c => c / s) v) 0 = nth n v 0 / s).
  { intros n. replace 0 with (0 / s) at 1 by (unfold Rdiv; ring).
    apply (map_nth (fun c => c / s)). }
  rewrite !E. unfold Rdiv. apply Rmult_le_compat_r.
  - left. now apply Rinv_0_lt_compat.
  - now apply Hv.
Qed.

Lemma insert_sorted_length (a : R * nat) (l : list (R * nat)) :
  length (insert_sorted a l) = S (length l).
Proof.
  induction l as [|b l IH]; simpl; [reflexivity|].
  destruct (Rltb (fst a) (fst b)); simpl; congruence.
Qed.

Lemma np_argsort_length (v : vec) : length (np_argsort v) = length v.
Proof.
  unfold np_argsort. rewrite length_map.
  assert (G : forall (l : list (R * nat)) acc,
             length (fold_left (fun acc a => insert_sorted a acc) l acc)
             = (length l + length acc)%nat).
  { induction l as [|a l IH]; intros acc; simpl; [reflexivity|].
    rewrite IH, insert_sorted_length. lia. }
  rewrite G, length_combine, length_seq. simpl. lia.
Qed.

Section PcaSelection.

Variable eigh : ndarray -> vec * ndarray.
Variable z : ndarray.

(** numpy returns as many eigenvalues as the matrix has columns. *)
Hypothesis eigh_count : length (fst (eigh (np_cov z))) = ncols z.

Lemma pca_eigvals_length : length (pca_eigvals eigh z) = ncols z.
Proof.
  unfold pca_eigvals. destruct (eigh (np_cov z)) as [eigvals eigvecs].
  simpl in eigh_count. unfold take_indices.
  now rewrite !length_map, length_rev, np_argsort_length.
Qed.

Lemma pca_eigvals_nonneg : Forall (fun t => 0 <= t) (pca_eigvals eigh z).
Proof.
  unfold pca_eigvals. destruct (eigh (np_cov z)) as [eigvals eigvecs].
  rewrite Forall_map. apply Forall_forall. intros t _.
  destruct (Rltb t 0) eqn:E; [lra|]. now apply Rltb_false in E.
Qed.

Lemma pca_cum_length : length (pca_cum eigh z) = ncols z.
Proof.
  unfold pca_cum, np_cumsum.
  now rewrite length_map, cumsum_from_length, pca_eigvals_length.
Qed.

Lemma pca_cum_nondecreasing :
  0 < vsum (pca_eigvals eigh z) -> nondecreasing (pca_cum eigh z).
Proof.
  intros H. unfold pca_cum. apply nondecreasing_scaled; [assumption|].
  apply cumsum_from_nondecreasing, pca_eigvals_nonneg.
Qed.

Lemma pca_count_positive : 0 < vsum (pca_eigvals eigh z) -> (1 <= ncols z)%nat.
Proof.
  intros H. rewrite <- pca_eigvals_length.
  destruct (pca_eigvals eigh z); simpl in *; [lra | lia].
Qed.

End PcaSelection.

(** C4.  When [_pca_weights] returns (so the sample has at least two rows
    and the clipped eigenvalues have a positive sum), the recorded [k] lies
    in [1, p]; it is the smallest [l] whose cumulative explained-variance
    ratio [cum_l] reaches the threshold when there is one, and [p] when
    there is none; and the recorded cumulative diagnostic is [cum_k]. *)
Theorem pca_component_count (eigh : ndarray -> vec * ndarray) (z : ndarray)
        (cum_var_threshold : R) (r : PcaResult) :
  length (fst (eigh (np_cov z))) = ncols z ->
  _pca_weights eigh z cum_var_threshold = Ok r ->
  let cum := pca_cum eigh z in
  let p := ncols z in
  (2 <= nrows z)%nat
  /\ 0 < vsum (pca_eigvals eigh z)
  /\ cum = map (fun c => c / vsum (pca_eigvals eigh z))
               (np_cumsum (pca_eigvals eigh z))
  /\ (1 <= pca_k r)%nat /\ (pca_k r <= p)%nat
  /\ pca_cumulative r = nth (pca_k r - 1) cum 0
  /\ ((exists l, (1 <= l)%nat /\ (l <= p)%nat /\ cum_var_threshold <= nth (l - 1) cum 0) ->
      cum_var_threshold <= nth (pca_k r - 1) cum 0
      /\ forall l, (1 <= l)%nat -> (l < pca_k r)%nat ->
                   nth (l - 1) cum 0 < cum_var_threshold)
  /\ ((forall l, (1 <= l)%nat -> (l <= p)%nat -> nth (l - 1) cum 0 < cum_var_threshold) ->
      pca_k r = p).
Proof.
  intros Hcount H. cbv zeta. unfold _pca_weights in H.
  destruct (Nat.ltb (nrows z) 2) eqn:En; [discriminate|].
  apply Nat.ltb_ge in En.
  destruct (Nat.eqb (ncols z) 1) eqn:E1; [discriminate|].
  destruct (Rleb (vsum (pca_eigvals eigh z)) 0) eqn:Et; [discriminate|].
  apply Rleb_false in Et.
  remember (Nat.max 1 (Nat.min (np_searchsorted (pca_cum eigh z) cum_var_threshold + 1)
                               (ncols z))) as k eqn:Hk.
  inv_bind H. inv_bind H.
  destruct (Rleb (vsum a0) 0); [discriminate|]. inversion H; subst r; clear H.
  cbn [pca_k pca_cumulative pca_weights].
  pose proof (pca_count_positive eigh z Hcount Et) as Hp.
  pose proof (pca_cum_length eigh z Hcount) as Hlen.
  destruct (np_searchsorted_spec (pca_cum eigh z) cum_var_threshold
              (pca_cum_nondecreasing eigh z Hcount Et)) as (S1 & S2 & S3).
  rewrite Hlen in S1, S3.
  set (ss := np_searchsorted (pca_cum eigh z) cum_var_threshold) in *.
  split; [assumption|]. split; [assumption|]. split; [reflexivity|].
  split; [lia|]. split; [lia|]. split.
  { unfold vec_index in Ha.
    destruct (nth_error (pca_cum eigh z) _) eqn:E in Ha; [|discriminate].
    inversion Ha; subst a. symmetry. now apply nth_error_nth. }
  split.
  - intros (l & Hl1 & Hlp & Hl).
    assert (Hss : (ss < ncols z)%nat).
    { destruct (Nat.lt_ge_cases ss (ncols z)) as [|Hge]; [assumption|].
      assert (ss = ncols z) by lia.
      specialize (S2 (l - 1)%nat ltac:(lia)). lra. }
    replace (k - 1)%nat with ss by lia.
    split; [apply S3; lia|].
    intros l' Hl1' Hl'. apply S2. lia.
  - intros Hnone.
    assert (Hss : ss = ncols z).
    { destruct (Nat.lt_ge_cases ss (ncols z)) as [Hlt|Hge]; [|lia].
      specialize (Hnone (ss + 1)%nat ltac:(lia) ltac:(lia)).
      replace (ss + 1 - 1)%nat with ss in Hnone by lia.
      specialize (S3 ss ltac:(lia) Hlt). lra. }
    lia.
Qed.

Ltac decide_reals :=
  repeat match goal with
    | |- context [Rltb ?a ?b] =>
        first [ replace (Rltb a b) with true by (symmetry; apply Rltb_true; lra)
              | replace (Rltb a b) with false by (symmetry; apply Rltb_false; lra) ]
    | |- context [Rleb ?a ?b] =>
        first [ replace (Rleb a b) with true by (symmetry; apply Rleb_true; lra)
              | replace (Rleb a b) with false by (symmetry; apply Rleb_false; lra) ]
    | |- context [Reqb ?a ?b] =>
        first [ replace (Reqb a b) with true by (symmetry; apply Reqb_true; lra)
              | replace (Reqb a b) with false by (symmetry; apply Reqb_false; lra) ]
    end.

Lemma Rsqr_inv_sqrt2 : Rsqr (/ sqrt 2) = / 2.
Proof.
  unfold Rsqr. rewrite <- Rinv_mult. now rewrite sqrt_sqrt by lra.
Qed.

Lemma correlated_pca_runs :
  exists r, _pca_weights correlated_eigh correlated_z 0.85 = Ok r
            /\ pca_k r = 1%nat /\ pca_cumulative r = 1.
Proof.
  unfold _pca_weights, pca_cum, pca_eigvals, pca_eigvecs, np_argsort,
    np_searchsorted, np_cumsum.
  cbn -[Rsqr sqrt Rltb Rleb Rdiv Rplus Rmult Rinv Nat.div].
  decide_reals.
  cbn -[Rsqr sqrt Rltb Rleb Rdiv Rplus Rmult Rinv Nat.div].
  decide_reals.
  cbn -[Rsqr sqrt Rltb Rleb Rdiv Rplus Rmult Rinv].
  decide_reals.
  cbn -[Rsqr sqrt Rltb Rleb Rdiv Rplus Rmult Rinv].
  rewrite !Rsqr_inv_sqrt2. unfold Rsqr.
  decide_reals.
  eexists. split; [reflexivity|]. split; [reflexivity|]. cbn. lra.
Qed.

Lemma pca_component_count_witness :
  length (fst (correlated_eigh (np_cov correlated_z))) = ncols correlated_z
  /\ exists r, _pca_weights correlated_eigh correlated_z 0.85 = Ok r
               /\ (1 <= pca_k r)%nat /\ (pca_k r <= 2)%nat
               /\ pca_cumulative r
                  = nth (pca_k r - 1) (pca_cum correlated_eigh correlated_z) 0.
Proof.
  split; [reflexivity|].
  destruct correlated_pca_runs as (r & Hr & _).
  exists r. split; [exact Hr|].
  destruct (pca_component_count correlated_eigh correlated_z 0.85 r eq_refl Hr)
    as (_ & _ & _ & K1 & K2 & K3 & _).
  repeat split; assumption.
Defined.

(** ** The trainer, step by step *)

Section Trainer.

Variable eigh : ndarray -> vec * ndarray.
Variable eig : ndarray -> list complex * list (list complex).

Lemma train_weight_model_inv
      (id created : string) (method : WeightMethod) (name : string)
      (keys : list string) (indicators : list IndicatorRecord)
      (x_train : ndarray) (directions : list Direction) (ds : list string)
      (ahp_matrix : option (list (list R))) (thr : R) (model : WeightModelRecord) :
  train_weight_model eigh eig id created method name keys indicators x_train
                     directions ds ahp_matrix thr = Ok model ->
  exists x z w_vec std pinfo ainfo score_raw sub_scores lo hi sub_lo sub_hi,
    _apply_direction x_train directions = Ok x
    /\ train_fit eigh eig method keys x ahp_matrix thr = Ok (z, w_vec, std, pinfo, ainfo)
    /\ keyed keys w_vec = Ok (weights model)
    /\ compute_scores z keys indicators (weights model) = Ok (score_raw, sub_scores)
    /\ np_min score_raw = Ok lo /\ np_max score_raw = Ok hi
    /\ dict_mapM np_min sub_scores = Ok sub_lo
    /\ dict_mapM np_max sub_scores = Ok sub_hi
    /\ indicatorKeys model = keys
    /\ dimension2Weights model = build_dimension2_weights indicators (weights model)
    /\ standardization model = std
    /\ scaling model = Some {| scoreMin := Some lo; scoreMax := Some hi;
                               subScoreMin := Some sub_lo; subScoreMax := Some sub_hi |}.
Proof.
  unfold train_weight_model. intros H.
  inv_bind H. inv_bind H. destruct a0 as [[[[z w_vec] std] pinfo] ainfo].
  inv_bind H. inv_bind H. destruct a1 as [score_raw sub_scores].
  inv_bind H. inv_bind H. inv_bind H. inv_bind H.
  inversion H; subst model; clear H. simpl.
  do 12 eexists. repeat split; eassumption.
Qed.

Lemma train_scores_of_model
      (id created : string) (method : WeightMethod) (name : string)
      (keys : list string) (indicators : list IndicatorRecord)
      (x_train : ndarray) (directions : list Direction) (ds : list string)
      (ahp_matrix : option (list (list R))) (thr : R) (model : WeightModelRecord) :
  train_weight_model eigh eig id created method name keys indicators x_train
                     directions ds ahp_matrix thr = Ok model ->
  exists z score_raw sub_scores,
    train_scores eigh eig method keys indicators x_train directions ahp_matrix thr
    = Ok (z, score_raw, sub_scores).
Proof.
  intros H. apply train_weight_model_inv in H.
  destruct H as (x & z & w_vec & std & pinfo & ainfo & score_raw & sub_scores
                 & lo & hi & sub_lo & sub_hi
                 & Hx & Hfit & Hw & Hcs & _).
  exists z, score_raw, sub_scores. unfold train_scores.
  rewrite Hx. simpl. rewrite Hfit. simpl. rewrite Hw. simpl. now rewrite Hcs.
Qed.

End Trainer.

(** ** Keyed parameters *)

Lemma keyed_pairs (v : vec) (keys : list string) :
  forall s pairs,
    mapM (fun ik : nat * string => a <- vec_index v (fst ik) ;; Ok (snd ik, a))
         (combine (seq s (length keys)) keys) = Ok pairs ->
    map fst pairs = keys
    /\ map snd pairs = firstn (length keys) (skipn s v)
    /\ (length keys = 0 \/ s + length keys <= length v)%nat.
Proof.
  induction keys as [|k keys IH]; intros s pairs H; simpl in H.
  - inversion H; subst. simpl. repeat split. now left.
  - inv_bind H. inv_bind Ha. inversion Ha; subst a; clear Ha.
    inv_bind H. inversion H; subst pairs; clear H.
    destruct (IH _ _ Ha) as (K1 & K2 & K3).
    unfold vec_index in Ha0. simpl in Ha0.
    destruct (nth_error v s) eqn:E; [|discriminate]. inversion Ha0; subst a0.
    simpl. repeat split.
    + now rewrite K1.
    + rewrite K2.
      assert (Hs : skipn s v = r :: skipn (S s) v).
      { clear - E. revert v E. induction s as [|s IHs]; intros [|b v] E;
          simpl in *; try discriminate.
        - now inversion E.
        - now apply IHs. }
      now rewrite Hs.
    + right. assert (s < length v)%nat by (apply nth_error_Some; congruence). lia.
Qed.

Lemma mapM_lookup_pairs (pairs : list (string * R)) :
  NoDup (map fst pairs) ->
  mapM (fun k => dict_lookup k pairs) (map fst pairs) = Ok (map snd pairs).
Proof.
  induction pairs as [|[k v] pairs IH]; intros H; [reflexivity|].
  inversion H as [|? ? Hnotin Hnd]; subst. simpl.
  unfold dict_lookup at 1. simpl. rewrite String.eqb_refl. simpl.
  assert (E : mapM (fun k0 => dict_lookup k0 ((k, v) :: pairs)) (map fst pairs)
              = mapM (fun k0 => dict_lookup k0 pairs) (map fst pairs)).
  { clear IH H Hnd. revert Hnotin. generalize (map fst pairs) as ks.
    induction ks as [|k0 ks IHk]; intros Hnotin; [reflexivity|]. simpl.
    assert (Hne : String.eqb k0 k = false).
    { apply String.eqb_neq. intros ->. apply Hnotin. now left. }
    unfold dict_lookup at 1 3. simpl. rewrite Hne.
    rewrite IHk; [reflexivity|]. intros Hin. apply Hnotin. now right. }
  rewrite E, IH by assumption. reflexivity.
Qed.

(** With pairwise distinct keys, what the trainer stores under the keys is
    read back in order by the applier. *)
Lemma keyed_read_back (keys : list string) (v : vec) (d : dict R) :
  NoDup keys -> keyed keys v = Ok d ->
  d = combine keys (firstn (length keys) v)
  /\ (length keys <= length v)%nat
  /\ mapM (fun k => dict_lookup k d) keys = Ok (firstn (length keys) v).
Proof.
  intros Hnd H. unfold keyed in H. inv_bind H. inversion H; subst d; clear H.
  destruct (keyed_pairs v keys 0%nat a Ha) as (K1 & K2 & K3). simpl in K2, K3.
  rewrite dict_of_pairs_nodup by (now rewrite K1).
  repeat split.
  - rewrite <- K2, <- K1. clear. induction a as [|[k x] a IH]; simpl; congruence.
  - lia.
  - rewrite <- K2, <- K1. apply mapM_lookup_pairs. now rewrite K1.
Qed.

(** ** Shapes along the pipeline *)

Lemma negate_column_ncols (j : nat) (x x' : ndarray) :
  negate_column j x = Ok x' -> ncols x' = ncols x.
Proof.
  unfold negate_column. destruct (Nat.ltb j (ncols x)); [|discriminate].
  intros H. now inversion H.
Qed.

Lemma apply_direction_ncols (directions : list Direction) :
  forall j x x', apply_direction_from j directions x = Ok x' -> ncols x' = ncols x.
Proof.
  induction directions as [|[|] ds IH]; intros j x x' H; simpl in H.
  - now inversion H.
  - eapply IH; eassumption.
  - inv_bind H. rewrite (IH _ _ _ H). eapply negate_column_ncols; eassumption.
Qed.

Lemma minmax_fit_lengths (x : ndarray) (min_v max_v : vec) :
  _minmax_fit x = Ok (min_v, max_v) ->
  length min_v = ncols x /\ length max_v = ncols x /\ rows x <> [].
Proof.
  unfold _minmax_fit. destruct (rows x) eqn:E; [discriminate|].
  intros H. inv_bind H. inv_bind H. inversion H; subst.
  apply mapM_length in Ha, Ha0. rewrite length_seq in Ha, Ha0.
  repeat split; congruence.
Qed.

Lemma zscore_fit_lengths (x : ndarray) (mean std : vec) :
  _zscore_fit x = Ok (mean, std) ->
  length mean = ncols x /\ length std = ncols x /\ (2 <= nrows x)%nat.
Proof.
  unfold _zscore_fit. destruct (Nat.ltb (nrows x) 2) eqn:E; [discriminate|].
  apply Nat.ltb_ge in E. intros H. inversion H; subst.
  now rewrite !length_map, !length_seq.
Qed.

Lemma mat_bcast_ncols (f : R -> R -> R) (x y : ndarray) (v : vec) :
  length v = ncols x -> mat_bcast f x v = Ok y ->
  ncols y = ncols x /\ rows y = map (fun r => row_bcast f r v) (rows x).
Proof.
  intros Hv. unfold mat_bcast. rewrite Hv, bcast_len_same. simpl.
  intros H. inversion H; subst. now simpl.
Qed.

Lemma minmax_transform_ncols (x z : ndarray) (min_v max_v : vec) :
  length min_v = ncols x -> length max_v = ncols x ->
  _minmax_transform x min_v max_v = Ok z -> ncols z = ncols x.
Proof.
  intros Hmin Hmax. unfold _minmax_transform.
  rewrite vec_bcast_same by congruence. simpl.
  destruct (existsb _ _); [discriminate|]. intros H. inv_bind H.
  destruct (mat_bcast_ncols _ _ _ _ Hmin Ha) as (C1 & _).
  apply mat_bcast_ncols in H; [|rewrite map2_length; congruence].
  destruct H as (C2 & _). congruence.
Qed.

Lemma zscore_transform_ncols (x z : ndarray) (mean std : vec) :
  length mean = ncols x -> length std = ncols x ->
  _zscore_transform x mean std = Ok z -> ncols z = ncols x.
Proof.
  intros Hmean Hstd. unfold _zscore_transform.
  destruct (existsb _ _); [discriminate|]. intros H. inv_bind H.
  destruct (mat_bcast_ncols _ _ _ _ Hmean Ha) as (C1 & _).
  apply mat_bcast_ncols in H; [|congruence].
  destruct H as (C2 & _). congruence.
Qed.

Lemma compute_scores_shape (z : ndarray) (keys : list string)
      (indicators : list IndicatorRecord) (ws : dict R)
      (score_raw : vec) (sub_scores : dict vec) :
  compute_scores z keys indicators ws = Ok (score_raw, sub_scores) ->
  length keys = ncols z.
Proof.
  unfold compute_scores. intros H. inv_bind H. inv_bind H.
  apply mapM_length in Ha. unfold matvec in Ha0.
  destruct (Nat.eqb (ncols z) (length a)) eqn:E; [|discriminate].
  apply Nat.eqb_eq in E. congruence.
Qed.

(** ** What a method fits *)

Section Fit.

Variable eigh : ndarray -> vec * ndarray.
Variable eig : ndarray -> list complex * list (list complex).

Lemma train_fit_inv (method : WeightMethod) (keys : list string) (x : ndarray)
      (ahp_matrix : option (list (list R))) (thr : R)
      (z : ndarray) (w_vec : vec) (std : StandardizationParams)
      (pinfo : option PcaInfo) (ainfo : option AhpInfo) :
  train_fit eigh eig method keys x ahp_matrix thr = Ok (z, w_vec, std, pinfo, ainfo) ->
  (exists min_v max_v smin smax,
      method = entropy
      /\ _minmax_fit x = Ok (min_v, max_v)
      /\ _minmax_transform x min_v max_v = Ok z
      /\ _entropy_weights z = Ok w_vec
      /\ keyed keys min_v = Ok smin /\ keyed keys max_v = Ok smax
      /\ std = minmax smin smax)
  \/ (exists mean sd smean sstd,
         _zscore_fit x = Ok (mean, sd)
         /\ _zscore_transform x mean sd = Ok z
         /\ keyed keys mean = Ok smean /\ keyed keys sd = Ok sstd
         /\ std = zscore smean sstd
         /\ ((method = pca
              /\ exists r, _pca_weights eigh z thr = Ok r /\ w_vec = pca_weights r)
             \/ (method = ahp
                 /\ exists am m lambda_max ci cr,
                     ahp_matrix = Some am /\ np_array2 am = Ok m
                     /\ _ahp_weights eig m = Ok (w_vec, lambda_max, ci, cr)))).
Proof.
  unfold train_fit. destruct method as [| | |tag]; intros H.
  - left. inv_bind H. destruct a as [min_v max_v].
    inv_bind H. inv_bind H. inv_bind H. inv_bind H. inversion H; subst.
    do 4 eexists. repeat split; eassumption.
  - right. inv_bind H. destruct a as [mean sd].
    inv_bind H. inv_bind H. inv_bind H. inv_bind H. inversion H; subst.
    do 4 eexists. repeat split; try eassumption.
    left. split; [reflexivity|]. eexists. split; [eassumption | reflexivity].
  - right. destruct ahp_matrix as [am|]; [|discriminate].
    inv_bind H. destruct a as [mean sd].
    inv_bind H. inv_bind H. inv_bind H.
    match goal with Hw : _ahp_weights _ _ = Ok ?t |- _ =>
      destruct t as [[[w l] ci] cr] end.
    inv_bind H. inv_bind H. inversion H; subst.
    do 4 eexists. repeat split; try eassumption.
    right. split; [reflexivity|]. do 5 eexists. repeat split; eassumption.
  - discriminate.
Qed.

End Fit.

Lemma sub_index_loop_total (smin smax : dict R) (ss : dict vec)
      (los his : list (string * R)) :
  mapM (fun gv : string * vec => b <- np_min (snd gv) ;; Ok (fst gv, b)) ss = Ok los ->
  mapM (fun gv : string * vec => b <- np_max (snd gv) ;; Ok (fst gv, b)) ss = Ok his ->
  forall acc, exists out, sub_index_loop smin smax ss acc = Ok out.
Proof.
  revert los his. induction ss as [|[g v] ss IH]; intros los his Hlo Hhi acc; simpl.
  - eauto.
  - simpl in Hlo, Hhi. inv_bind Hlo. inv_bind Ha. inv_bind Hlo.
    inv_bind Hhi. inv_bind Ha2. inv_bind Hhi.
    simpl in Ha0, Ha3. rewrite Ha0, Ha3. simpl. eapply IH; eassumption.
Qed.

(** With pairwise distinct keys, the applier standardizes the training
    matrix with the parameters the trainer fitted on it. *)
Lemma apply_standardize_roundtrip (model : WeightModelRecord) (keys : list string)
      (x_train x z : ndarray) (directions : list Direction)
      (a b : vec) (sa sb : dict R) :
  NoDup keys ->
  indicatorKeys model = keys ->
  _apply_direction x_train directions = Ok x ->
  length keys = ncols x -> length a = ncols x -> length b = ncols x ->
  keyed keys a = Ok sa -> keyed keys b = Ok sb ->
  (standardization model = minmax sa sb -> _minmax_transform x a b = Ok z ->
   apply_standardize model x_train directions = Ok z)
  /\ (standardization model = zscore sa sb -> _zscore_transform x a b = Ok z ->
      apply_standardize model x_train directions = Ok z).
Proof.
  intros Hnd Hkeys Hx Hlen Ha Hb Ka Kb.
  destruct (keyed_read_back keys a sa Hnd Ka) as (_ & _ & Ra).
  destruct (keyed_read_back keys b sb Hnd Kb) as (_ & _ & Rb).
  rewrite firstn_all2 in Ra by lia. rewrite firstn_all2 in Rb by lia.
  split; intros Hstd Hz; unfold apply_standardize;
    rewrite Hx, Hstd, Hkeys; simpl; rewrite Ra; simpl; rewrite Rb; simpl; exact Hz.
Qed.

(** ** Train/apply round trip *)

(** With pairwise distinct keys the applier reproduces what the trainer
    computed on the training matrix. *)
Lemma roundtrip_distinct_keys
        (eigh : ndarray -> vec * ndarray)
        (eig : ndarray -> list complex * list (list complex))
        (id created : string) (method : WeightMethod) (name : string)
        (keys : list string) (indicators : list IndicatorRecord)
        (x_train : ndarray) (directions : list Direction) (ds : list string)
        (ahp_matrix : option (list (list R))) (thr : R) (model : WeightModelRecord) :
  NoDup keys ->
  train_weight_model eigh eig id created method name keys indicators x_train
                     directions ds ahp_matrix thr = Ok model ->
  exists z score_raw sub_scores sub_index,
    train_scores eigh eig method keys indicators x_train directions ahp_matrix thr
    = Ok (z, score_raw, sub_scores)
    /\ apply_weight_model model indicators x_train directions
       = Ok (z, score_raw, sub_scores, sub_index).
Proof.
  intros Hnd Htrain.
  destruct (train_scores_of_model _ _ _ _ _ _ _ _ _ _ _ _ _ _ Htrain)
    as (z0 & sr0 & ss0 & Hts).
  destruct (train_weight_model_inv _ _ _ _ _ _ _ _ _ _ _ _ _ _ Htrain)
    as (x & z & w_vec & std & pinfo & ainfo & score_raw & sub_scores
        & lo & hi & sub_lo & sub_hi
        & Hx & Hfit & Hw & Hcs & Hlo & Hhi & Hslo & Hshi & Hkeys & _ & Hstd & _).
  assert (Hts' : train_scores eigh eig method keys indicators x_train directions
                              ahp_matrix thr = Ok (z, score_raw, sub_scores)).
  { unfold train_scores. rewrite Hx. simpl. rewrite Hfit. simpl.
    rewrite Hw. simpl. now rewrite Hcs. }
  pose proof (compute_scores_shape _ _ _ _ _ _ Hcs) as Hshape.
  assert (Hz : apply_standardize model x_train directions = Ok z).
  { destruct (train_fit_inv _ _ _ _ _ _ _ _ _ _ _ _ Hfit)
      as [(min_v & max_v & smin & smax & _ & Hf & Ht & _ & Kmin & Kmax & ->)
         |(mean & sd & smean & sstd & Hf & Ht & Kmean & Ksd & -> & _)].
    - destruct (minmax_fit_lengths _ _ _ Hf) as (L1 & L2 & _).
      pose proof (minmax_transform_ncols _ _ _ _ L1 L2 Ht) as Hc.
      refine (proj1 (apply_standardize_roundtrip model keys x_train x z directions
                       min_v max_v smin smax Hnd Hkeys Hx _ L1 L2 Kmin Kmax) Hstd Ht).
      congruence.
    - destruct (zscore_fit_lengths _ _ _ Hf) as (L1 & L2 & _).
      pose proof (zscore_transform_ncols _ _ _ _ L1 L2 Ht) as Hc.
      refine (proj2 (apply_standardize_roundtrip model keys x_train x z directions
                       mean sd smean sstd Hnd Hkeys Hx _ L1 L2 Kmean Ksd) Hstd Ht).
      congruence. }
  unfold dict_mapM in Hslo, Hshi. inv_bind Hslo. inv_bind Hshi.
  destruct (sub_index_loop_total
              (dict_or_empty (subScoreMin (scaling_or_empty model)))
              (dict_or_empty (subScoreMax (scaling_or_empty model)))
              sub_scores _ _ Ha Ha0 []) as (sub_index & Hsi).
  exists z, score_raw, sub_scores, sub_index. split; [exact Hts'|].
  unfold apply_weight_model, apply_weight_model_locals.
  rewrite Hz. simpl. rewrite Hkeys, Hcs. simpl. rewrite Hlo. simpl.
  rewrite Hhi. simpl. rewrite Hsi. reflexivity.
Qed.

(** C1 (as the code has it).  When the indicator keys are pairwise
    distinct and [train_weight_model] succeeds, applying the resulting
    record to the same matrix and directions succeeds and returns exactly
    the standardized matrix, the raw scores and the per-group sub-scores
    that training computed. *)
Theorem train_apply_roundtrip
        (eigh : ndarray -> vec * ndarray)
        (eig : ndarray -> list complex * list (list complex))
        (id created : string) (method : WeightMethod) (name : string)
        (keys : list string) (indicators : list IndicatorRecord)
        (x_train : ndarray) (directions : list Direction) (ds : list string)
        (ahp_matrix : option (list (list R))) (thr : R) (model : WeightModelRecord) :
  NoDup keys ->
  train_weight_model eigh eig id created method name keys indicators x_train
                     directions ds ahp_matrix thr = Ok model ->
  exists z score_raw sub_scores sub_index,
    train_scores eigh eig method keys indicators x_train directions ahp_matrix thr
    = Ok (z, score_raw, sub_scores)
    /\ apply_weight_model model indicators x_train directions
       = Ok (z, score_raw, sub_scores, sub_index).
Proof. apply roundtrip_distinct_keys. Qed.

(** ** A request with a repeated key *)

Ltac eval_engine :=
  cbn -[Rltb Rleb Reqb Rdiv Rplus Rmult Rinv Rminus Ropp Rmin Rmax ln INR sqrt
        Rsqr Nat.div].

(** Equality of structured values, down to equations between reals. *)
Ltac struct_eq :=
  repeat match goal with
    | |- @eq ?T _ _ =>
        lazymatch T with
        | R => fail
        | _ => progress f_equal
        end
    end;
  try lra; try (repeat f_equal; lra).

Lemma dup_fit : _minmax_fit dup_x = Ok ([0; 0], [1; 2]).
Proof.
  unfold _minmax_fit. eval_engine.
  rewrite !Rmin_left by lra. rewrite !Rmax_right by lra. reflexivity.
Qed.

Lemma dup_transform : _minmax_transform dup_x [0; 0] [1; 2] = Ok dup_z.
Proof.
  unfold _minmax_transform. eval_engine. decide_reals. eval_engine.
  unfold dup_z. struct_eq.
Qed.

Lemma dup_entropy : _entropy_weights dup_z = Ok [1 / 2; 1 / 2].
Proof.
  unfold _entropy_weights. eval_engine. decide_reals. eval_engine. decide_reals.
  replace (1 / (0 + (1 + 0))) with 1 by lra. rewrite ln_1.
  decide_reals. struct_eq.
Qed.

Lemma dup_scores :
  compute_scores dup_z ["a"; "a"]%string [ind_a; ind_a] [("a"%string, 1 / 2)]
  = Ok ([0; 1], [("default"%string, [0; 1])]).
Proof.
  unfold compute_scores. eval_engine. decide_reals. eval_engine.
  struct_eq.
Qed.

Lemma dup_train (eigh : ndarray -> vec * ndarray)
      (eig : ndarray -> list complex * list (list complex)) :
  train_weight_model eigh eig "id" "now" entropy "dup" ["a"; "a"]%string
                     [ind_a; ind_a] dup_x [positive; positive] [] None 0.85
  = Ok dup_model.
Proof.
  unfold train_weight_model, train_fit.
  change (_apply_direction dup_x [positive; positive]) with (Ok dup_x).
  cbn [bind]. rewrite dup_fit. cbn [bind]. rewrite dup_transform. cbn [bind].
  rewrite dup_entropy. cbn [bind].
  change (keyed ["a"; "a"]%string [0; 0]) with (Ok [("a"%string, 0)]).
  change (keyed ["a"; "a"]%string [1; 2]) with (Ok [("a"%string, 2)]).
  cbn [bind].
  change (keyed ["a"; "a"]%string [1 / 2; 1 / 2]) with (Ok [("a"%string, 1 / 2)]).
  cbn [bind]. rewrite dup_scores. cbn [bind].
  unfold dict_mapM. eval_engine.
  rewrite !Rmin_left by lra. rewrite !Rmax_right by lra.
  unfold dup_model. struct_eq.
Qed.

Lemma dup_train_scores (eigh : ndarray -> vec * ndarray)
      (eig : ndarray -> list complex * list (list complex)) :
  train_scores eigh eig entropy ["a"; "a"]%string [ind_a; ind_a] dup_x
               [positive; positive] None 0.85
  = Ok (dup_z, [0; 1], [("default"%string, [0; 1])]).
Proof.
  unfold train_scores, train_fit.
  change (_apply_direction dup_x [positive; positive]) with (Ok dup_x).
  cbn [bind]. rewrite dup_fit. cbn [bind]. rewrite dup_transform. cbn [bind].
  rewrite dup_entropy. cbn [bind].
  change (keyed ["a"; "a"]%string [0; 0]) with (Ok [("a"%string, 0)]).
  change (keyed ["a"; "a"]%string [1; 2]) with (Ok [("a"%string, 2)]).
  cbn [bind].
  change (keyed ["a"; "a"]%string [1 / 2; 1 / 2]) with (Ok [("a"%string, 1 / 2)]).
  cbn [bind]. rewrite dup_scores. reflexivity.
Qed.

Lemma dup_apply_standardize :
  apply_standardize dup_model dup_x [positive; positive] = Ok dup_z_applied.
Proof.
  unfold apply_standardize, _minmax_transform. eval_engine. decide_reals.
  eval_engine. unfold dup_z_applied. struct_eq.
Qed.

Lemma dup_apply :
  apply_weight_model dup_model [ind_a; ind_a] dup_x [positive; positive]
  = Ok (dup_z_applied, [0; 3 / 4], [("default"%string, [0; 3 / 4])],
        [("default"%string, [0; 75])]).
Proof.
  unfold apply_weight_model, apply_weight_model_locals.
  rewrite dup_apply_standardize. cbn [bind].
  assert (E : compute_scores dup_z_applied (indicatorKeys dup_model) [ind_a; ind_a]
                             (weights dup_model)
              = Ok ([0; 3 / 4], [("default"%string, [0; 3 / 4])])).
  { unfold compute_scores. eval_engine. decide_reals. eval_engine.
    struct_eq. }
  rewrite E. eval_engine. unfold scale_0_100. decide_reals. eval_engine.
  struct_eq.
Qed.

(** C1 fails as stated when a key is repeated: training on [dup_x] with
    the keys ["a"; "a"] succeeds and standardizes the matrix to [dup_z],
    with raw scores [0; 1]; the record keeps one minimum and one maximum
    for the key, and applying it to the same matrix returns another
    standardized matrix and other raw scores. *)
Lemma duplicate_keys_break_roundtrip :
  train_weight_model correlated_eigh consistent_eig "id" "now" entropy "dup"
                     ["a"; "a"]%string [ind_a; ind_a] dup_x [positive; positive]
                     [] None 0.85
  = Ok dup_model
  /\ train_scores correlated_eigh consistent_eig entropy ["a"; "a"]%string
                  [ind_a; ind_a] dup_x [positive; positive] None 0.85
     = Ok (dup_z, [0; 1], [("default"%string, [0; 1])])
  /\ apply_weight_model dup_model [ind_a; ind_a] dup_x [positive; positive]
     = Ok (dup_z_applied, [0; 3 / 4], [("default"%string, [0; 3 / 4])],
           [("default"%string, [0; 75])])
  /\ dup_z_applied <> dup_z
  /\ [0; 3 / 4] <> [0; 1].
Proof.
  split; [apply dup_train|]. split; [apply dup_train_scores|].
  split; [apply dup_apply|]. split.
  - unfold dup_z_applied, dup_z. intros H. inversion H. lra.
  - intros H. inversion H. lra.
Qed.

(** C2 fails as stated when a key is repeated: the same training
    succeeds and its weights map holds the single entry 1/2. *)
Lemma duplicate_keys_weights_sum :
  train_weight_model correlated_eigh consistent_eig "id" "now" entropy "dup"
                     ["a"; "a"]%string [ind_a; ind_a] dup_x [positive; positive]
                     [] None 0.85
  = Ok dup_model
  /\ vsum (dict_values (weights dup_model)) = 1 / 2
  /\ ~ Rabs (vsum (dict_values (weights dup_model)) - 1) <= tolerance.
Proof.
  split; [apply dup_train|].
  assert (E : vsum (dict_values (weights dup_model)) = 1 / 2) by (simpl; lra).
  split; [exact E|]. rewrite E. unfold tolerance.
  rewrite Rabs_left by lra. lra.
Qed.

(** ** The weights sum to 1 *)

Lemma col_sums_length (x : ndarray) : length (col_sums x) = ncols x.
Proof. unfold col_sums. now rewrite length_map, length_seq. Qed.

Lemma entropy_weights_sum (z : ndarray) (w : vec) :
  _entropy_weights z = Ok w -> vsum w = 1 /\ length w = ncols z.
Proof.
  unfold _entropy_weights. intros H. inv_bind H.
  destruct (Rleb _ 0) eqn:E in H; [discriminate|]. apply Rleb_false in E.
  inversion H; subst w; clear H.
  apply mat_bcast_ncols in Ha; [|now rewrite length_map, col_sums_length].
  destruct Ha as (Hc & _). split.
  - apply vsum_normalized. lra.
  - rewrite !length_map, col_sums_length. simpl. exact Hc.
Qed.

Lemma vec_iadd_length (w t w' : vec) : vec_iadd w t = Ok w' -> length w' = length w.
Proof.
  unfold vec_iadd. destruct (Nat.eqb (length t) (length w)) eqn:E.
  - apply Nat.eqb_eq in E. intros H. inversion H. apply map2_length. congruence.
  - destruct t as [|y [|]]; try discriminate. intros H. inversion H.
    apply length_map.
Qed.

Lemma pca_accumulate_length (eigvals : vec) (eigvecs : ndarray) (todo : nat) :
  forall w l w', pca_accumulate eigvals eigvecs w l todo = Ok w' ->
                 length w' = length w.
Proof.
  induction todo as [|todo IH]; intros w l w' H; simpl in H.
  - now inversion H.
  - inv_bind H. inv_bind H. inv_bind H.
    rewrite (IH _ _ _ H). eapply vec_iadd_length; eassumption.
Qed.

Lemma pca_weights_sum (eigh : ndarray -> vec * ndarray) (z : ndarray) (thr : R)
      (r : PcaResult) :
  _pca_weights eigh z thr = Ok r ->
  vsum (pca_weights r) = 1 /\ length (pca_weights r) = ncols z.
Proof.
  unfold _pca_weights. intros H.
  destruct (Nat.ltb (nrows z) 2); [discriminate|].
  destruct (Nat.eqb (ncols z) 1); [discriminate|].
  destruct (Rleb (vsum (pca_eigvals eigh z)) 0); [discriminate|].
  inv_bind H. inv_bind H.
  destruct (Rleb (vsum a0) 0) eqn:E; [discriminate|]. apply Rleb_false in E.
  inversion H; subst r; clear H. cbn [pca_weights]. split.
  - apply vsum_normalized. lra.
  - rewrite length_map. rewrite (pca_accumulate_length _ _ _ _ _ _ Ha0).
    apply repeat_length.
Qed.

Lemma ahp_weights_sum (eig : ndarray -> list complex * list (list complex))
      (m : ndarray) (w : vec) (lambda_max ci cr : R) :
  _ahp_weights eig m = Ok (w, lambda_max, ci, cr) ->
  vsum w = 1 /\ length w = length (snd (eig m)) /\ Forall (fun t => 0 <= t) w.
Proof.
  unfold _ahp_weights. intros H.
  destruct (negb _); [discriminate|].
  destruct (Nat.ltb (nrows m) 1); [discriminate|].
  destruct (eig m) as [eigvals eigvecs]. inv_bind H. inv_bind H. inv_bind H.
  rewrite flip_negative_abs in H.
  destruct (Reqb _ 0) eqn:E in H; [discriminate|]. apply Reqb_false in E.
  inversion H; subst; clear H. simpl. repeat split.
  - now apply vsum_normalized.
  - now rewrite !length_map.
  - apply normalized_nonneg; [|apply map_Rabs_nonneg].
    pose proof (vsum_nonneg _ (map_Rabs_nonneg
                 (map (fun r => re (nth a r (0, 0))) eigvecs))). lra.
Qed.

Lemma combine_values (keys : list string) (v : vec) :
  length keys = length v -> dict_values (combine keys v) = v.
Proof.
  revert v. induction keys as [|k keys IH]; intros [|a v] H; simpl in *;
    try congruence.
  f_equal. apply IH. congruence.
Qed.

Lemma combine_keys (keys : list string) (v : vec) :
  length keys = length v -> dict_keys (combine keys v) = keys.
Proof.
  revert v. induction keys as [|k keys IH]; intros [|a v] H; simpl in *;
    try congruence.
  f_equal. apply IH. congruence.
Qed.

(** With pairwise distinct keys and as many values, the keyed map holds
    the values in order. *)
Lemma keyed_distinct (keys : list string) (v : vec) (d : dict R) :
  NoDup keys -> length keys = length v -> keyed keys v = Ok d ->
  d = combine keys v.
Proof.
  intros Hnd Hlen H. destruct (keyed_read_back keys v d Hnd H) as (-> & _).
  now rewrite firstn_all2 by lia.
Qed.

(** ** Group weights *)

Lemma vsum_values_set (g : string) (a : R) (dim : dict R) :
  vsum (dict_values (dict_set g (dict_get_default g 0 dim + a) dim))
  = vsum (dict_values dim) + a.
Proof.
  unfold dict_get_default.
  induction dim as [|[g' v'] dim IH]; simpl.
  - lra.
  - destruct (String.eqb g g') eqn:E; simpl.
    + lra.
    + rewrite IH. lra.
Qed.

Lemma build_dimension2_weights_sum (indicators : list IndicatorRecord) (ws : dict R) :
  vsum (dict_values (build_dimension2_weights indicators ws))
  = vsum (map (fun k => dict_get_default k 0 ws) (map ind_key indicators)).
Proof.
  unfold build_dimension2_weights.
  assert (G : forall dim,
             vsum (dict_values
                     (fold_left
                        (fun dim ind =>
                           dict_set (dimension2_of ind)
                             (dict_get_default (dimension2_of ind) 0 dim
                              + dict_get_default (ind_key ind) 0 ws) dim)
                        indicators dim))
             = vsum (dict_values dim)
               + vsum (map (fun k => dict_get_default k 0 ws) (map ind_key indicators))).
  { induction indicators as [|ind inds IH]; intros dim; simpl; [lra|].
    rewrite IH, vsum_values_set. lra. }
  rewrite G. simpl. lra.
Qed.

Lemma sum_with_one_key (f : string -> R) (k0 : string) (v0 : R) (L : list string) :
  NoDup L -> In k0 L -> f k0 = 0 ->
  vsum (map (fun k => if String.eqb k k0 then v0 else f k) L) = v0 + vsum (map f L).
Proof.
  intros Hnd Hin Hf. induction Hnd as [|a L Hnotin Hnd IH]; simpl in *; [tauto|].
  destruct (String.eqb a k0) eqn:E.
  - apply String.eqb_eq in E. subst a.
    assert (G : map (fun k => if String.eqb k k0 then v0 else f k) L = map f L).
    { apply map_ext_in. intros k Hk. destruct (String.eqb k k0) eqn:E; [|reflexivity].
      apply String.eqb_eq in E. subst k. contradiction. }
    rewrite G, Hf. lra.
  - apply String.eqb_neq in E. destruct Hin as [->|Hin]; [congruence|].
    rewrite (IH Hin). lra.
Qed.

(** Reading a map at every key of a duplicate-free list that covers its
    keys, and adding up: the sum of its values. *)
Lemma sum_over_covering_keys (ws : dict R) (L : list string) :
  NoDup (dict_keys ws) -> NoDup L ->
  (forall k, In k (dict_keys ws) -> In k L) ->
  vsum (map (fun k => dict_get_default k 0 ws) L) = vsum (dict_values ws).
Proof.
  intros Hws HL. induction ws as [|[k0 v0] ws IH]; intros Hcov.
  - simpl. clear. induction L as [|a L IHL]; simpl; [reflexivity|].
    rewrite IHL. unfold dict_get_default. simpl. lra.
  - simpl in *. inversion Hws as [|? ? Hnotin Hnd]; subst.
    rewrite <- IH; [|assumption | intros k Hk; apply Hcov; now right].
    rewrite <- (sum_with_one_key (fun k => dict_get_default k 0 ws) k0 v0 L).
    + f_equal. apply map_ext. intros k. unfold dict_get_default. simpl.
      now destruct (String.eqb k k0).
    + assumption.
    + apply Hcov. now left.
    + unfold dict_get_default. now rewrite dict_get_not_in_keys.
Qed.

(** C2 (as the code has it).  When the indicator keys are pairwise
    distinct and, for AHP, the comparison matrix has one row per key (numpy
    returning one eigenvector entry per row), then for each of the three
    methods the weights map of a successfully trained record sums to 1,
    hence to 1 within 1e-9; and when moreover the indicators list has
    pairwise distinct keys and holds every key of [indicatorKeys], the
    [dimension2Weights] map sums to 1 as well. *)
Theorem weights_sum_to_one
        (eigh : ndarray -> vec * ndarray)
        (eig : ndarray -> list complex * list (list complex))
        (id created : string) (method : WeightMethod) (name : string)
        (keys : list string) (indicators : list IndicatorRecord)
        (x_train : ndarray) (directions : list Direction) (ds : list string)
        (ahp_matrix : option (list (list R))) (thr : R) (model : WeightModelRecord) :
  NoDup keys ->
  (method = ahp ->
   forall am m, ahp_matrix = Some am -> np_array2 am = Ok m ->
                nrows m = length keys /\ length (snd (eig m)) = nrows m) ->
  train_weight_model eigh eig id created method name keys indicators x_train
                     directions ds ahp_matrix thr = Ok model ->
  vsum (dict_values (weights model)) = 1
  /\ Rabs (vsum (dict_values (weights model)) - 1) <= tolerance
  /\ (NoDup (map ind_key indicators) ->
      (forall k, In k keys -> In k (map ind_key indicators)) ->
      vsum (dict_values (dimension2Weights model)) = 1).
Proof.
  intros Hnd Hahp Htrain.
  destruct (train_weight_model_inv _ _ _ _ _ _ _ _ _ _ _ _ _ _ Htrain)
    as (x & z & w_vec & std & pinfo & ainfo & score_raw & sub_scores
        & lo & hi & sub_lo & sub_hi
        & Hx & Hfit & Hw & Hcs & _ & _ & _ & _ & Hkeys & Hdim & _).
  pose proof (compute_scores_shape _ _ _ _ _ _ Hcs) as Hshape.
  assert (Hsum : vsum w_vec = 1 /\ length w_vec = length keys).
  { destruct (train_fit_inv _ _ _ _ _ _ _ _ _ _ _ _ Hfit)
      as [(min_v & max_v & smin & smax & _ & _ & _ & He & _)
         |(mean & sd & smean & sstd & _ & _ & _ & _ & _
           & [(_ & r & Hr & ->)|(Hm & am & m & l & ci & cr & Ham & Hm2 & Ha)])].
    - destruct (entropy_weights_sum _ _ He). split; congruence.
    - destruct (pca_weights_sum _ _ _ _ Hr). split; congruence.
    - destruct (ahp_weights_sum _ _ _ _ _ _ Ha) as (S1 & S2 & _).
      destruct (Hahp Hm am m Ham Hm2). split; congruence. }
  destruct Hsum as (Hsum & Hlen).
  assert (Hws : weights model = combine keys w_vec).
  { apply keyed_distinct; [assumption | congruence | assumption]. }
  assert (H1 : vsum (dict_values (weights model)) = 1).
  { rewrite Hws, combine_values by congruence. exact Hsum. }
  split; [exact H1|]. split.
  - rewrite H1. unfold tolerance.
    replace (1 - 1) with 0 by ring. rewrite Rabs_R0. lra.
  - intros Hind Hcover. rewrite Hdim, build_dimension2_weights_sum.
    rewrite sum_over_covering_keys; try assumption.
    + rewrite Hws, combine_keys by congruence. assumption.
    + intros k Hk. apply Hcover.
      rewrite Hws, combine_keys in Hk by congruence. assumption.
Qed.

(** ** Scoring always goes through on matching shapes *)

Lemma dict_set_values_forall {V : Type} (P : V -> Prop) (k : string) (v : V)
      (d : dict V) :
  P v -> Forall P (dict_values d) -> Forall P (dict_values (dict_set k v d)).
Proof.
  intros Hv. induction d as [|[k' v'] d IH]; simpl; intros H.
  - repeat constructor. assumption.
  - inversion H; subst. destruct (String.eqb k k'); simpl; constructor; auto.
Qed.

Lemma dict_of_pairs_values_forall {V : Type} (P : V -> Prop)
      (pairs : list (string * V)) :
  Forall P (map snd pairs) -> Forall P (dict_values (dict_of_pairs pairs)).
Proof.
  induction pairs as [|[k v] pairs IH] using rev_ind; intros H; [constructor|].
  rewrite dict_of_pairs_snoc. rewrite map_app in H. apply Forall_app in H.
  destruct H as (H1 & H2). inversion H2; subst.
  apply dict_set_values_forall; auto.
Qed.

Lemma sub_scores_loop_total (z : ndarray) (w : vec) (dims : dict (list nat)) :
  forall acc,
    Forall (fun v => length v = nrows z) (dict_values acc) ->
    exists out, sub_scores_loop z w dims acc = Ok out
                /\ Forall (fun v => length v = nrows z) (dict_values out).
Proof.
  induction dims as [|[g idxs] dims IH]; intros acc Hacc; simpl.
  - eauto.
  - destruct (Rleb _ 0); [now apply IH|].
    unfold matvec. cbn [ncols take_columns].
    assert (E : length (map (fun a => a / vsum (take_indices w idxs))
                            (take_indices w idxs)) = length idxs)
      by (unfold take_indices; now rewrite !length_map).
    rewrite E, Nat.eqb_refl. cbn [bind].
    apply IH. apply dict_set_values_forall; [|assumption].
    cbn [rows take_columns]. now rewrite !length_map.
Qed.

Lemma dict_mapM_nonempty (f : vec -> res R) (d : dict vec) :
  (forall v, v <> [] -> exists a, f v = Ok a) ->
  Forall (fun v => v <> []) (dict_values d) ->
  exists r, dict_mapM f d = Ok r.
Proof.
  intros Hf H. unfold dict_mapM.
  assert (G : exists pairs,
             mapM (fun gv : string * vec => b <- f (snd gv) ;; Ok (fst gv, b)) d
             = Ok pairs).
  { induction d as [|[g v] d IH]; simpl in *; [eauto|].
    inversion H; subst. destruct (Hf v) as (a & Ea); [assumption|].
    destruct IH as (pairs & Ep); [assumption|].
    rewrite Ea. simpl. rewrite Ep. simpl. eauto. }
  destruct G as (pairs & Ep). rewrite Ep. simpl. eauto.
Qed.

Lemma np_min_nonempty (v : vec) : v <> [] -> exists a, np_min v = Ok a.
Proof. destruct v; [congruence | simpl; eauto]. Qed.

Lemma np_max_nonempty (v : vec) : v <> [] -> exists a, np_max v = Ok a.
Proof. destruct v; [congruence | simpl; eauto]. Qed.

(** ** The end-to-end example *)

Lemma sample_fit : _minmax_fit sample_x = Ok ([10; 1], [30; 3]).
Proof.
  unfold _minmax_fit. eval_engine.
  rewrite !Rmin_left by (rewrite ?Rmin_left by lra; lra).
  rewrite !Rmax_right by (rewrite ?Rmax_right by lra; lra). reflexivity.
Qed.

Lemma sample_transform : _minmax_transform sample_x [10; 1] [30; 3] = Ok sample_z.
Proof.
  unfold _minmax_transform. eval_engine. decide_reals. eval_engine.
  unfold sample_z. struct_eq.
Qed.

Lemma ln_2_pos : 0 < ln 2.
Proof. rewrite <- ln_1. apply ln_increasing; lra. Qed.

Lemma ln_3_pos : 0 < ln 3.
Proof. rewrite <- ln_1. apply ln_increasing; lra. Qed.

(** Two identical columns of positive diversity get the weights 1/2. *)
Lemma sample_entropy : _entropy_weights sample_z = Ok [1 / 2; 1 / 2].
Proof.
  unfold _entropy_weights. eval_engine. decide_reals. eval_engine. decide_reals.
  replace (0 / (0 + (1 / 2 + (1 + 0)))) with 0 by lra.
  replace (1 / 2 / (0 + (1 / 2 + (1 + 0)))) with (/ 3) by lra.
  replace (1 / (0 + (1 / 2 + (1 + 0)))) with (2 * / 3) by lra.
  replace (INR 3) with 3 by (simpl; lra).
  rewrite ln_mult by lra. rewrite ln_Rinv by lra.
  pose proof ln_2_pos as H2. pose proof ln_3_pos as H3.
  set (L2 := ln 2) in *. set (L3 := ln 3) in *.
  set (d := 1 - - (1 / L3) * (0 * 0 + (/ 3 * - L3 + (2 * / 3 * (L2 + - L3) + 0)))).
  assert (Hd : 0 < d).
  { assert (E : d = 2 / 3 * (L2 * / L3)) by (unfold d; field; lra).
    rewrite E. assert (0 < L2 * / L3);
      [apply Rmult_lt_0_compat; [assumption | now apply Rinv_0_lt_compat] | lra]. }
  replace (Rleb (d + (d + 0)) 0) with false by (symmetry; apply Rleb_false; lra).
  do 2 f_equal; [|f_equal]; field; lra.
Qed.

Lemma keyed_two (k1 k2 : string) (a b : R) :
  k1 <> k2 -> keyed [k1; k2] [a; b] = Ok [(k1, a); (k2, b)].
Proof.
  intros H. unfold keyed. simpl. unfold dict_of_pairs. simpl.
  apply String.eqb_neq in H. rewrite String.eqb_sym in H. now rewrite H.
Qed.

Lemma lookup_two (k1 k2 : string) (a b : R) :
  k1 <> k2 ->
  mapM (fun k => dict_lookup k [(k1, a); (k2, b)]) [k1; k2] = Ok [a; b].
Proof.
  intros H. simpl. unfold dict_lookup. simpl. rewrite !String.eqb_refl.
  apply String.eqb_neq in H. rewrite String.eqb_sym in H. rewrite H. reflexivity.
Qed.

Lemma sample_matvec : matvec sample_z [1 / 2; 1 / 2] = Ok [0; 1 / 2; 1].
Proof. unfold matvec, dot. eval_engine. struct_eq. Qed.

Section SampleTraining.

Variable eigh : ndarray -> vec * ndarray.
Variable eig : ndarray -> list complex * list (list complex).
Variables (id created name : string) (k1 k2 : string).
Variable indicators : list IndicatorRecord.
Variable ds : list string.
Variable ahp_matrix : option (list (list R)).
Variable thr : R.
Hypothesis distinct : k1 <> k2.

Lemma sample_compute_scores :
  exists sub_scores,
    compute_scores sample_z [k1; k2] indicators [(k1, 1 / 2); (k2, 1 / 2)]
    = Ok ([0; 1 / 2; 1], sub_scores)
    /\ Forall (fun v => length v = 3%nat) (dict_values sub_scores).
Proof.
  unfold compute_scores. rewrite (lookup_two k1 k2 _ _ distinct). cbn [bind].
  rewrite sample_matvec. cbn [bind].
  destruct (sub_scores_loop_total sample_z [1 / 2; 1 / 2]
              (group_indices [k1; k2] indicators) (@nil (string * vec)))
    as (ss & Hss & Hlen);
    [constructor|].
  exists ss. rewrite Hss. cbn [bind]. split; [reflexivity | exact Hlen].
Qed.

Lemma sample_train :
  exists model sub_scores sub_lo sub_hi,
    train_weight_model eigh eig id created entropy name [k1; k2] indicators
                       sample_x [positive; positive] ds ahp_matrix thr = Ok model
    /\ train_scores eigh eig entropy [k1; k2] indicators sample_x
                    [positive; positive] ahp_matrix thr
       = Ok (sample_z, [0; 1 / 2; 1], sub_scores)
    /\ weights model = [(k1, 1 / 2); (k2, 1 / 2)]
    /\ scaling model = Some {| scoreMin := Some 0; scoreMax := Some 1;
                               subScoreMin := Some sub_lo;
                               subScoreMax := Some sub_hi |}.
Proof.
  destruct sample_compute_scores as (ss & Hcs & Hlen).
  assert (Hne : Forall (fun v : vec => v <> []) (dict_values ss)).
  { eapply Forall_impl; [|exact Hlen]. intros v Hv ->. discriminate. }
  destruct (dict_mapM_nonempty np_min ss np_min_nonempty Hne) as (sub_lo & Hlo).
  destruct (dict_mapM_nonempty np_max ss np_max_nonempty Hne) as (sub_hi & Hhi).
  assert (Hfit : train_fit eigh eig entropy [k1; k2] sample_x ahp_matrix thr
                 = Ok (sample_z, [1 / 2; 1 / 2],
                       minmax [(k1, 10); (k2, 1)] [(k1, 30); (k2, 3)], None, None)).
  { unfold train_fit. rewrite sample_fit. cbn [bind].
    rewrite sample_transform. cbn [bind]. rewrite sample_entropy. cbn [bind].
    rewrite !(keyed_two k1 k2 _ _ distinct). reflexivity. }
  eexists. exists ss, sub_lo, sub_hi. split; [|split; [|split]].
  - unfold train_weight_model.
    change (_apply_direction sample_x [positive; positive]) with (Ok sample_x).
    cbn [bind]. rewrite Hfit. cbn [bind].
    rewrite (keyed_two k1 k2 _ _ distinct). cbn [bind].
    rewrite Hcs. cbn [bind].
    replace (np_min [0; 1 / 2; 1]) with (Ok 0)
      by (simpl; rewrite !Rmin_left by (rewrite ?Rmin_left by lra; lra); reflexivity).
    replace (np_max [0; 1 / 2; 1]) with (Ok 1)
      by (simpl; rewrite !Rmax_right by (rewrite ?Rmax_right by lra; lra); reflexivity).
    cbn [bind]. rewrite Hlo. cbn [bind]. rewrite Hhi. cbn [bind]. reflexivity.
  - unfold train_scores.
    change (_apply_direction sample_x [positive; positive]) with (Ok sample_x).
    cbn [bind]. rewrite Hfit. cbn [bind].
    rewrite (keyed_two k1 k2 _ _ distinct). cbn [bind].
    rewrite Hcs. reflexivity.
  - reflexivity.
  - reflexivity.
Qed.

End SampleTraining.

(** C8.  Training an entropy model on [[10,1],[20,2],[30,3]] with two
    distinct keys and both directions positive succeeds with the weights
    1/2 and 1/2; applying the record to the same matrix gives the raw
    scores 0, 1/2, 1, strictly increasing with the row index; and scaling
    them with the record's [scoreMin] and [scoreMax] gives 0, 50, 100. *)
Theorem entropy_end_to_end
        (eigh : ndarray -> vec * ndarray)
        (eig : ndarray -> list complex * list (list complex))
        (id created name k1 k2 : string) (indicators : list IndicatorRecord)
        (ds : list string) (ahp_matrix : option (list (list R))) (thr : R) :
  k1 <> k2 ->
  exists model z score_raw sub_scores sub_index lo hi sub_lo sub_hi,
    train_weight_model eigh eig id created entropy name [k1; k2] indicators
                       sample_x [positive; positive] ds ahp_matrix thr = Ok model
    /\ weights model = [(k1, 1 / 2); (k2, 1 / 2)]
    /\ apply_weight_model model indicators sample_x [positive; positive]
       = Ok (z, score_raw, sub_scores, sub_index)
    /\ score_raw = [0; 1 / 2; 1]
    /\ (forall i j a b, (i < j)%nat ->
          nth_error score_raw i = Some a -> nth_error score_raw j = Some b -> a < b)
    /\ scaling model = Some {| scoreMin := Some lo; scoreMax := Some hi;
                               subScoreMin := Some sub_lo;
                               subScoreMax := Some sub_hi |}
    /\ scale_0_100 score_raw lo hi = [0; 50; 100].
Proof.
  intros Hk.
  destruct (sample_train eigh eig id created name k1 k2 indicators ds ahp_matrix thr Hk)
    as (model & ss & sub_lo & sub_hi & Htrain & Hscores & Hw & Hsc).
  assert (Hnd : NoDup [k1; k2]).
  { constructor; [intros [H|[]]; congruence|]. constructor; [intros []|constructor]. }
  destruct (roundtrip_distinct_keys _ _ _ _ _ _ _ _ _ _ _ _ _ _ Hnd Htrain)
    as (z & sr & ss' & si & Hts & Happ).
  rewrite Hscores in Hts. inversion Hts; subst z sr ss'; clear Hts.
  exists model, sample_z, [0; 1 / 2; 1], ss, si, 0, 1, sub_lo, sub_hi.
  repeat split; try assumption.
  - intros i j a b Hij Hi Hj.
    destruct i as [|[|[|i]]]; destruct j as [|[|[|j]]]; simpl in Hi, Hj;
      try lia; try discriminate;
      try (inversion Hi; inversion Hj; lra);
      try (destruct i; discriminate); try (destruct j; discriminate).
  - unfold scale_0_100. decide_reals. simpl. struct_eq.
Qed.

Lemma entropy_end_to_end_witness :
  "x1"%string <> "x2"%string
  /\ exists model,
       train_weight_model correlated_eigh consistent_eig "id" "now" entropy "m"
                          ["x1"; "x2"]%string [] sample_x [positive; positive]
                          [] None 0.85 = Ok model
       /\ weights model = [("x1"%string, 1 / 2); ("x2"%string, 1 / 2)].
Proof.
  assert (H : "x1"%string <> "x2"%string) by discriminate.
  split; [exact H|].
  destruct (entropy_end_to_end correlated_eigh consistent_eig "id" "now" "m"
              "x1" "x2" [] [] None 0.85 H)
    as (model & z & sr & ss & si & lo & hi & slo & shi & Htrain & Hw & _).
  exists model. split; assumption.
Defined.

Lemma two_keys_distinct : NoDup ["x1"; "x2"]%string.
Proof.
  constructor; [intros [H|[]]; discriminate|].
  constructor; [intros []|constructor].
Qed.

Lemma train_apply_roundtrip_witness :
  NoDup ["x1"; "x2"]%string
  /\ exists model z score_raw sub_scores sub_index,
       train_weight_model correlated_eigh consistent_eig "id" "now" entropy "m"
                          ["x1"; "x2"]%string [] sample_x [positive; positive]
                          [] None 0.85 = Ok model
       /\ train_scores correlated_eigh consistent_eig entropy ["x1"; "x2"]%string []
                       sample_x [positive; positive] None 0.85
          = Ok (z, score_raw, sub_scores)
       /\ apply_weight_model model [] sample_x [positive; positive]
          = Ok (z, score_raw, sub_scores, sub_index).
Proof.
  split; [exact two_keys_distinct|].
  destruct (sample_train correlated_eigh consistent_eig "id" "now" "m" "x1" "x2"
              [] [] None 0.85 ltac:(discriminate))
    as (model & ss & sub_lo & sub_hi & Htrain & _).
  destruct (train_apply_roundtrip _ _ _ _ _ _ _ _ _ _ _ _ _ _
              two_keys_distinct Htrain) as (z & sr & ss' & si & Hts & Happ).
  exists model, z, sr, ss', si. repeat split; assumption.
Defined.

Lemma weights_sum_to_one_witness :
  NoDup ["x1"; "x2"]%string
  /\ exists model,
       train_weight_model correlated_eigh consistent_eig "id" "now" entropy "m"
                          ["x1"; "x2"]%string [] sample_x [positive; positive]
                          [] None 0.85 = Ok model
       /\ vsum (dict_values (weights model)) = 1.
Proof.
  split; [exact two_keys_distinct|].
  destruct (sample_train correlated_eigh consistent_eig "id" "now" "m" "x1" "x2"
              [] [] None 0.85 ltac:(discriminate))
    as (model & ss & sub_lo & sub_hi & Htrain & _).
  exists model. split; [exact Htrain|].
  refine (proj1 (weights_sum_to_one _ _ _ _ _ _ _ _ _ _ _ _ _ _
                   two_keys_distinct _ Htrain)).
  intros H. discriminate H.
Defined.

(** ** Entropy: the diversities lie between 0 and 1 *)

Lemma ln_le_minus_1 (x : R) : 0 < x -> ln x <= x - 1.
Proof.
  intros Hx. pose proof (exp_ineq1_le (x - 1)) as H.
  replace (1 + (x - 1)) with x in H by ring.
  rewrite <- (ln_exp (x - 1)). destruct H as [H|H].
  - left. now apply ln_increasing.
  - right. now rewrite <- H.
Qed.

Lemma plogp_zero : plogp 0 = 0.
Proof. unfold plogp. ring. Qed.

Lemma plogp_positive (p : R) : 0 < p -> plogp p = p * ln p.
Proof. intros H. unfold plogp. apply Rltb_true in H. now rewrite H. Qed.

Lemma plogp_nonpos (p : R) : 0 <= p -> p <= 1 -> plogp p <= 0.
Proof.
  intros [H0 | <-] H1; [|rewrite plogp_zero; lra].
  rewrite plogp_positive by assumption.
  assert (ln p <= 0).
  { rewrite <- ln_1. destruct H1 as [H1 | ->]; [left; now apply ln_increasing | lra]. }
  nra.
Qed.

(** The pointwise form of Gibbs' inequality. *)
Lemma plogp_gibbs (p N : R) :
  0 <= p -> 0 < N -> - plogp p - p * ln N <= / N - p.
Proof.
  intros [Hp | <-] HN.
  - rewrite plogp_positive by assumption.
    assert (HpN : 0 < p * N) by now apply Rmult_lt_0_compat.
    pose proof (ln_le_minus_1 (/ (p * N)) (Rinv_0_lt_compat _ HpN)) as H.
    rewrite ln_Rinv, ln_mult in H by assumption.
    apply (Rmult_le_compat_l p) in H; [|lra].
    replace (p * (/ (p * N) - 1)) with (/ N - p) in H by (field; lra).
    lra.
  - rewrite plogp_zero. assert (0 < / N) by now apply Rinv_0_lt_compat. lra.
Qed.

Lemma vsum_map_le (f g : R -> R) (l : vec) :
  (forall a, In a l -> f a <= g a) -> vsum (map f l) <= vsum (map g l).
Proof.
  induction l as [|a l IH]; intros H; simpl; [lra|].
  pose proof (H a (or_introl eq_refl)).
  assert (vsum (map f l) <= vsum (map g l)) by (apply IH; intros; apply H; now right).
  lra.
Qed.

Lemma vsum_gibbs_left (L : R) (ps : vec) :
  vsum (map (fun p => - plogp p - p * L) ps) = - vsum (map plogp ps) - L * vsum ps.
Proof. induction ps as [|p ps IH]; simpl; [|rewrite IH]; ring. Qed.

Lemma vsum_gibbs_right (N : R) (ps : vec) :
  vsum (map (fun p => / N - p) ps) = INR (length ps) * / N - vsum ps.
Proof.
  induction ps as [|p ps IH]; [simpl; ring|].
  cbn [map vsum length]. rewrite IH, S_INR. ring.
Qed.

Lemma vsum_zero_all_zero (c : vec) :
  Forall (fun t => 0 <= t) c -> vsum c = 0 -> Forall (fun t => t = 0) c.
Proof.
  induction 1 as [|a c Ha Hc IH]; simpl; intros Hs; [constructor|].
  pose proof (vsum_nonneg c Hc). constructor; [lra | apply IH; lra].
Qed.

Lemma vsum_entry_le (c : vec) :
  Forall (fun t => 0 <= t) c -> Forall (fun t => t <= vsum c) c.
Proof.
  induction 1 as [|a c Ha Hc IH]; simpl; constructor.
  - pose proof (vsum_nonneg c Hc). lra.
  - eapply Forall_impl; [|exact IH]. intros t Ht. simpl in Ht. lra.
Qed.

Lemma entropy_diversity_bounds (c : vec) :
  Forall (fun t => 0 <= t) c -> 0 <= entropy_diversity c <= 1.
Proof.
  intros Hc. unfold entropy_diversity.
  destruct (Nat.ltb 1 (length c)) eqn:En; [|lra].
  apply Nat.ltb_lt in En.
  set (N := INR (length c)).
  assert (HN : 1 < N) by (unfold N; replace 1 with (INR 1) by reflexivity;
                          now apply lt_INR).
  assert (HlnN : 0 < ln N) by (rewrite <- ln_1; apply ln_increasing; lra).
  pose proof (vsum_nonneg c Hc) as Hs.
  destruct (Reqb (vsum c) 0) eqn:Es.
  - (* an all-zero column *)
    apply Reqb_true in Es. pose proof (vsum_zero_all_zero c Hc Es) as Hz.
    assert (E : vsum (map (fun a => plogp (a / 1)) c) = 0).
    { clear - Hz. induction Hz as [|a c Ha _ IH]; simpl; [reflexivity|].
      rewrite IH, Ha. replace (0 / 1) with 0 by lra. rewrite plogp_zero. ring. }
    rewrite E. lra.
  - apply Reqb_false in Es. set (s := vsum c) in *.
    assert (Hspos : 0 < s) by lra.
    set (ps := map (fun a => a / s) c).
    assert (Hps : vsum (map (fun a => plogp (a / s)) c) = vsum (map plogp ps))
      by (unfold ps; now rewrite map_map).
    rewrite Hps.
    assert (Hpnn : Forall (fun t => 0 <= t) ps)
      by (apply normalized_nonneg; assumption).
    assert (Hple : Forall (fun t => t <= 1) ps).
    { unfold ps. rewrite Forall_map.
      eapply Forall_impl; [|exact (vsum_entry_le c Hc)].
      intros t Ht. simpl in Ht. fold s in Ht.
      apply (Rmult_le_reg_r s); [assumption|].
      unfold Rdiv. rewrite Rmult_assoc, Rinv_l by lra. lra. }
    assert (Hsum : vsum ps = 1) by (unfold ps, s; apply vsum_normalized; exact Es).
    assert (Hlen : length ps = length c) by (unfold ps; apply length_map).
    assert (Hneg : vsum (map plogp ps) <= 0).
    { clear - Hpnn Hple. induction ps as [|p ps IH]; simpl; [lra|].
      inversion Hpnn; inversion Hple; subst.
      pose proof (plogp_nonpos p ltac:(assumption) ltac:(assumption)).
      specialize (IH ltac:(assumption) ltac:(assumption)). lra. }
    assert (Hgibbs : - vsum (map plogp ps) <= ln N).
    { pose proof (vsum_map_le (fun p => - plogp p - p * ln N)
                              (fun p => / N - p) ps) as G.
      rewrite vsum_gibbs_left, vsum_gibbs_right, Hsum, Hlen in G.
      fold N in G. rewrite Rinv_r in G by lra.
      assert (forall a, In a ps -> - plogp a - a * ln N <= / N - a).
      { intros a Ha. apply plogp_gibbs; [|lra].
        rewrite Forall_forall in Hpnn. now apply Hpnn. }
      specialize (G H). lra. }
    assert (Hk : 0 < 1 / ln N) by (apply Rdiv_lt_0_compat; lra).
    assert (Hk1 : 1 / ln N * ln N = 1) by (field; lra).
    split; nra.
Qed.

(** ** Entropy weighting, column by column *)

Lemma nth_map_in (f : R -> R) (l : vec) (j : nat) :
  (j < length l)%nat -> nth j (map f l) 0 = f (nth j l 0).
Proof.
  intros H. rewrite (nth_indep _ 0 (f 0)) by (now rewrite length_map).
  apply map_nth.
Qed.

Lemma map2_with_map {A B : Type} (F : A -> A -> B) (h : A -> A) (l : list A) :
  map2 F l (map h l) = map (fun a => F a (h a)) l.
Proof. induction l as [|a l IH]; simpl; congruence. Qed.

Lemma nth_seq_map (f : nat -> R) (p j : nat) :
  (j < p)%nat -> nth j (map f (seq 0 p)) 0 = f j.
Proof.
  intros H. rewrite (nth_indep _ 0 (f 0%nat)) by (now rewrite length_map, length_seq).
  rewrite map_nth, seq_nth by assumption. reflexivity.
Qed.

(** The array code of [_entropy_weights] computes, for each column, the
    diversity of that column. *)
Lemma entropy_weights_columns (z : ndarray) :
  well_shaped z ->
  _entropy_weights z
  = let d := map (fun j => entropy_diversity (column j z)) (seq 0 (ncols z)) in
    if Rleb (vsum d) 0 then Err (ComputeError EntropyAllZeroDiversity)
    else Ok (map (fun dj => dj / vsum d) d).
Proof.
  intros Hz. unfold _entropy_weights.
  set (cs := map (fun s => if Reqb s 0 then 1 else s) (col_sums z)).
  assert (Hcs : length cs = ncols z) by (unfold cs; now rewrite length_map, col_sums_length).
  rewrite mat_bcast_same by assumption. cbn [bind].
  set (g := fun r : list R => map2 Rdiv r cs).
  set (k := if Nat.ltb 1 (nrows z) then 1 / ln (INR (nrows z)) else 0).
  assert (E : map (fun ej => 1 - ej)
                (map (fun s => - k * s)
                   (col_sums
                      (mat_mul {| ncols := ncols z; rows := map g (rows z) |}
                         (mat_map (fun p => if Rltb 0 p then ln p else 0)
                            {| ncols := ncols z; rows := map g (rows z) |}))))
              = map (fun j => entropy_diversity (column j z)) (seq 0 (ncols z))).
  { unfold col_sums. cbn [ncols mat_mul]. rewrite !map_map.
    apply map_ext_in. intros j Hj. apply in_seq in Hj.
    unfold entropy_diversity.
    assert (Hn : length (column j z) = nrows z) by (unfold column; apply length_map).
    rewrite Hn. fold k. do 3 f_equal.
    unfold column, mat_mul, mat_map. cbn [rows].
    rewrite map2_with_map, !map_map.
    apply map_ext_in. intros r Hr.
    assert (Hlen : length r = ncols z).
    { unfold well_shaped in Hz. rewrite Forall_forall in Hz. now apply Hz. }
    rewrite map2_with_map. unfold g.
    rewrite (nth_map_in (fun a => a * (if Rltb 0 a then ln a else 0)))
      by (rewrite map2_length; lia).
    rewrite map2_nth by lia.
    assert (Hnth : nth j cs 0
                   = if Reqb (vsum (column j z)) 0 then 1 else vsum (column j z)).
    { unfold cs. rewrite nth_map_in by (rewrite col_sums_length; lia).
      unfold col_sums. rewrite nth_seq_map by lia. reflexivity. }
    rewrite !Hnth. reflexivity. }
  cbv zeta. fold k. rewrite E. reflexivity.
Qed.

(** ** Non-negative standardized values *)

Lemma list_update_length {A : Type} (j : nat) (a : A) (l : list A) :
  length (list_update j a l) = length l.
Proof.
  revert j; induction l as [|h l IH]; intros [|j]; simpl; try reflexivity.
  now rewrite IH.
Qed.

Lemma negate_column_well_shaped (j : nat) (x x' : ndarray) :
  well_shaped x -> negate_column j x = Ok x' -> well_shaped x'.
Proof.
  unfold negate_column, well_shaped. intros Hx.
  destruct (Nat.ltb j (ncols x)); [|discriminate].
  intros H. inversion H; subst; simpl. rewrite Forall_map.
  eapply Forall_impl; [|exact Hx]. intros r Hr. simpl.
  now rewrite list_update_length.
Qed.

Lemma apply_direction_well_shaped (directions : list Direction) :
  forall j x x', well_shaped x -> apply_direction_from j directions x = Ok x' ->
                 well_shaped x'.
Proof.
  induction directions as [|[|] ds IH]; intros j x x' Hx H; simpl in H.
  - inversion H; now subst.
  - eapply IH; eassumption.
  - inv_bind H. eapply IH; [|eassumption].
    eapply negate_column_well_shaped; eassumption.
Qed.

Lemma fold_left_Rmin_le (t : vec) (a : R) :
  fold_left Rmin t a <= a /\ Forall (fun b => fold_left Rmin t a <= b) t.
Proof.
  revert a. induction t as [|b t IH]; intros a; simpl.
  - split; [lra | constructor].
  - destruct (IH (Rmin a b)) as (H1 & H2).
    pose proof (Rmin_l a b). pose proof (Rmin_r a b).
    split; [lra|]. constructor; [lra | assumption].
Qed.

Lemma fold_left_Rmax_ge (t : vec) (a : R) :
  a <= fold_left Rmax t a /\ Forall (fun b => b <= fold_left Rmax t a) t.
Proof.
  revert a. induction t as [|b t IH]; intros a; simpl.
  - split; [lra | constructor].
  - destruct (IH (Rmax a b)) as (H1 & H2).
    pose proof (Rmax_l a b). pose proof (Rmax_r a b).
    split; [lra|]. constructor; [lra | assumption].
Qed.

Lemma np_min_le (v : vec) (m : R) : np_min v = Ok m -> Forall (fun a => m <= a) v.
Proof.
  destruct v as [|a t]; [discriminate|]. simpl. intros H. inversion H; subst.
  destruct (fold_left_Rmin_le t a). now constructor.
Qed.

Lemma np_max_ge (v : vec) (m : R) : np_max v = Ok m -> Forall (fun a => a <= m) v.
Proof.
  destruct v as [|a t]; [discriminate|]. simpl. intros H. inversion H; subst.
  destruct (fold_left_Rmax_ge t a). now constructor.
Qed.

Lemma minmax_fit_bounds (x : ndarray) (min_v max_v : vec) (j : nat) :
  _minmax_fit x = Ok (min_v, max_v) -> (j < ncols x)%nat ->
  Forall (fun a => nth j min_v 0 <= a /\ a <= nth j max_v 0) (column j x).
Proof.
  unfold _minmax_fit. destruct (rows x) eqn:E; [discriminate|].
  intros H Hj. inv_bind H. inv_bind H. inversion H; subst; clear H.
  assert (Hs : nth_error (seq 0 (ncols x)) j = Some j).
  { rewrite (nth_error_nth' _ 0%nat) by (now rewrite length_seq).
    now rewrite seq_nth. }
  destruct (mapM_nth_error _ _ _ _ _ Ha Hs) as (lo & Hlo & Elo).
  destruct (mapM_nth_error _ _ _ _ _ Ha0 Hs) as (hi & Hhi & Ehi).
  rewrite (nth_error_nth _ _ 0 Elo), (nth_error_nth _ _ 0 Ehi).
  pose proof (np_min_le _ _ Hlo) as Hmin. pose proof (np_max_ge _ _ Hhi) as Hmax.
  rewrite Forall_forall in *. intros a Ha'. split; auto.
Qed.

Lemma Forall_nth_all (P : R -> Prop) (l : vec) :
  (forall j, (j < length l)%nat -> P (nth j l 0)) -> Forall P l.
Proof.
  intros H. apply Forall_forall. intros a Ha.
  destruct (In_nth _ _ 0 Ha) as (j & Hj & <-). now apply H.
Qed.

(** Min-max standardization with the fitted parameters gives a
    rectangular matrix of non-negative entries. *)
Lemma minmax_standardized_nonneg (x z : ndarray) (min_v max_v : vec) :
  well_shaped x ->
  _minmax_fit x = Ok (min_v, max_v) ->
  _minmax_transform x min_v max_v = Ok z ->
  well_shaped z /\ nonnegative z.
Proof.
  intros Hx Hfit Ht.
  destruct (minmax_fit_lengths _ _ _ Hfit) as (Lmin & Lmax & _).
  destruct (minmax_degenerate_dec min_v max_v (ncols x) Lmin Lmax) as [Hd|Hnd].
  - rewrite minmax_transform_degenerate in Ht; [discriminate | congruence |].
    now rewrite Lmax.
  - rewrite (minmax_transform_ok x min_v max_v Hx Lmin Lmax Hnd) in Ht.
    inversion Ht; subst z; clear Ht.
    assert (Hrow : forall r, In r (rows x) ->
              length (map2 Rdiv (map2 Rminus r min_v) (map2 Rminus max_v min_v))
              = ncols x
              /\ Forall (fun t => 0 <= t)
                   (map2 Rdiv (map2 Rminus r min_v) (map2 Rminus max_v min_v))).
    { intros r Hr.
      assert (Hlen : length r = ncols x).
      { unfold well_shaped in Hx. rewrite Forall_forall in Hx. now apply Hx. }
      assert (L1 : length (map2 Rminus r min_v) = ncols x)
        by (rewrite map2_length; congruence).
      assert (L2 : length (map2 Rminus max_v min_v) = ncols x)
        by (rewrite map2_length; congruence).
      assert (L3 : length (map2 Rdiv (map2 Rminus r min_v) (map2 Rminus max_v min_v))
                   = ncols x) by (rewrite map2_length; congruence).
      split; [exact L3|].
      apply Forall_nth_all. intros j Hj. rewrite L3 in Hj.
      rewrite map2_nth by (congruence || lia).
      rewrite !map2_nth by (congruence || lia).
      pose proof (minmax_fit_bounds _ _ _ j Hfit Hj) as Hb.
      rewrite Forall_forall in Hb.
      destruct (Hb (nth j r 0)) as (B1 & B2).
      { unfold column. apply in_map_iff. exists r. split; [reflexivity | assumption]. }
      specialize (Hnd j Hj).
      apply Rmult_le_pos; [lra|]. left. apply Rinv_0_lt_compat. lra. }
    split.
    + unfold well_shaped. cbn [rows ncols]. rewrite Forall_map.
      apply Forall_forall. intros r Hr. now apply Hrow.
    + unfold nonnegative. cbn [rows]. rewrite Forall_map.
      apply Forall_forall. intros r Hr. now apply Hrow.
Qed.

Lemma column_nonneg (z : ndarray) (j : nat) :
  nonnegative z -> Forall (fun t => 0 <= t) (column j z).
Proof.
  unfold nonnegative, column. intros H. rewrite Forall_map.
  eapply Forall_impl; [|exact H]. intros r Hr. simpl.
  destruct (Nat.lt_ge_cases j (length r)) as [Hj|Hj].
  - rewrite Forall_forall in Hr. apply Hr. now apply nth_In.
  - rewrite nth_overflow by assumption. lra.
Qed.

(** On a rectangular matrix of non-negative entries every diversity lies
    in [0, 1] and every entropy weight is non-negative. *)
Lemma entropy_weights_nonneg (z : ndarray) (w : vec) :
  well_shaped z -> nonnegative z -> _entropy_weights z = Ok w ->
  Forall (fun d => 0 <= d <= 1)
         (map (fun j => entropy_diversity (column j z)) (seq 0 (ncols z)))
  /\ Forall (fun t => 0 <= t) w.
Proof.
  intros Hz Hnn H. rewrite (entropy_weights_columns z Hz) in H. cbv zeta in H.
  assert (Hd : Forall (fun d => 0 <= d <= 1)
                 (map (fun j => entropy_diversity (column j z)) (seq 0 (ncols z)))).
  { rewrite Forall_map. apply Forall_forall. intros j _.
    apply entropy_diversity_bounds. now apply column_nonneg. }
  split; [exact Hd|].
  destruct (Rleb _ 0) eqn:E in H; [discriminate|]. apply Rleb_false in E.
  inversion H; subst w. apply normalized_nonneg; [assumption|].
  eapply Forall_impl; [|exact Hd]. intros d Hd'. simpl in Hd'. lra.
Qed.

(** ** Non-negative weights *)

Lemma map2_plus_nonneg (a b : vec) :
  Forall (fun t => 0 <= t) a -> Forall (fun t => 0 <= t) b ->
  Forall (fun t => 0 <= t) (map2 Rplus a b).
Proof.
  intros Ha. revert b. induction Ha as [|x a Hx _ IH]; intros b Hb; simpl.
  - constructor.
  - destruct b as [|y b]; [constructor|]. inversion Hb; subst.
    constructor; [lra | now apply IH].
Qed.

Lemma vec_iadd_nonneg (w t w' : vec) :
  Forall (fun a => 0 <= a) w -> Forall (fun a => 0 <= a) t ->
  vec_iadd w t = Ok w' -> Forall (fun a => 0 <= a) w'.
Proof.
  intros Hw Ht. unfold vec_iadd. destruct (Nat.eqb (length t) (length w)).
  - intros H. inversion H; subst. now apply map2_plus_nonneg.
  - destruct t as [|y [|]]; try discriminate. intros H. inversion H; subst.
    inversion Ht; subst. rewrite Forall_map.
    eapply Forall_impl; [|exact Hw]. intros a Ha. simpl in *. lra.
Qed.

Lemma pca_accumulate_nonneg (eigvals : vec) (eigvecs : ndarray) (todo : nat) :
  forall w l w', Forall (fun a => 0 <= a) w ->
                 pca_accumulate eigvals eigvecs w l todo = Ok w' ->
                 Forall (fun a => 0 <= a) w'.
Proof.
  induction todo as [|todo IH]; intros w l w' Hw H; simpl in H.
  - inversion H; now subst.
  - inv_bind H. inv_bind H. inv_bind H. eapply IH; [|eassumption].
    eapply vec_iadd_nonneg; [exact Hw | | eassumption].
    rewrite Forall_map. apply Forall_forall. intros v _.
    apply Rmult_le_pos; apply Rle_0_sqr.
Qed.

Lemma pca_weights_nonneg (eigh : ndarray -> vec * ndarray) (z : ndarray) (thr : R)
      (r : PcaResult) :
  _pca_weights eigh z thr = Ok r -> Forall (fun t => 0 <= t) (pca_weights r).
Proof.
  unfold _pca_weights. intros H.
  destruct (Nat.ltb (nrows z) 2); [discriminate|].
  destruct (Nat.eqb (ncols z) 1); [discriminate|].
  destruct (Rleb (vsum (pca_eigvals eigh z)) 0); [discriminate|].
  inv_bind H. inv_bind H.
  destruct (Rleb (vsum a0) 0) eqn:E; [discriminate|]. apply Rleb_false in E.
  inversion H; subst r; clear H. cbn [pca_weights].
  apply normalized_nonneg; [assumption|].
  eapply pca_accumulate_nonneg; [|eassumption].
  apply Forall_forall. intros t Ht. apply repeat_spec in Ht. lra.
Qed.

Lemma firstn_forall {A : Type} (P : A -> Prop) (n : nat) (l : list A) :
  Forall P l -> Forall P (firstn n l).
Proof.
  intros H. revert n. induction H as [|a l Ha _ IH]; intros [|n]; simpl;
    constructor; auto.
Qed.

Lemma keyed_values_forall (P : R -> Prop) (keys : list string) (v : vec) (d : dict R) :
  Forall P v -> keyed keys v = Ok d -> Forall P (dict_values d).
Proof.
  intros Hv H. unfold keyed in H. inv_bind H. inversion H; subst d; clear H.
  apply dict_of_pairs_values_forall.
  destruct (keyed_pairs v keys 0%nat a Ha) as (_ & K2 & _). rewrite K2. simpl.
  now apply firstn_forall.
Qed.

Lemma dict_get_default_forall {V : Type} (P : V -> Prop) (k : string) (dflt : V)
      (d : dict V) :
  P dflt -> Forall P (dict_values d) -> P (dict_get_default k dflt d).
Proof.
  intros Hd H. unfold dict_get_default.
  induction d as [|[k' v'] d IH]; simpl in *; [assumption|].
  inversion H; subst. destruct (String.eqb k k'); auto.
Qed.

Lemma build_dimension2_weights_nonneg (indicators : list IndicatorRecord)
      (ws : dict R) :
  Forall (fun t => 0 <= t) (dict_values ws) ->
  Forall (fun t => 0 <= t) (dict_values (build_dimension2_weights indicators ws)).
Proof.
  intros Hws. unfold build_dimension2_weights.
  assert (G : forall dim,
             Forall (fun t => 0 <= t) (dict_values dim) ->
             Forall (fun t => 0 <= t)
               (dict_values
                  (fold_left
                     (fun dim ind =>
                        dict_set (dimension2_of ind)
                          (dict_get_default (dimension2_of ind) 0 dim
                           + dict_get_default (ind_key ind) 0 ws) dim)
                     indicators dim))).
  { induction indicators as [|ind inds IH]; intros dim Hdim; simpl; [assumption|].
    apply IH. apply dict_set_values_forall; [|assumption].
    pose proof (dict_get_default_forall (fun t => 0 <= t) (dimension2_of ind) 0 dim
                  ltac:(lra) Hdim).
    pose proof (dict_get_default_forall (fun t => 0 <= t) (ind_key ind) 0 ws
                  ltac:(lra) Hws).
    simpl in *. lra. }
  apply G. constructor.
Qed.

(** C10.  Each of the three weighting algorithms returns only
    non-negative weights: the entropy weights on a rectangular matrix of
    non-negative entries, where every diversity lies in [0, 1]; the PCA
    weights; and the AHP weights.  Hence every value of the [weights] and
    of the [dimension2Weights] map of a trained record is non-negative. *)
Theorem weights_nonnegative
        (eigh : ndarray -> vec * ndarray)
        (eig : ndarray -> list complex * list (list complex)) :
  (forall z w, well_shaped z -> nonnegative z -> _entropy_weights z = Ok w ->
      Forall (fun d => 0 <= d <= 1)
             (map (fun j => entropy_diversity (column j z)) (seq 0 (ncols z)))
      /\ Forall (fun t => 0 <= t) w)
  /\ (forall z thr r, _pca_weights eigh z thr = Ok r ->
        Forall (fun t => 0 <= t) (pca_weights r))
  /\ (forall m w lambda_max ci cr, _ahp_weights eig m = Ok (w, lambda_max, ci, cr) ->
        Forall (fun t => 0 <= t) w)
  /\ (forall id created method name keys indicators x_train directions ds
             ahp_matrix thr model,
        well_shaped x_train ->
        train_weight_model eigh eig id created method name keys indicators x_train
                           directions ds ahp_matrix thr = Ok model ->
        Forall (fun t => 0 <= t) (dict_values (weights model))
        /\ Forall (fun t => 0 <= t) (dict_values (dimension2Weights model))).
Proof.
  split; [exact entropy_weights_nonneg|].
  split; [intros z thr r; apply pca_weights_nonneg|].
  split; [intros m w l ci cr H; now destruct (ahp_weights_sum _ _ _ _ _ _ H) as (_ & _ & ?)|].
  intros id created method name keys indicators x_train directions ds ahp_matrix
         thr model Hshape Htrain.
  destruct (train_weight_model_inv _ _ _ _ _ _ _ _ _ _ _ _ _ _ Htrain)
    as (x & z & w_vec & std & pinfo & ainfo & score_raw & sub_scores
        & lo & hi & sub_lo & sub_hi
        & Hx & Hfit & Hw & _ & _ & _ & _ & _ & _ & Hdim & _).
  assert (Hxs : well_shaped x) by (eapply apply_direction_well_shaped; eassumption).
  assert (Hnn : Forall (fun t => 0 <= t) w_vec).
  { destruct (train_fit_inv _ _ _ _ _ _ _ _ _ _ _ _ Hfit)
      as [(min_v & max_v & smin & smax & _ & Hf & Ht & He & _)
         |(mean & sd & smean & sstd & _ & _ & _ & _ & _
           & [(_ & r & Hr & ->)|(_ & am & m & l & ci & cr & _ & _ & Ha)])].
    - destruct (minmax_standardized_nonneg _ _ _ _ Hxs Hf Ht) as (Hz1 & Hz2).
      now destruct (entropy_weights_nonneg z w_vec Hz1 Hz2 He).
    - eapply pca_weights_nonneg; eassumption.
    - now destruct (ahp_weights_sum _ _ _ _ _ _ Ha) as (_ & _ & ?). }
  assert (Hws : Forall (fun t => 0 <= t) (dict_values (weights model)))
    by (eapply keyed_values_forall; eassumption).
  split; [exact Hws|]. rewrite Hdim. now apply build_dimension2_weights_nonneg.
Qed.

(** ** A record without scaling, and a trained record *)

Lemma dup_apply_unscaled :
  apply_weight_model_locals (with_scaling dup_model None) [ind_a; ind_a] dup_x
                            [positive; positive]
  = Ok (dup_z_applied, [0; 3 / 4], [("default"%string, [0; 3 / 4])],
        [("default"%string, [0; 100])], [0; 100]).
Proof.
  unfold apply_weight_model_locals.
  change (apply_standardize (with_scaling dup_model None) dup_x [positive; positive])
    with (apply_standardize dup_model dup_x [positive; positive]).
  rewrite dup_apply_standardize. cbn [bind].
  assert (E : compute_scores dup_z_applied
                (indicatorKeys (with_scaling dup_model None)) [ind_a; ind_a]
                (weights (with_scaling dup_model None))
              = Ok ([0; 3 / 4], [("default"%string, [0; 3 / 4])])).
  { unfold compute_scores. eval_engine. decide_reals. eval_engine. struct_eq. }
  rewrite E. eval_engine.
  rewrite !Rmin_left by lra. rewrite !Rmax_right by lra.
  unfold scale_0_100. decide_reals. eval_engine. struct_eq.
Qed.

Lemma apply_missing_scaling_witness :
  exists gmin gmax sub_index,
    np_min [0; 3 / 4] = Ok gmin /\ np_max [0; 3 / 4] = Ok gmax
    /\ apply_weight_model (with_scaling dup_model None) [ind_a; ind_a] dup_x
                          [positive; positive]
       = Ok (dup_z_applied, [0; 3 / 4], [("default"%string, [0; 3 / 4])], sub_index)
    /\ dict_get "default" sub_index = Some (scale_0_100 [0; 3 / 4] gmin gmax).
Proof.
  destruct (apply_missing_scaling dup_model [ind_a; ind_a] dup_x [positive; positive])
    as (_ & _ & Unscaled).
  destruct (Unscaled _ _ _ _ _ dup_apply_unscaled)
    as (dmin & dmax & _ & _ & _ & Hsub).
  destruct (Hsub "default"%string [0; 3 / 4] eq_refl)
    as (gmin & gmax & Hmin & Hmax & Hget).
  exists gmin, gmax, [("default"%string, [0; 100])].
  repeat split; try assumption.
  unfold apply_weight_model. now rewrite dup_apply_unscaled.
Defined.

Lemma weights_nonnegative_witness :
  well_shaped sample_x
  /\ exists model,
       train_weight_model correlated_eigh consistent_eig "id" "now" entropy "m"
                          ["x1"; "x2"]%string [] sample_x [positive; positive]
                          [] None 0.85 = Ok model
       /\ Forall (fun t => 0 <= t) (dict_values (weights model))
       /\ Forall (fun t => 0 <= t) (dict_values (dimension2Weights model)).
Proof.
  assert (Hx : well_shaped sample_x) by (repeat constructor).
  split; [exact Hx|].
  destruct (sample_train correlated_eigh consistent_eig "id" "now" "m" "x1" "x2"
              [] [] None 0.85 ltac:(discriminate))
    as (model & ss & sub_lo & sub_hi & Htrain & _).
  exists model. split; [exact Htrain|].
  destruct (weights_nonnegative correlated_eigh consistent_eig) as (_ & _ & _ & Trained).
  exact (Trained _ _ _ _ _ _ _ _ _ _ _ _ Hx Htrain).
Defined.

(** * Further properties of the engine *)

(** ** Arrays are determined by their entries *)

Lemma list_ext_nth (a b : vec) :
  length a = length b ->
  (forall j, (j < length a)%nat -> nth j a 0 = nth j b 0) -> a = b.
Proof.
  revert b. induction a as [|x a IH]; intros [|y b] Hlen H; simpl in *;
    try congruence.
  f_equal.
  - apply (H 0%nat). lia.
  - apply IH; [congruence|]. intros j Hj. apply (H (S j)). lia.
Qed.

Lemma rows_ext (p : nat) (a b : list vec) :
  length a = length b ->
  Forall (fun r => length r = p) a -> Forall (fun r => length r = p) b ->
  (forall i j, (i < length a)%nat -> (j < p)%nat ->
               nth j (nth i a []) 0 = nth j (nth i b []) 0) ->
  a = b.
Proof.
  revert b. induction a as [|r a IH]; intros [|s b] Hlen Ha Hb H; simpl in *;
    try congruence.
  inversion Ha; inversion Hb; subst. f_equal.
  - apply list_ext_nth; [congruence|]. intros j Hj.
    apply (H 0%nat j); lia.
  - apply IH; try assumption; [congruence|].
    intros i j Hi Hj. apply (H (S i) j); lia.
Qed.

Lemma ndarray_ext (x y : ndarray) :
  well_shaped x -> same_shape x y ->
  (forall i j, (i < nrows x)%nat -> (j < ncols x)%nat -> entry x i j = entry y i j) ->
  x = y.
Proof.
  intros Hx (Hc & Hr & Hy) H. destruct x as [p a], y as [q b].
  unfold well_shaped, nrows, entry in *. simpl in *. subst q. f_equal.
  apply (rows_ext p); assumption.
Qed.

Lemma mapM_total {A B : Type} (f : A -> res B) (l : list A) :
  (forall a, In a l -> exists b, f a = Ok b) -> exists out, mapM f l = Ok out.
Proof.
  induction l as [|a l IH]; intros H; simpl; [eauto|].
  destruct (H a (or_introl eq_refl)) as (b & Hb).
  destruct IH as (out & Hout); [intros; apply H; now right|].
  rewrite Hb. simpl. rewrite Hout. simpl. eauto.
Qed.

(** ** The direction normalizer *)

Lemma nth_list_update (c j : nat) (a : R) (l : vec) :
  nth c (list_update j a l) 0
  = if Nat.eqb c j && Nat.ltb j (length l) then a else nth c l 0.
Proof.
  revert c j. induction l as [|h l IH]; intros c j; simpl.
  - destruct j, c; simpl; rewrite ?andb_false_r; reflexivity.
  - destruct j as [|j]; destruct c as [|c]; simpl; try reflexivity.
    rewrite IH. reflexivity.
Qed.

Lemma negate_column_entry (j : nat) (x x' : ndarray) (i c : nat) :
  well_shaped x -> negate_column j x = Ok x' -> (i < nrows x)%nat ->
  entry x' i c = if Nat.eqb c j then - entry x i j else entry x i c.
Proof.
  unfold negate_column. intros Hx H Hi.
  destruct (Nat.ltb j (ncols x)) eqn:E; [|discriminate]. inversion H; subst x'.
  rewrite entry_map_rows by assumption. rewrite nth_list_update.
  rewrite (well_shaped_row x i Hx Hi), E, andb_true_r. reflexivity.
Qed.

Lemma negate_column_nrows (j : nat) (x x' : ndarray) :
  negate_column j x = Ok x' -> nrows x' = nrows x.
Proof.
  unfold negate_column. destruct (Nat.ltb j (ncols x)); [|discriminate].
  intros H. inversion H. unfold nrows. simpl. apply length_map.
Qed.

(** The direction at column [c] when the loop starts at column [s]. *)
Lemma apply_direction_from_spec (directions : list Direction) :
  forall s x x',
    well_shaped x -> apply_direction_from s directions x = Ok x' ->
    same_shape x x'
    /\ forall i c, (i < nrows x)%nat ->
         entry x' i c
         = if Nat.leb s c
           then match nth_error directions (c - s) with
                | Some negative => - entry x i c
                | _ => entry x i c
                end
           else entry x i c.
Proof.
  induction directions as [|d ds IH]; intros s x x' Hx H; simpl in H.
  - inversion H; subst x'. split; [repeat split; assumption|].
    intros i c Hi. destruct (Nat.leb s c); [|reflexivity].
    now destruct (c - s)%nat.
  - destruct d.
    + destruct (IH (S s) x x' Hx H) as (Hs & He). split; [exact Hs|].
      intros i c Hi. rewrite (He i c Hi).
      destruct (Nat.leb s c) eqn:E1; destruct (Nat.leb (S s) c) eqn:E2;
        try reflexivity.
      * apply Nat.leb_le in E1, E2.
        replace (c - s)%nat with (S (c - S s)) by lia. reflexivity.
      * apply Nat.leb_le in E1. apply Nat.leb_gt in E2.
        replace (c - s)%nat with 0%nat by lia. reflexivity.
      * apply Nat.leb_gt in E1. apply Nat.leb_le in E2. lia.
    + inv_bind H.
      pose proof (negate_column_well_shaped _ _ _ Hx Ha) as Hx1.
      pose proof (negate_column_ncols _ _ _ Ha) as Hc1.
      pose proof (negate_column_nrows _ _ _ Ha) as Hr1.
      destruct (IH (S s) a x' Hx1 H) as ((Sc & Sr & Sw) & He).
      split; [repeat split; congruence|].
      intros i c Hi. rewrite (He i c) by congruence.
      rewrite !(negate_column_entry s x a i) by assumption.
      destruct (Nat.leb s c) eqn:E1; destruct (Nat.leb (S s) c) eqn:E2.
      * apply Nat.leb_le in E1, E2.
        replace (c - s)%nat with (S (c - S s)) by lia. simpl.
        assert (En : Nat.eqb c s = false) by (apply Nat.eqb_neq; lia).
        now rewrite En.
      * apply Nat.leb_le in E1. apply Nat.leb_gt in E2.
        assert (c = s) by lia. subst c.
        rewrite Nat.sub_diag, Nat.eqb_refl. reflexivity.
      * apply Nat.leb_gt in E1. apply Nat.leb_le in E2. lia.
      * apply Nat.leb_gt in E1.
        assert (En : Nat.eqb c s = false) by (apply Nat.eqb_neq; lia).
        now rewrite En.
Qed.

Lemma apply_direction_from_error (directions : list Direction) :
  forall s x e,
    apply_direction_from s directions x = Err e ->
    e = IndexError
    /\ exists j, nth_error directions j = Some negative /\ (ncols x <= s + j)%nat.
Proof.
  induction directions as [|d ds IH]; intros s x e H; simpl in H; [discriminate|].
  destruct d.
  - destruct (IH _ _ _ H) as (He & j & Hj & Hle). split; [exact He|].
    exists (S j). split; [exact Hj | lia].
  - destruct (negate_column s x) as [x1|e1] eqn:En; simpl in H.
    + destruct (IH _ _ _ H) as (He & j & Hj & Hle). split; [exact He|].
      exists (S j). split; [exact Hj|].
      rewrite (negate_column_ncols _ _ _ En) in Hle. lia.
    + inversion H; subst e1. unfold negate_column in En.
      destruct (Nat.ltb s (ncols x)) eqn:E; [discriminate|].
      apply Nat.ltb_ge in E. inversion En. split; [reflexivity|].
      exists 0%nat. split; [reflexivity | lia].
Qed.

Lemma apply_direction_from_ok (directions : list Direction) :
  forall s x,
    (forall j, nth_error directions j = Some negative -> (s + j < ncols x)%nat) ->
    exists x', apply_direction_from s directions x = Ok x'.
Proof.
  intros s x H. destruct (apply_direction_from s directions x) as [x'|e] eqn:E;
    [eauto|].
  destruct (apply_direction_from_error _ _ _ _ E) as (_ & j & Hj & Hle).
  specialize (H j Hj). lia.
Qed.

Lemma apply_direction_from_ok_inv (directions : list Direction) :
  forall s x x',
    apply_direction_from s directions x = Ok x' ->
    forall j, nth_error directions j = Some negative -> (s + j < ncols x)%nat.
Proof.
  induction directions as [|d ds IH]; intros s x x' H j Hj.
  - destruct j; discriminate.
  - simpl in H. destruct d.
    + destruct j as [|j]; [discriminate|]. simpl in Hj.
      specialize (IH _ _ _ H j Hj). lia.
    + inv_bind H. pose proof (negate_column_ncols _ _ _ Ha) as Hc.
      unfold negate_column in Ha.
      destruct (Nat.ltb s (ncols x)) eqn:E; [|discriminate].
      apply Nat.ltb_lt in E. destruct j as [|j]; [lia|]. simpl in Hj.
      specialize (IH _ _ _ H j Hj). lia.
Qed.

(** X1.  [_apply_direction] can only fail with an index error, and does so
    exactly when a "negative" flag sits at a position that is no column;
    flags beyond the last column that are "positive" are ignored, and
    columns without a flag are left alone.  When it returns, the result
    has the shape of its argument, a column flagged "negative" is negated
    and every other entry is unchanged. *)
Theorem apply_direction_spec (x : ndarray) (directions : list Direction) :
  well_shaped x ->
  (_apply_direction x directions = Err IndexError
   <-> exists j, nth_error directions j = Some negative /\ (ncols x <= j)%nat)
  /\ (forall e, _apply_direction x directions = Err e -> e = IndexError)
  /\ (forall x', _apply_direction x directions = Ok x' ->
        same_shape x x'
        /\ forall i j, (i < nrows x)%nat ->
             entry x' i j
             = match nth_error directions j with
               | Some negative => - entry x i j
               | _ => entry x i j
               end).
Proof.
  intros Hx. unfold _apply_direction. split; [split|split].
  - intros H. destruct (apply_direction_from_error _ _ _ _ H) as (_ & j & Hj & Hle).
    exists j. split; [exact Hj | lia].
  - intros (j & Hj & Hle).
    destruct (apply_direction_from 0 directions x) as [x'|e] eqn:E.
    + pose proof (apply_direction_from_ok_inv _ _ _ _ E j Hj). lia.
    + now destruct (apply_direction_from_error _ _ _ _ E) as (-> & _).
  - intros e H. now destruct (apply_direction_from_error _ _ _ _ H).
  - intros x' H. destruct (apply_direction_from_spec _ _ _ _ Hx H) as (Hs & He).
    split; [exact Hs|]. intros i j Hi. rewrite (He i j Hi). simpl.
    now rewrite Nat.sub_0_r.
Qed.

Lemma apply_direction_spec_witness :
  well_shaped sample_x
  /\ exists x', _apply_direction sample_x [positive; negative; positive] = Ok x'
                /\ entry x' 1 1 = - 2 /\ entry x' 1 0 = 20.
Proof.
  assert (Hx : well_shaped sample_x) by (repeat constructor).
  split; [exact Hx|].
  destruct (apply_direction_spec sample_x [positive; negative; positive] Hx)
    as (_ & _ & Entries).
  eexists. split; [reflexivity|].
  destruct (Entries _ eq_refl) as (_ & He).
  split.
  - rewrite (He 1%nat 1%nat) by (unfold nrows; simpl; lia). reflexivity.
  - rewrite (He 1%nat 0%nat) by (unfold nrows; simpl; lia). reflexivity.
Defined.

(** X2.  Direction normalization is an involution: normalizing the
    normalized matrix with the same flags gives the original matrix back. *)
Theorem apply_direction_involutive (x x' : ndarray) (directions : list Direction) :
  well_shaped x ->
  _apply_direction x directions = Ok x' ->
  _apply_direction x' directions = Ok x.
Proof.
  intros Hx H. unfold _apply_direction in *.
  destruct (apply_direction_from_spec _ _ _ _ Hx H) as ((Hc & Hr & Hw) & He).
  destruct (apply_direction_from_ok directions 0 x') as (x'' & H'').
  { intros j Hj. pose proof (apply_direction_from_ok_inv _ _ _ _ H j Hj). lia. }
  destruct (apply_direction_from_spec _ _ _ _ Hw H'') as ((Hc' & Hr' & Hw') & He').
  rewrite H''. f_equal. symmetry. apply ndarray_ext; [assumption | repeat split; congruence |].
  intros i j Hi Hj. rewrite (He' i j) by congruence. rewrite !(He i j) by assumption.
  simpl. destruct (nth_error directions (j - 0)) as [[|]|]; try reflexivity.
  now rewrite Ropp_involutive.
Qed.

Lemma apply_direction_involutive_witness :
  well_shaped sample_x
  /\ exists x', _apply_direction sample_x [negative; positive] = Ok x'
                /\ _apply_direction x' [negative; positive] = Ok sample_x.
Proof.
  assert (Hx : well_shaped sample_x) by (repeat constructor).
  split; [exact Hx|].
  eexists. split; [reflexivity|].
  apply (apply_direction_involutive sample_x _ [negative; positive] Hx eq_refl).
Defined.

(** ** What a successful transform returns *)

Lemma transform_entries_minmax_aux (x z : ndarray) (min_v max_v : vec) :
  well_shaped x -> length min_v = ncols x -> length max_v = ncols x ->
  _minmax_transform x min_v max_v = Ok z ->
  (forall j, (j < ncols x)%nat -> nth j max_v 0 <> nth j min_v 0)
  /\ same_shape x z
  /\ forall i j, (i < nrows x)%nat -> (j < ncols x)%nat ->
       entry z i j = (entry x i j - nth j min_v 0) / (nth j max_v 0 - nth j min_v 0).
Proof.
  intros Hx Lmin Lmax Ht.
  destruct (minmax_degenerate_dec min_v max_v (ncols x) Lmin Lmax) as [Hd|Hnd].
  - rewrite minmax_transform_degenerate in Ht; [discriminate | congruence |].
    now rewrite Lmax.
  - split; [exact Hnd|].
    rewrite (minmax_transform_ok x min_v max_v Hx Lmin Lmax Hnd) in Ht.
    inversion Ht; subst z; clear Ht.
    assert (Hrow : forall r, In r (rows x) ->
              length (map2 Rdiv (map2 Rminus r min_v) (map2 Rminus max_v min_v))
              = ncols x).
    { intros r Hr.
      assert (Hlen : length r = ncols x).
      { unfold well_shaped in Hx. rewrite Forall_forall in Hx. now apply Hx. }
      rewrite map2_length; rewrite map2_length; try congruence.
      rewrite map2_length; congruence. }
    split.
    + unfold same_shape, nrows, well_shaped. cbn [rows ncols].
      rewrite length_map, Forall_map. repeat split; try reflexivity.
      apply Forall_forall. intros r Hr. now apply Hrow.
    + intros i j Hi Hj. rewrite entry_map_rows by assumption.
      pose proof (well_shaped_row x i Hx Hi) as Hr.
      assert (L1 : length (map2 Rminus (nth i (rows x) []) min_v) = ncols x)
        by (rewrite map2_length; congruence).
      assert (L2 : length (map2 Rminus max_v min_v) = ncols x)
        by (rewrite map2_length; congruence).
      rewrite map2_nth by (congruence || lia).
      rewrite !map2_nth by (congruence || lia). reflexivity.
Qed.

Lemma transform_entries_zscore_aux (x z : ndarray) (mean std : vec) :
  well_shaped x -> length mean = ncols x -> length std = ncols x ->
  _zscore_transform x mean std = Ok z ->
  (forall j, (j < ncols x)%nat -> nth j std 0 <> 0)
  /\ same_shape x z
  /\ forall i j, (i < nrows x)%nat -> (j < ncols x)%nat ->
       entry z i j = (entry x i j - nth j mean 0) / nth j std 0.
Proof.
  intros Hx Lmean Lstd Ht.
  destruct (zscore_degenerate_dec std) as [Hd|Hnd].
  - rewrite zscore_transform_degenerate in Ht; [discriminate | assumption].
  - rewrite Lstd in Hnd. split; [exact Hnd|].
    rewrite (zscore_transform_ok x mean std Hx Lmean Lstd Hnd) in Ht.
    inversion Ht; subst z; clear Ht.
    assert (Hrow : forall r, In r (rows x) ->
              length (map2 Rdiv (map2 Rminus r mean) std) = ncols x).
    { intros r Hr.
      assert (Hlen : length r = ncols x).
      { unfold well_shaped in Hx. rewrite Forall_forall in Hx. now apply Hx. }
      rewrite map2_length; rewrite map2_length; congruence. }
    split.
    + unfold same_shape, nrows, well_shaped. cbn [rows ncols].
      rewrite length_map, Forall_map. repeat split; try reflexivity.
      apply Forall_forall. intros r Hr. now apply Hrow.
    + intros i j Hi Hj. rewrite entry_map_rows by assumption.
      pose proof (well_shaped_row x i Hx Hi) as Hr.
      assert (L1 : length (map2 Rminus (nth i (rows x) []) mean) = ncols x)
        by (rewrite map2_length; congruence).
      rewrite map2_nth by (congruence || lia).
      rewrite !map2_nth by (congruence || lia). reflexivity.
Qed.

(** ** Fitting min-max parameters *)

Lemma fold_left_Rmin_in (t : vec) (a : R) : In (fold_left Rmin t a) (a :: t).
Proof.
  revert a. induction t as [|b t IH]; intros a; simpl; [now left|].
  destruct (IH (Rmin a b)) as [H|H].
  - assert (C : Rmin a b = a \/ Rmin a b = b)
      by (unfold Rmin; destruct (Rle_dec a b); auto).
    destruct C; [left | right; left]; congruence.
  - right. now right.
Qed.

Lemma fold_left_Rmax_in (t : vec) (a : R) : In (fold_left Rmax t a) (a :: t).
Proof.
  revert a. induction t as [|b t IH]; intros a; simpl; [now left|].
  destruct (IH (Rmax a b)) as [H|H].
  - assert (C : Rmax a b = a \/ Rmax a b = b)
      by (unfold Rmax; destruct (Rle_dec a b); auto).
    destruct C; [left | right; left]; congruence.
  - right. now right.
Qed.

Lemma np_min_in (v : vec) (m : R) : np_min v = Ok m -> In m v.
Proof.
  destruct v as [|a t]; [discriminate|]. simpl. intros H. inversion H.
  apply fold_left_Rmin_in.
Qed.

Lemma np_max_in (v : vec) (m : R) : np_max v = Ok m -> In m v.
Proof.
  destruct v as [|a t]; [discriminate|]. simpl. intros H. inversion H.
  apply fold_left_Rmax_in.
Qed.

Lemma column_length (j : nat) (x : ndarray) : length (column j x) = nrows x.
Proof. unfold column, nrows. apply length_map. Qed.

Lemma minmax_fit_entry (x : ndarray) (min_v max_v : vec) (j : nat) :
  _minmax_fit x = Ok (min_v, max_v) -> (j < ncols x)%nat ->
  np_min (column j x) = Ok (nth j min_v 0) /\ np_max (column j x) = Ok (nth j max_v 0).
Proof.
  unfold _minmax_fit. destruct (rows x) eqn:E; [discriminate|].
  intros H Hj. inv_bind H. inv_bind H. inversion H; subst; clear H.
  assert (Hs : nth_error (seq 0 (ncols x)) j = Some j).
  { rewrite (nth_error_nth' _ 0%nat) by (now rewrite length_seq).
    now rewrite seq_nth. }
  destruct (mapM_nth_error _ _ _ _ _ Ha Hs) as (lo & Hlo & Elo).
  destruct (mapM_nth_error _ _ _ _ _ Ha0 Hs) as (hi & Hhi & Ehi).
  rewrite (nth_error_nth _ _ 0 Elo), (nth_error_nth _ _ 0 Ehi). now split.
Qed.

(** X3.  [_minmax_fit] fails, with a value error, exactly on a matrix
    without rows.  Otherwise it returns one minimum and one maximum per
    column; each is an entry of its column, and every entry of the column
    lies between them. *)
Theorem minmax_fit_spec (x : ndarray) :
  (rows x = [] -> _minmax_fit x = Err ValueError)
  /\ (rows x <> [] ->
      exists min_v max_v,
        _minmax_fit x = Ok (min_v, max_v)
        /\ length min_v = ncols x /\ length max_v = ncols x
        /\ forall j, (j < ncols x)%nat ->
             In (nth j min_v 0) (column j x)
             /\ In (nth j max_v 0) (column j x)
             /\ Forall (fun a => nth j min_v 0 <= a <= nth j max_v 0) (column j x)).
Proof.
  split.
  - intros H. unfold _minmax_fit. now rewrite H.
  - intros Hne.
    assert (Hcol : forall j, column j x <> []).
    { intros j Hc. apply (f_equal (@length R)) in Hc. rewrite column_length in Hc.
      unfold nrows in Hc. destruct (rows x); [congruence | discriminate]. }
    destruct (mapM_total (fun j => np_min (column j x)) (seq 0 (ncols x)))
      as (min_v & Hmin); [intros j _; now apply np_min_nonempty|].
    destruct (mapM_total (fun j => np_max (column j x)) (seq 0 (ncols x)))
      as (max_v & Hmax); [intros j _; now apply np_max_nonempty|].
    assert (Hfit : _minmax_fit x = Ok (min_v, max_v)).
    { unfold _minmax_fit. destruct (rows x); [congruence|].
      rewrite Hmin. simpl. rewrite Hmax. reflexivity. }
    exists min_v, max_v. split; [exact Hfit|].
    destruct (minmax_fit_lengths _ _ _ Hfit) as (L1 & L2 & _).
    split; [exact L1|]. split; [exact L2|].
    intros j Hj. destruct (minmax_fit_entry _ _ _ j Hfit Hj) as (E1 & E2).
    split; [now apply np_min_in|]. split; [now apply np_max_in|].
    now apply minmax_fit_bounds.
Qed.

(** X4.  Min-max standardization of a matrix with the parameters fitted
    on that same matrix puts every entry in [0, 1], and every column
    contains a 0 and a 1. *)
Theorem minmax_training_range (x z : ndarray) (min_v max_v : vec) :
  well_shaped x ->
  _minmax_fit x = Ok (min_v, max_v) ->
  _minmax_transform x min_v max_v = Ok z ->
  same_shape x z
  /\ (forall i j, (i < nrows x)%nat -> (j < ncols x)%nat -> 0 <= entry z i j <= 1)
  /\ (forall j, (j < ncols x)%nat ->
        exists i0 i1, (i0 < nrows x)%nat /\ (i1 < nrows x)%nat
                      /\ entry z i0 j = 0 /\ entry z i1 j = 1).
Proof.
  intros Hx Hfit Ht.
  destruct (minmax_fit_lengths _ _ _ Hfit) as (Lmin & Lmax & _).
  destruct (transform_entries_minmax_aux x z min_v max_v Hx Lmin Lmax Ht)
    as (Hnd & Hs & He).
  split; [exact Hs|].
  assert (Hb : forall i j, (i < nrows x)%nat -> (j < ncols x)%nat ->
                 nth j min_v 0 <= entry x i j <= nth j max_v 0).
  { intros i j Hi Hj. pose proof (minmax_fit_bounds _ _ _ j Hfit Hj) as B.
    rewrite Forall_forall in B. apply B. unfold column, entry.
    apply in_map_iff. exists (nth i (rows x) []). split; [reflexivity|].
    now apply nth_In. }
  assert (Hin : forall j a, In a (column j x) ->
                  exists i, (i < nrows x)%nat /\ entry x i j = a).
  { intros j a Ha. unfold column in Ha. apply in_map_iff in Ha.
    destruct Ha as (r & Hr & Hin). destruct (In_nth _ _ [] Hin) as (i & Hi & Ei).
    exists i. split; [exact Hi|]. subst r. exact Hr. }
  split.
  - intros i j Hi Hj. rewrite (He i j Hi Hj).
    specialize (Hb i j Hi Hj). specialize (Hnd j Hj).
    assert (Hpos : 0 < nth j max_v 0 - nth j min_v 0) by lra.
    split.
    + apply Rmult_le_pos; [lra|]. left. now apply Rinv_0_lt_compat.
    + apply (Rmult_le_reg_r (nth j max_v 0 - nth j min_v 0)); [assumption|].
      unfold Rdiv. rewrite Rmult_assoc, Rinv_l by lra. lra.
  - intros j Hj. destruct (minmax_fit_entry _ _ _ j Hfit Hj) as (E1 & E2).
    destruct (Hin j _ (np_min_in _ _ E1)) as (i0 & Hi0 & Ei0).
    destruct (Hin j _ (np_max_in _ _ E2)) as (i1 & Hi1 & Ei1).
    specialize (Hnd j Hj).
    exists i0, i1. repeat split; try assumption.
    + rewrite (He i0 j Hi0 Hj), Ei0. field. lra.
    + rewrite (He i1 j Hi1 Hj), Ei1. field. lra.
Qed.

Lemma minmax_training_range_witness :
  well_shaped sample_x
  /\ _minmax_fit sample_x = Ok ([10; 1], [30; 3])
  /\ _minmax_transform sample_x [10; 1] [30; 3] = Ok sample_z
  /\ forall i j, (i < nrows sample_x)%nat -> (j < ncols sample_x)%nat ->
                 0 <= entry sample_z i j <= 1.
Proof.
  assert (Hx : well_shaped sample_x) by (repeat constructor).
  split; [exact Hx|]. split; [exact sample_fit|]. split; [exact sample_transform|].
  exact (proj1 (proj2 (minmax_training_range sample_x sample_z _ _ Hx sample_fit
                         sample_transform))).
Defined.

(** ** Columns and their entries *)

Lemma column_nth (x : ndarray) (i j : nat) :
  (i < nrows x)%nat -> nth i (column j x) 0 = entry x i j.
Proof.
  intros Hi. unfold column, entry.
  rewrite (nth_indep _ 0 (nth j [] 0)) by (now rewrite length_map).
  apply (map_nth (fun r => nth j r 0)).
Qed.

Lemma column_of_entries (f : R -> R) (x z : ndarray) (j : nat) :
  nrows z = nrows x ->
  (forall i, (i < nrows x)%nat -> entry z i j = f (entry x i j)) ->
  column j z = map f (column j x).
Proof.
  intros Hn H. apply list_ext_nth.
  - now rewrite length_map, !column_length.
  - intros i Hi. rewrite column_length in Hi.
    rewrite column_nth by assumption.
    rewrite nth_map_in by (rewrite column_length; lia).
    rewrite column_nth by lia. apply H. lia.
Qed.

Lemma zscore_fit_entry (x : ndarray) (mean sd : vec) (j : nat) :
  _zscore_fit x = Ok (mean, sd) -> (j < ncols x)%nat ->
  nth j mean 0 = col_mean x j /\ nth j sd 0 = col_std x j.
Proof.
  unfold _zscore_fit. destruct (Nat.ltb (nrows x) 2); [discriminate|].
  intros H Hj. inversion H; subst. now rewrite !nth_seq_map.
Qed.

Lemma INR_rows_gt_1 (n : nat) : (2 <= n)%nat -> 1 < INR n.
Proof. intros H. replace 1 with (INR 1) by reflexivity. apply lt_INR. lia. Qed.

(** The z-score parameters of [sample_x] and what they standardize it
    to. *)
Lemma sample_zscore_fit : _zscore_fit sample_x = Ok ([20; 2], [10; 1]).
Proof.
  unfold _zscore_fit. simpl Nat.ltb. cbv iota.
  assert (M0 : col_mean sample_x 0 = 20) by (unfold col_mean; simpl; lra).
  assert (M1 : col_mean sample_x 1 = 2) by (unfold col_mean; simpl; lra).
  assert (S0 : col_std sample_x 0 = 10).
  { unfold col_std. rewrite M0. simpl. unfold Rsqr.
    replace ((10 - 20) * (10 - 20) + ((20 - 20) * (20 - 20) + ((30 - 20) * (30 - 20) + 0)))
      with (200) by lra.
    replace (200 / (1 + 1 + 1 - 1)) with (10 * 10) by lra.
    apply sqrt_square. lra. }
  assert (S1 : col_std sample_x 1 = 1).
  { unfold col_std. rewrite M1. simpl. unfold Rsqr.
    replace ((1 - 2) * (1 - 2) + ((2 - 2) * (2 - 2) + ((3 - 2) * (3 - 2) + 0)))
      with (2) by lra.
    replace (2 / (1 + 1 + 1 - 1)) with (1 * 1) by lra.
    apply sqrt_square. lra. }
  cbn [ncols sample_x seq map]. now rewrite M0, M1, S0, S1.
Qed.

Lemma sample_zscore_transform :
  _zscore_transform sample_x [20; 2] [10; 1] = Ok correlated_z.
Proof.
  unfold _zscore_transform. eval_engine. decide_reals. eval_engine.
  unfold correlated_z. struct_eq.
Qed.

(** ** Constant columns *)

Lemma vsum_all_equal (c : vec) (v : R) :
  (forall a, In a c -> a = v) -> vsum c = INR (length c) * v.
Proof.
  induction c as [|a c IH]; intros H; [simpl; ring|].
  cbn [vsum length]. rewrite S_INR, IH by (intros; apply H; now right).
  rewrite (H a (or_introl eq_refl)). ring.
Qed.

Lemma vsum_map_zero (f : R -> R) (c : vec) :
  (forall a, In a c -> f a = 0) -> vsum (map f c) = 0.
Proof.
  induction c as [|a c IH]; intros H; simpl; [reflexivity|].
  rewrite IH by (intros; apply H; now right).
  rewrite (H a (or_introl eq_refl)). ring.
Qed.

Lemma minmax_equal_iff_constant (x : ndarray) (min_v max_v : vec) (j : nat) :
  _minmax_fit x = Ok (min_v, max_v) -> (j < ncols x)%nat ->
  (nth j max_v 0 = nth j min_v 0 <-> constant_column j x).
Proof.
  intros Hfit Hj. destruct (minmax_fit_entry _ _ _ j Hfit Hj) as (E1 & E2).
  pose proof (minmax_fit_bounds _ _ _ j Hfit Hj) as Hb. rewrite Forall_forall in Hb.
  split.
  - intros Heq a b Ha Hb'. destruct (Hb a Ha), (Hb b Hb'). lra.
  - intros Hc. apply Hc; [now apply np_max_in | now apply np_min_in].
Qed.

(** X6.  Min-max standardization of a matrix with the parameters fitted
    on it raises the degenerate-column error exactly when some column
    holds one single value throughout. *)
Theorem standardization_fails_on_constant_column (x : ndarray)
        (min_v max_v : vec) :
  well_shaped x ->
  _minmax_fit x = Ok (min_v, max_v) ->
  (_minmax_transform x min_v max_v = Err (ComputeError DegenerateColumnMinMax)
   <-> exists j, (j < ncols x)%nat /\ constant_column j x).
Proof.
  intros Hx Hfit.
  destruct (minmax_fit_lengths _ _ _ Hfit) as (Lmin & Lmax & _). split.
  - intros H.
    destruct (minmax_degenerate_dec min_v max_v (ncols x) Lmin Lmax)
      as [(j & Hj & E)|Hnd].
    + exists j. split; [exact Hj|].
      now apply (minmax_equal_iff_constant x min_v max_v j Hfit Hj).
    + rewrite (minmax_transform_ok x min_v max_v Hx Lmin Lmax Hnd) in H.
      discriminate.
  - intros (j & Hj & Hc). apply minmax_transform_degenerate; [congruence|].
    exists j. split; [lia|].
    now apply (minmax_equal_iff_constant x min_v max_v j Hfit Hj).
Qed.

Lemma constant_x_fit : _minmax_fit constant_x = Ok ([1; 5], [2; 5]).
Proof.
  unfold _minmax_fit. eval_engine.
  rewrite !Rmin_left by lra. rewrite !Rmax_right by lra. reflexivity.
Qed.

Lemma constant_x_column : constant_column 1 constant_x.
Proof.
  intros a b Ha Hb. simpl in Ha, Hb.
  destruct Ha as [<-|[<-|[]]]; destruct Hb as [<-|[<-|[]]]; reflexivity.
Qed.

Lemma standardization_fails_on_constant_column_witness :
  well_shaped constant_x
  /\ _minmax_fit constant_x = Ok ([1; 5], [2; 5])
  /\ _minmax_transform constant_x [1; 5] [2; 5]
     = Err (ComputeError DegenerateColumnMinMax).
Proof.
  assert (Hx : well_shaped constant_x) by (repeat constructor).
  split; [exact Hx|]. split; [exact constant_x_fit|].
  apply (standardization_fails_on_constant_column constant_x _ _ Hx constant_x_fit).
  exists 1%nat. split; [simpl; lia | exact constant_x_column].
Defined.

(** ** Training on a constant column *)

Lemma minmax_fit_total (x : ndarray) :
  rows x <> [] -> exists min_v max_v, _minmax_fit x = Ok (min_v, max_v).
Proof.
  intros Hne.
  assert (Hcol : forall j, column j x <> []).
  { intros j Hc. apply (f_equal (@length R)) in Hc. rewrite column_length in Hc.
    unfold nrows in Hc. destruct (rows x); [congruence | discriminate]. }
  destruct (mapM_total (fun j => np_min (column j x)) (seq 0 (ncols x)))
    as (min_v & Hmin); [intros j _; now apply np_min_nonempty|].
  destruct (mapM_total (fun j => np_max (column j x)) (seq 0 (ncols x)))
    as (max_v & Hmax); [intros j _; now apply np_max_nonempty|].
  exists min_v, max_v. unfold _minmax_fit. destruct (rows x); [congruence|].
  rewrite Hmin. simpl. rewrite Hmax. reflexivity.
Qed.

Lemma direction_keeps_constant (x x' : ndarray) (directions : list Direction)
      (j : nat) :
  well_shaped x -> _apply_direction x directions = Ok x' ->
  constant_column j x -> constant_column j x'.
Proof.
  intros Hx H Hc. unfold _apply_direction in H.
  destruct (apply_direction_from_spec _ _ _ _ Hx H) as (Hs & He).
  assert (Hr : nrows x' = nrows x) by (unfold same_shape in Hs; intuition congruence).
  set (f := fun a : R => match nth_error directions (j - 0) with
                         | Some negative => - a
                         | _ => a
                         end).
  assert (Hcol : column j x' = map f (column j x)).
  { apply column_of_entries; [assumption|]. intros i Hi.
    rewrite (He i j Hi). unfold f. simpl.
    destruct (nth_error directions (j - 0)) as [[|]|]; reflexivity. }
  intros a b Ha Hb. rewrite Hcol in Ha, Hb.
  apply in_map_iff in Ha, Hb.
  destruct Ha as (a0 & <- & Ha0). destruct Hb as (b0 & <- & Hb0).
  now rewrite (Hc a0 b0 Ha0 Hb0).
Qed.

Section ConstantColumn.

Variable eigh : ndarray -> vec * ndarray.
Variable eig : ndarray -> list complex * list (list complex).
Variables (id created name : string) (keys : list string).
Variable indicators : list IndicatorRecord.
Variable x_train : ndarray.
Variable directions : list Direction.
Variable ds : list string.
Variable thr : R.
Variable j : nat.

Hypothesis rectangular : well_shaped x_train.
Hypothesis flags_fit :
  forall i, nth_error directions i = Some negative -> (i < ncols x_train)%nat.
Hypothesis in_range : (j < ncols x_train)%nat.
Hypothesis constant : constant_column j x_train.

Lemma constant_after_direction :
  exists x, _apply_direction x_train directions = Ok x
            /\ well_shaped x /\ ncols x = ncols x_train /\ nrows x = nrows x_train
            /\ constant_column j x.
Proof.
  destruct (apply_direction_from_ok directions 0 x_train) as (x & Hx);
    [intros i Hi; simpl; now apply flags_fit|].
  exists x. split; [exact Hx|].
  destruct (apply_direction_from_spec _ _ _ _ rectangular Hx) as ((Hc & Hr & Hw) & _).
  split; [exact Hw|]. split; [now symmetry|]. split; [now symmetry|].
  exact (direction_keeps_constant x_train x directions j rectangular Hx constant).
Qed.

Lemma train_constant_minmax (ahp_matrix : option (list (list R))) :
  rows x_train <> [] ->
  train_weight_model eigh eig id created entropy name keys indicators x_train
                     directions ds ahp_matrix thr
  = Err (ComputeError DegenerateColumnMinMax).
Proof.
  intros Hne. destruct constant_after_direction as (x & Hx & Hw & Hc & Hr & Hconst).
  assert (Hne' : rows x <> []).
  { unfold nrows in Hr. destruct (rows x); [|discriminate].
    destruct (rows x_train); [congruence | discriminate]. }
  destruct (minmax_fit_total x Hne') as (min_v & max_v & Hfit).
  destruct (minmax_fit_lengths _ _ _ Hfit) as (Lmin & Lmax & _).
  assert (Ht : _minmax_transform x min_v max_v
               = Err (ComputeError DegenerateColumnMinMax)).
  { apply minmax_transform_degenerate; [congruence|].
    exists j. split; [lia|].
    apply (minmax_equal_iff_constant x min_v max_v j Hfit); [lia | assumption]. }
  unfold train_weight_model, train_fit. rewrite Hx. cbn [bind].
  rewrite Hfit. cbn [bind]. rewrite Ht. reflexivity.
Qed.

End ConstantColumn.

(** X7.  Training by the entropy method on a matrix one of whose columns
    holds a single value throughout never yields a model: it raises the
    min-max degenerate-column error. *)
Theorem train_rejects_constant_column
        (eigh : ndarray -> vec * ndarray)
        (eig : ndarray -> list complex * list (list complex))
        (id created name : string) (keys : list string)
        (indicators : list IndicatorRecord) (x_train : ndarray)
        (directions : list Direction) (ds : list string)
        (ahp_matrix : option (list (list R))) (thr : R) (j : nat) :
  well_shaped x_train ->
  rows x_train <> [] ->
  (forall i, nth_error directions i = Some negative -> (i < ncols x_train)%nat) ->
  (j < ncols x_train)%nat ->
  constant_column j x_train ->
  train_weight_model eigh eig id created entropy name keys indicators x_train
                     directions ds ahp_matrix thr
  = Err (ComputeError DegenerateColumnMinMax).
Proof.
  intros Hw Hne Hflags Hj Hc.
  now apply train_constant_minmax with (j := j).
Qed.

Lemma train_rejects_constant_column_witness :
  well_shaped constant_x
  /\ constant_column 1 constant_x
  /\ train_weight_model correlated_eigh consistent_eig "id" "now" entropy "m"
                        ["x1"; "x2"]%string [] constant_x [positive; positive]
                        [] None 0.85
     = Err (ComputeError DegenerateColumnMinMax).
Proof.
  assert (Hx : well_shaped constant_x) by (repeat constructor).
  split; [exact Hx|]. split; [exact constant_x_column|].
  refine (train_rejects_constant_column _ _ _ _ _ _ _ constant_x
            [positive; positive] _ None _ 1%nat Hx _ _ _ constant_x_column).
  - discriminate.
  - intros [|[|i]] Hi; simpl in Hi; try discriminate. destruct i; discriminate.
  - simpl. lia.
Defined.

(** ** The training sample on the 0-100 scale *)

Lemma scale_0_100_bounded (values : vec) (vmin vmax : R) :
  Forall (fun t => vmin <= t <= vmax) values ->
  Forall (fun t => 0 <= t <= 100) (scale_0_100 values vmin vmax).
Proof.
  intros H. unfold scale_0_100. destruct (Reqb (vmax - vmin) 0) eqn:E.
  - apply Forall_map. apply Forall_forall. intros; lra.
  - apply Reqb_false in E. apply Forall_map.
    eapply Forall_impl; [|exact H]. intros t (Hlo & Hhi). cbv beta.
    assert (Hd : 0 < vmax - vmin) by lra.
    assert (H0 : 0 <= (t - vmin) / (vmax - vmin)).
    { apply Rmult_le_pos; [lra|]. left. now apply Rinv_0_lt_compat. }
    assert (H1 : (t - vmin) / (vmax - vmin) <= 1).
    { apply Rmult_le_reg_r with (vmax - vmin); [exact Hd|].
      unfold Rdiv. rewrite Rmult_assoc, Rinv_l by lra. lra. }
    lra.
Qed.

Lemma np_min_max_bounds (v : vec) (lo hi : R) :
  np_min v = Ok lo -> np_max v = Ok hi -> Forall (fun t => lo <= t <= hi) v.
Proof.
  intros Hlo Hhi. apply Forall_forall. intros t Ht.
  pose proof (np_min_le _ _ Hlo) as A. pose proof (np_max_ge _ _ Hhi) as B.
  rewrite Forall_forall in A, B. split; [now apply A | now apply B].
Qed.

Lemma mapM_pairs_get {A B : Type} (f : A -> res B) (d : dict A) :
  forall pairs,
    mapM (fun gv : string * A => b <- f (snd gv) ;; Ok (fst gv, b)) d = Ok pairs ->
    map fst pairs = dict_keys d
    /\ forall g u, dict_get g d = Some u ->
                   exists b, f u = Ok b /\ dict_get g pairs = Some b.
Proof.
  induction d as [|[k a] d IH]; intros pairs H; simpl in H.
  - inversion H; subst. split; [reflexivity|]. intros g u Hg. discriminate.
  - destruct (f a) as [b|e] eqn:Ef; simpl in H; [|discriminate].
    destruct (mapM (fun gv : string * A => b <- f (snd gv) ;; Ok (fst gv, b)) d)
      as [ps|e] eqn:Em; simpl in H; [|discriminate].
    inversion H; subst. destruct (IH _ eq_refl) as (Hk & Hget).
    split; [simpl; now f_equal|].
    intros g u Hg. simpl in Hg |- *. destruct (String.eqb g k).
    + inversion Hg; subst. eauto.
    + now apply Hget.
Qed.

Lemma dict_mapM_get {A B : Type} (f : A -> res B) (d : dict A) (r : dict B)
      (g : string) (u : A) :
  NoDup (dict_keys d) -> dict_mapM f d = Ok r -> dict_get g d = Some u ->
  exists b, f u = Ok b /\ dict_get g r = Some b.
Proof.
  intros Hnd H Hg. unfold dict_mapM in H. inv_bind H. inversion H; subst.
  destruct (mapM_pairs_get f d _ Ha) as (Hk & Hget).
  rewrite dict_of_pairs_nodup by (rewrite Hk; exact Hnd). now apply Hget.
Qed.

Lemma sub_index_loop_source (smin smax : dict R) (ss : dict vec) (g : string) :
  forall acc out,
    sub_index_loop smin smax ss acc = Ok out ->
    In g (dict_keys out) -> In g (dict_keys ss) \/ In g (dict_keys acc).
Proof.
  induction ss as [|[k v] ss IH]; intros acc out H Hin; simpl in H.
  - inversion H; subst. now right.
  - inv_bind H. inv_bind H.
    destruct (IH _ _ H Hin) as [Hs | Ha1].
    + left. simpl. now right.
    + destruct (String.eqb_spec g k) as [-> | Hne].
      * left. simpl. now left.
      * right. apply dict_get_in_keys in Ha1. destruct Ha1 as (v0 & Hv0).
        rewrite dict_get_set_other in Hv0 by exact Hne.
        apply dict_get_in_keys. eauto.
Qed.

(** X8.  With pairwise distinct keys and at least two training rows,
    applying a trained record to its own training matrix puts every row on
    the 0-100 scale for good: the stored [scoreMin] and [scoreMax] are the
    smallest and the largest training score, so the overall index and
    every sub-index lie between 0 and 100. *)
Theorem training_index_within_0_100
        (eigh : ndarray -> vec * ndarray)
        (eig : ndarray -> list complex * list (list complex))
        (id created : string) (method : WeightMethod) (name : string)
        (keys : list string) (indicators : list IndicatorRecord)
        (x_train : ndarray) (directions : list Direction) (ds : list string)
        (ahp_matrix : option (list (list R))) (thr : R) (model : WeightModelRecord) :
  NoDup keys ->
  (2 <= nrows x_train)%nat ->
  train_weight_model eigh eig id created method name keys indicators x_train
                     directions ds ahp_matrix thr = Ok model ->
  exists z score_raw sub_scores sub_index index sc lo hi,
    apply_weight_model_locals model indicators x_train directions
    = Ok (z, score_raw, sub_scores, sub_index, index)
    /\ scaling model = Some sc
    /\ scoreMin sc = Some lo /\ scoreMax sc = Some hi
    /\ In lo score_raw /\ In hi score_raw
    /\ Forall (fun t => lo <= t <= hi) score_raw
    /\ Forall (fun t => 0 <= t <= 100) index
    /\ forall g v, dict_get g sub_index = Some v ->
                   Forall (fun t => 0 <= t <= 100) v.
Proof.
  intros Hnd _ Htrain.
  destruct (roundtrip_distinct_keys _ _ _ _ _ _ _ _ _ _ _ _ _ _ Hnd Htrain)
    as (z & score_raw & sub_scores & sub_index & Hts & Happly).
  destruct (train_weight_model_inv _ _ _ _ _ _ _ _ _ _ _ _ _ _ Htrain)
    as (x & z' & w_vec & std & pinfo & ainfo & score_raw' & sub_scores'
        & lo & hi & sub_lo & sub_hi
        & Hx & Hfit & Hw & Hcs & Hlo & Hhi & Hslo & Hshi & Hkeys & _ & Hstd & Hsc).
  assert (E : (z', score_raw', sub_scores') = (z, score_raw, sub_scores)).
  { unfold train_scores in Hts. rewrite Hx in Hts. simpl in Hts.
    rewrite Hfit in Hts. simpl in Hts. rewrite Hw in Hts. simpl in Hts.
    rewrite Hcs in Hts. simpl in Hts. congruence. }
  inversion E; subst z' score_raw' sub_scores'. clear E.
  unfold apply_weight_model in Happly.
  apply bind_ok in Happly.
  destruct Happly as ([[[[z1 sr1] ss1] si1] index] & Hloc & Happly).
  simpl in Happly. inversion Happly; subst z1 sr1 ss1 si1. clear Happly.
  pose proof Hloc as Hloc'.
  unfold apply_weight_model_locals in Hloc'.
  apply bind_ok in Hloc'. destruct Hloc' as (z1 & Hz & Hloc').
  apply bind_ok in Hloc'. destruct Hloc' as ([sr1 ss1] & Hcs1 & Hloc').
  apply bind_ok in Hloc'. destruct Hloc' as (dmin & Hmin1 & Hloc').
  apply bind_ok in Hloc'. destruct Hloc' as (dmax & Hmax1 & Hloc').
  apply bind_ok in Hloc'. destruct Hloc' as (si1 & Hsi & Hloc').
  inversion Hloc'; subst z1 sr1 ss1 si1. clear Hloc'.
  match goal with H : scale_0_100 _ _ _ = index |- _ => rename H into Hidx end.
  unfold scaling_or_empty in Hsi, Hidx. rewrite Hsc in Hsi, Hidx.
  simpl in Hsi, Hidx.
  pose proof (np_min_max_bounds _ _ _ Hlo Hhi) as Hb.
  exists z, score_raw, sub_scores, sub_index, index,
    {| scoreMin := Some lo; scoreMax := Some hi;
       subScoreMin := Some sub_lo; subScoreMax := Some sub_hi |}, lo, hi.
  split; [exact Hloc|]. split; [exact Hsc|]. split; [reflexivity|].
  split; [reflexivity|]. split; [eapply np_min_in; eassumption|].
  split; [eapply np_max_in; eassumption|]. split; [exact Hb|].
  split.
  - rewrite <- Hidx. now apply scale_0_100_bounded.
  - intros g v Hg.
    pose proof (compute_scores_nodup _ _ _ _ _ _ Hcs) as Hnds.
    assert (Hin : In g (dict_keys sub_scores)).
    { destruct (sub_index_loop_source _ _ _ g _ _ Hsi) as [Hs | []]; [|exact Hs].
      apply dict_get_in_keys. eauto. }
    apply dict_get_in_keys in Hin. destruct Hin as (u & Hu).
    destruct (sub_index_loop_lookup _ _ _ _ _ g u Hsi Hnds Hu)
      as (gmin & gmax & Hgmin & Hgmax & Hout).
    rewrite Hg in Hout. inversion Hout; subst v.
    destruct (dict_mapM_get np_min sub_scores sub_lo g u Hnds Hslo Hu)
      as (b1 & Hb1 & Hg1).
    destruct (dict_mapM_get np_max sub_scores sub_hi g u Hnds Hshi Hu)
      as (b2 & Hb2 & Hg2).
    unfold dict_get_default. rewrite Hg1, Hg2.
    apply scale_0_100_bounded. now apply np_min_max_bounds.
Qed.

Lemma training_index_within_0_100_witness :
  NoDup ["x1"; "x2"]%string /\ (2 <= nrows sample_x)%nat
  /\ exists model index,
       train_weight_model correlated_eigh consistent_eig "id" "now" entropy "m"
                          ["x1"; "x2"]%string [] sample_x [positive; positive]
                          [] None 0.85 = Ok model
       /\ (exists z score_raw sub_scores sub_index,
              apply_weight_model_locals model [] sample_x [positive; positive]
              = Ok (z, score_raw, sub_scores, sub_index, index))
       /\ Forall (fun t => 0 <= t <= 100) index.
Proof.
  assert (Hn : (2 <= nrows sample_x)%nat) by (unfold nrows, sample_x; simpl; lia).
  split; [exact two_keys_distinct|]. split; [exact Hn|].
  destruct (sample_train correlated_eigh consistent_eig "id" "now" "m" "x1" "x2"
              [] [] None 0.85 ltac:(discriminate))
    as (model & ss & sub_lo & sub_hi & Htrain & _).
  destruct (training_index_within_0_100 _ _ _ _ _ _ _ _ _ _ _ _ _ _
              two_keys_distinct Hn Htrain)
    as (z & sr & ss' & si & index & sc & lo & hi & Hloc & _ & _ & _ & _ & _ & _ & Hidx & _).
  exists model, index. split; [exact Htrain|]. split; [|exact Hidx].
  exists z, sr, ss', si. exact Hloc.
Defined.

(** ** Applying a trained record to new rows *)

Lemma minmax_transform_nondegenerate (x z : ndarray) (min_v max_v : vec) :
  length min_v = length max_v ->
  _minmax_transform x min_v max_v = Ok z ->
  forall j, (j < length max_v)%nat -> nth j max_v 0 <> nth j min_v 0.
Proof.
  intros Hlen H.
  destruct (minmax_degenerate_dec min_v max_v (length max_v) Hlen eq_refl)
    as [Hd | Hok]; [|exact Hok].
  rewrite (minmax_transform_degenerate x min_v max_v Hlen Hd) in H. discriminate.
Qed.

Lemma zscore_transform_nondegenerate (x z : ndarray) (mean std : vec) :
  _zscore_transform x mean std = Ok z ->
  forall j, (j < length std)%nat -> nth j std 0 <> 0.
Proof.
  intros H. destruct (zscore_degenerate_dec std) as [Hd | Hok]; [|exact Hok].
  rewrite (zscore_transform_degenerate x mean std Hd) in H. discriminate.
Qed.

Lemma compute_scores_total (z : ndarray) (keys : list string)
      (indicators : list IndicatorRecord) (ws : dict R) (w : vec) :
  mapM (fun k => dict_lookup k ws) keys = Ok w ->
  ncols z = length keys ->
  exists score_raw sub_scores,
    compute_scores z keys indicators ws = Ok (score_raw, sub_scores)
    /\ length score_raw = nrows z
    /\ Forall (fun v => length v = nrows z) (dict_values sub_scores).
Proof.
  intros Hw Hc. unfold compute_scores. rewrite Hw. cbn [bind].
  unfold matvec. rewrite (mapM_length _ _ _ Hw), Hc, Nat.eqb_refl. cbn [bind].
  destruct (sub_scores_loop_total z w (group_indices keys indicators)
              (@nil (string * vec))) as (ss & Hss & Hlen); [constructor|].
  rewrite Hss. cbn [bind]. do 2 eexists. split; [reflexivity|].
  split; [|exact Hlen]. unfold nrows. now rewrite length_map.
Qed.

Lemma apply_after_standardize (model : WeightModelRecord)
      (indicators : list IndicatorRecord) (x z : ndarray)
      (directions : list Direction) (w : vec) :
  apply_standardize model x directions = Ok z ->
  rows z <> [] ->
  ncols z = length (indicatorKeys model) ->
  mapM (fun k => dict_lookup k (weights model)) (indicatorKeys model) = Ok w ->
  exists score_raw sub_scores sub_index,
    apply_weight_model model indicators x directions
    = Ok (z, score_raw, sub_scores, sub_index)
    /\ length score_raw = nrows z.
Proof.
  intros Hz Hne Hc Hw.
  destruct (compute_scores_total z _ indicators _ w Hw Hc)
    as (sr & ss & Hcs & Lsr & Lss).
  assert (Hn : nrows z <> 0%nat).
  { unfold nrows. destruct (rows z); [congruence | discriminate]. }
  assert (Hsr : sr <> []) by (intros ->; simpl in Lsr; lia).
  destruct (np_min_nonempty sr Hsr) as (lo & Hlo).
  destruct (np_max_nonempty sr Hsr) as (hi & Hhi).
  assert (Hss : Forall (fun v : vec => v <> []) (dict_values ss)).
  { eapply Forall_impl; [|exact Lss]. intros v Hv ->. simpl in Hv. lia. }
  destruct (dict_mapM_nonempty np_min ss np_min_nonempty Hss) as (sub_lo & Hslo).
  destruct (dict_mapM_nonempty np_max ss np_max_nonempty Hss) as (sub_hi & Hshi).
  unfold dict_mapM in Hslo, Hshi.
  apply bind_ok in Hslo. destruct Hslo as (los & Hlos & _).
  apply bind_ok in Hshi. destruct Hshi as (his & Hhis & _).
  destruct (sub_index_loop_total
              (dict_or_empty (subScoreMin (scaling_or_empty model)))
              (dict_or_empty (subScoreMax (scaling_or_empty model)))
              ss _ _ Hlos Hhis []) as (si & Hsi).
  exists sr, ss, si. split; [|exact Lsr].
  unfold apply_weight_model, apply_weight_model_locals.
  rewrite Hz. cbn [bind]. rewrite Hcs. cbn [bind]. rewrite Hlo. cbn [bind].
  rewrite Hhi. cbn [bind]. rewrite Hsi. reflexivity.
Qed.

Lemma transform_keeps_rows (f : R -> R -> R) (x y : ndarray) (v : vec) :
  mat_bcast f x v = Ok y -> nrows y = nrows x.
Proof.
  unfold mat_bcast. intros H. apply bind_ok in H. destruct H as (c & _ & H).
  inversion H; subst. unfold nrows. simpl. now rewrite length_map.
Qed.

(** X9.  A record trained with pairwise distinct keys can be applied to
    any other rectangular matrix that has at least one row and as many
    columns as there are keys, once the directions fit it: the call
    succeeds, for whatever indicator list is passed. *)
Theorem trained_model_applies_to_new_rows
        (eigh : ndarray -> vec * ndarray)
        (eig : ndarray -> list complex * list (list complex))
        (id created : string) (method : WeightMethod) (name : string)
        (keys : list string) (indicators indicators' : list IndicatorRecord)
        (x_train x : ndarray) (directions directions' : list Direction)
        (ds : list string) (ahp_matrix : option (list (list R))) (thr : R)
        (model : WeightModelRecord) :
  NoDup keys ->
  train_weight_model eigh eig id created method name keys indicators x_train
                     directions ds ahp_matrix thr = Ok model ->
  well_shaped x -> rows x <> [] -> ncols x = length keys ->
  (forall i, nth_error directions' i = Some negative -> (i < ncols x)%nat) ->
  length keys = ncols x_train
  /\ exists z score_raw sub_scores sub_index,
       apply_weight_model model indicators' x directions'
       = Ok (z, score_raw, sub_scores, sub_index)
       /\ nrows z = nrows x /\ ncols z = ncols x
       /\ length score_raw = nrows x.
Proof.
  intros Hnd Htrain Hx Hne Hcols Hdirs.
  destruct (train_weight_model_inv _ _ _ _ _ _ _ _ _ _ _ _ _ _ Htrain)
    as (x0 & z0 & w_vec & std & pinfo & ainfo & sr0 & ss0 & lo & hi & sub_lo & sub_hi
        & Hx0 & Hfit & Hw & Hcs & _ & _ & _ & _ & Hkeys & _ & Hstd & _).
  pose proof (compute_scores_shape _ _ _ _ _ _ Hcs) as Hshape.
  destruct (keyed_read_back keys w_vec _ Hnd Hw) as (_ & Hwl & Rw).
  destruct (apply_direction_from_ok directions' 0 x) as (x2 & Hx2);
    [intros i Hi; simpl; now apply Hdirs|].
  pose proof (apply_direction_well_shaped _ _ _ _ Hx Hx2) as Wx2.
  pose proof (apply_direction_ncols _ _ _ _ Hx2) as Cx2.
  pose proof (apply_direction_ncols _ _ _ _ Hx0) as Cx0.
  assert (Rx2 : nrows x2 = nrows x).
  { destruct (apply_direction_from_spec _ _ _ _ Hx Hx2) as ((_ & Hr & _) & _).
    now symmetry. }
  change (_apply_direction x directions' = Ok x2) in Hx2.
  assert (Hz : length keys = ncols x_train
               /\ exists z, apply_standardize model x directions' = Ok z
                            /\ nrows z = nrows x /\ ncols z = ncols x).
  { destruct (train_fit_inv _ _ _ _ _ _ _ _ _ _ _ _ Hfit)
      as [(min_v & max_v & smin & smax & _ & Hf & Ht & _ & Kmin & Kmax & Es)
         |(mean & sd & smean & sstd & Hf & Ht & Kmean & Ksd & Es & _)].
    - destruct (minmax_fit_lengths _ _ _ Hf) as (L1 & L2 & _).
      pose proof (minmax_transform_ncols _ _ _ _ L1 L2 Ht) as Hc.
      assert (Lk : length keys = ncols x0) by congruence.
      split; [congruence|].
      destruct (keyed_read_back keys min_v _ Hnd Kmin) as (_ & _ & Ra).
      destruct (keyed_read_back keys max_v _ Hnd Kmax) as (_ & _ & Rb).
      rewrite firstn_all2 in Ra by lia. rewrite firstn_all2 in Rb by lia.
      assert (Hnz : forall j, (j < ncols x2)%nat -> nth j max_v 0 <> nth j min_v 0).
      { intros j Hj.
        apply (minmax_transform_nondegenerate x0 z0 min_v max_v); [congruence | exact Ht | lia]. }
      pose proof (minmax_transform_ok x2 min_v max_v Wx2 ltac:(lia) ltac:(lia) Hnz)
        as Hok.
      eexists. split; [|split].
      + unfold apply_standardize. rewrite Hx2. cbn [bind].
        rewrite Hstd, Es, Hkeys. rewrite Ra. cbn [bind]. rewrite Rb. cbn [bind].
        exact Hok.
      + unfold nrows. simpl. rewrite length_map. exact Rx2.
      + simpl. exact Cx2.
    - destruct (zscore_fit_lengths _ _ _ Hf) as (L1 & L2 & _).
      pose proof (zscore_transform_ncols _ _ _ _ L1 L2 Ht) as Hc.
      assert (Lk : length keys = ncols x0) by congruence.
      split; [congruence|].
      destruct (keyed_read_back keys mean _ Hnd Kmean) as (_ & _ & Ra).
      destruct (keyed_read_back keys sd _ Hnd Ksd) as (_ & _ & Rb).
      rewrite firstn_all2 in Ra by lia. rewrite firstn_all2 in Rb by lia.
      assert (Hnz : forall j, (j < ncols x2)%nat -> nth j sd 0 <> 0).
      { intros j Hj.
        apply (zscore_transform_nondegenerate x0 z0 mean sd Ht). lia. }
      pose proof (zscore_transform_ok x2 mean sd Wx2 ltac:(lia) ltac:(lia) Hnz)
        as Hok.
      eexists. split; [|split].
      + unfold apply_standardize. rewrite Hx2. cbn [bind].
        rewrite Hstd, Es, Hkeys. rewrite Ra. cbn [bind]. rewrite Rb. cbn [bind].
        exact Hok.
      + unfold nrows. simpl. rewrite length_map. exact Rx2.
      + simpl. exact Cx2. }
  destruct Hz as (Hlen & z & Hz & Rz & Cz). split; [exact Hlen|].
  assert (Hnez : rows z <> []).
  { unfold nrows in Rz. destruct (rows z); [|discriminate].
    destruct (rows x); [congruence | discriminate]. }
  rewrite <- Hkeys in Rw.
  destruct (apply_after_standardize model indicators' x z directions' _ Hz Hnez
              ltac:(rewrite Hkeys; congruence) Rw) as (sr & ss & si & Happ & Lsr).
  exists z, sr, ss, si. split; [exact Happ|]. split; [exact Rz|].
  split; [exact Cz | congruence].
Qed.

Lemma trained_model_applies_to_new_rows_witness :
  NoDup ["x1"; "x2"]%string /\ well_shaped new_x
  /\ exists model z score_raw sub_scores sub_index,
       train_weight_model correlated_eigh consistent_eig "id" "now" entropy "m"
                          ["x1"; "x2"]%string [] sample_x [positive; positive]
                          [] None 0.85 = Ok model
       /\ apply_weight_model model [ind_a] new_x [positive; negative]
          = Ok (z, score_raw, sub_scores, sub_index).
Proof.
  assert (Hx : well_shaped new_x) by (repeat constructor).
  split; [exact two_keys_distinct|]. split; [exact Hx|].
  destruct (sample_train correlated_eigh consistent_eig "id" "now" "m" "x1" "x2"
              [] [] None 0.85 ltac:(discriminate))
    as (model & ss & sub_lo & sub_hi & Htrain & _).
  destruct (trained_model_applies_to_new_rows _ _ _ _ _ _ _ _ [ind_a] _ new_x _
              [positive; negative] _ _ _ _ two_keys_distinct Htrain Hx)
    as (_ & z & sr & ss' & si & Happ & _).
  - discriminate.
  - reflexivity.
  - intros [|[|i]] Hi; simpl in Hi; try discriminate; [simpl; lia|].
    destruct i; discriminate.
  - exists model, z, sr, ss', si. split; [exact Htrain | exact Happ].
Defined.

(** ** A matrix without rows *)

Lemma apply_direction_nrows (directions : list Direction) :
  forall j x x', apply_direction_from j directions x = Ok x' -> nrows x' = nrows x.
Proof.
  induction directions as [|[|] ds IH]; intros j x x' H; simpl in H.
  - now inversion H.
  - eapply IH; eassumption.
  - apply bind_ok in H. destruct H as (x1 & H1 & H).
    rewrite (IH _ _ _ H). eapply negate_column_nrows; eassumption.
Qed.

Lemma apply_standardize_nrows (model : WeightModelRecord) (x z : ndarray)
      (directions : list Direction) :
  apply_standardize model x directions = Ok z -> nrows z = nrows x.
Proof.
  unfold apply_standardize. intros H.
  apply bind_ok in H. destruct H as (x2 & Hx2 & H).
  pose proof (apply_direction_nrows _ _ _ _ Hx2) as R2.
  destruct (standardization model) as [smin smax | smean sstd | kind];
    [| |discriminate].
  - apply bind_ok in H. destruct H as (min_v & _ & H).
    apply bind_ok in H. destruct H as (max_v & _ & H).
    unfold _minmax_transform in H.
    apply bind_ok in H. destruct H as (denom & _ & H).
    destruct (existsb _ denom); [discriminate|].
    apply bind_ok in H. destruct H as (num & Hnum & H).
    rewrite (transform_keeps_rows _ _ _ _ H), (transform_keeps_rows _ _ _ _ Hnum).
    exact R2.
  - apply bind_ok in H. destruct H as (mean & _ & H).
    apply bind_ok in H. destruct H as (s & _ & H).
    unfold _zscore_transform in H.
    destruct (existsb _ s); [discriminate|].
    apply bind_ok in H. destruct H as (num & Hnum & H).
    rewrite (transform_keeps_rows _ _ _ _ H), (transform_keeps_rows _ _ _ _ Hnum).
    exact R2.
Qed.

Lemma compute_scores_length (z : ndarray) (keys : list string)
      (indicators : list IndicatorRecord) (ws : dict R)
      (score_raw : vec) (sub_scores : dict vec) :
  compute_scores z keys indicators ws = Ok (score_raw, sub_scores) ->
  length score_raw = nrows z.
Proof.
  unfold compute_scores. intros H.
  apply bind_ok in H. destruct H as (w & _ & H).
  apply bind_ok in H. destruct H as (sr & Hsr & H).
  apply bind_ok in H. destruct H as (ss & _ & H). inversion H; subst.
  unfold matvec in Hsr. destruct (Nat.eqb _ _); [|discriminate].
  inversion Hsr; subst. unfold nrows. now rewrite length_map.
Qed.

(** X10.  Applying a record to a matrix without rows never returns a
    result, whatever the record holds: even when the standardization and
    the scores go through, the fallback [np.min(score_raw)] is evaluated
    before [scoreMin] is looked up and raises [ValueError] on the empty
    score vector.  Training by the entropy method fails on such a matrix as
    well. *)
Theorem no_rows_never_scored (model : WeightModelRecord)
        (indicators : list IndicatorRecord) (x : ndarray)
        (directions : list Direction) :
  rows x = [] ->
  (exists e, apply_weight_model model indicators x directions = Err e)
  /\ (forall z score_raw sub_scores,
         apply_standardize model x directions = Ok z ->
         compute_scores z (indicatorKeys model) indicators (weights model)
         = Ok (score_raw, sub_scores) ->
         apply_weight_model model indicators x directions = Err ValueError)
  /\ (forall eigh eig id created name keys ds ahp_matrix thr,
         exists e,
           train_weight_model eigh eig id created entropy name keys indicators x
                              directions ds ahp_matrix thr = Err e).
Proof.
  intros Hx.
  assert (Hlate : forall z score_raw sub_scores,
             apply_standardize model x directions = Ok z ->
             compute_scores z (indicatorKeys model) indicators (weights model)
             = Ok (score_raw, sub_scores) ->
             apply_weight_model model indicators x directions = Err ValueError).
  { intros z sr ss Hz Hcs.
    pose proof (apply_standardize_nrows _ _ _ _ Hz) as Rz.
    pose proof (compute_scores_length _ _ _ _ _ _ Hcs) as Lsr.
    unfold nrows in Rz. rewrite Hx in Rz. simpl in Rz.
    assert (sr = []) by (destruct sr; [reflexivity | simpl in Lsr; unfold nrows in Lsr; lia]).
    subst sr.
    unfold apply_weight_model, apply_weight_model_locals.
    rewrite Hz. cbn [bind]. rewrite Hcs. reflexivity. }
  split; [|split; [exact Hlate|]].
  - destruct (apply_standardize model x directions) as [z|e] eqn:Hz.
    + destruct (compute_scores z (indicatorKeys model) indicators (weights model))
        as [[sr ss]|e] eqn:Hcs.
      * exists ValueError. exact (Hlate z sr ss eq_refl Hcs).
      * exists e. unfold apply_weight_model, apply_weight_model_locals.
        rewrite Hz. cbn [bind]. rewrite Hcs. reflexivity.
    + exists e. unfold apply_weight_model, apply_weight_model_locals.
      rewrite Hz. reflexivity.
  - intros eigh eig id created name keys ds ahp_matrix thr.
    unfold train_weight_model.
    destruct (_apply_direction x directions) as [x1|e] eqn:Hx1; [|eexists; reflexivity].
    pose proof (apply_direction_nrows _ _ _ _ Hx1) as R1.
    unfold nrows in R1. rewrite Hx in R1. simpl in R1.
    assert (E : rows x1 = []) by (destruct (rows x1); [reflexivity | discriminate]).
    exists ValueError. cbn [bind]. unfold train_fit, _minmax_fit. rewrite E.
    reflexivity.
Qed.

Lemma no_rows_never_scored_witness :
  rows empty_matrix = []
  /\ exists e, apply_weight_model dup_model [] empty_matrix [] = Err e.
Proof.
  split; [reflexivity|].
  exact (proj1 (no_rows_never_scored dup_model [] empty_matrix [] eq_refl)).
Defined.

(** ** Dimension weights, group by group *)

Lemma dict_get_default_set {V : Type} (k k0 : string) (v dflt : V) (d : dict V) :
  dict_get_default k dflt (dict_set k0 v d)
  = if String.eqb k0 k then v else dict_get_default k dflt d.
Proof.
  unfold dict_get_default. destruct (String.eqb_spec k0 k) as [-> | Hne].
  - now rewrite dict_get_set_same.
  - rewrite dict_get_set_other by congruence. reflexivity.
Qed.

Lemma dict_set_keys_iff {V : Type} (k k0 : string) (v : V) (d : dict V) :
  In k (dict_keys (dict_set k0 v d)) <-> k = k0 \/ In k (dict_keys d).
Proof.
  rewrite !dict_get_in_keys. destruct (String.eqb_spec k k0) as [-> | Hne].
  - rewrite dict_get_set_same. split; eauto.
  - rewrite dict_get_set_other by exact Hne. split; [now right|].
    intros [E | H]; [contradiction | exact H].
Qed.

Lemma build_dimension2_weights_fold (ws : dict R) (g : string)
      (indicators : list IndicatorRecord) :
  forall dim,
    let out :=
      fold_left
        (fun dim ind =>
           dict_set (dimension2_of ind)
             (dict_get_default (dimension2_of ind) 0 dim
              + dict_get_default (ind_key ind) 0 ws) dim)
        indicators dim in
    dict_get_default g 0 out
    = dict_get_default g 0 dim
      + vsum (map (fun ind => dict_get_default (ind_key ind) 0 ws)
                  (indicators_of_group g indicators))
    /\ (In g (dict_keys out)
        <-> In g (dict_keys dim)
            \/ exists ind, In ind indicators /\ dimension2_of ind = g)
    /\ (NoDup (dict_keys dim) -> NoDup (dict_keys out)).
Proof.
  induction indicators as [|ind inds IH]; intros dim; cbn zeta.
  - simpl. split; [lra|]. split; [|tauto].
    split; [now left|]. intros [H | (ind & [] & _)]. exact H.
  - simpl fold_left.
    destruct (IH (dict_set (dimension2_of ind)
                    (dict_get_default (dimension2_of ind) 0 dim
                     + dict_get_default (ind_key ind) 0 ws) dim))
      as (Hv & Hk & Hn).
    cbn zeta in Hv, Hk, Hn. split; [|split].
    + rewrite Hv, dict_get_default_set. unfold indicators_of_group. simpl.
      destruct (String.eqb_spec (dimension2_of ind) g) as [-> | Hne]; simpl; lra.
    + rewrite Hk, dict_set_keys_iff. split.
      * intros [[-> | H] | (i & Hi & Hg)]; [right | now left | right].
        -- exists ind. split; [now left | reflexivity].
        -- exists i. split; [now right | exact Hg].
      * intros [H | (i & [<- | Hi] & Hg)].
        -- left. now right.
        -- left. left. now symmetry.
        -- right. exists i. now split.
    + intros Hd. apply Hn. now apply dict_set_nodup.
Qed.

(** X11.  [build_dimension2_weights] gives every dimension the sum of the
    weights of its indicators, an indicator without an entry in [weights]
    counting 0 and one with an empty [dimension2Key] counting under
    ["default"]; the dimensions of the result are exactly those of the
    indicators, each one once. *)
Theorem build_dimension2_weights_by_group (indicators : list IndicatorRecord)
        (weights : dict R) (g : string) :
  dict_get_default g 0 (build_dimension2_weights indicators weights)
  = vsum (map (fun ind => dict_get_default (ind_key ind) 0 weights)
              (indicators_of_group g indicators))
  /\ (In g (dict_keys (build_dimension2_weights indicators weights))
      <-> exists ind, In ind indicators /\ dimension2_of ind = g)
  /\ NoDup (dict_keys (build_dimension2_weights indicators weights)).
Proof.
  unfold build_dimension2_weights.
  destruct (build_dimension2_weights_fold weights g indicators []) as (Hv & Hk & Hn).
  cbn zeta in Hv, Hk, Hn. split; [|split].
  - rewrite Hv. unfold dict_get_default. simpl. lra.
  - rewrite Hk. simpl. split; [intros [[] | H]; exact H | now right].
  - apply Hn. constructor.
Qed.

(** ** Sub-scores, group by group *)

Lemma vsum_app (a b : vec) : vsum (a ++ b) = vsum a + vsum b.
Proof. induction a as [|x a IH]; simpl; [lra | rewrite IH; lra]. Qed.

Lemma dims_append_get (g g0 : string) (idx : nat) (dims : dict (list nat)) :
  dict_get_default g [] (dims_append g0 idx dims)
  = if String.eqb g0 g then dict_get_default g [] dims ++ [idx]
    else dict_get_default g [] dims.
Proof.
  unfold dims_append. rewrite dict_get_default_set.
  destruct (String.eqb_spec g0 g) as [-> | Hne]; reflexivity.
Qed.

Lemma dims_append_total (f : nat -> R) (g : string) (idx : nat)
      (dims : dict (list nat)) :
  vsum (map (fun gi : string * list nat => vsum (map f (snd gi)))
            (dims_append g idx dims))
  = vsum (map (fun gi : string * list nat => vsum (map f (snd gi))) dims) + f idx.
Proof.
  unfold dims_append.
  induction dims as [|[k v] t IH]; unfold dict_get_default in *; simpl.
  - lra.
  - destruct (String.eqb g k) eqn:E; simpl.
    + rewrite map_app, vsum_app. simpl. lra.
    + rewrite IH. lra.
Qed.

Lemma dims_append_nodup (g : string) (idx : nat) (dims : dict (list nat)) :
  NoDup (dict_keys dims) -> NoDup (dict_keys (dims_append g idx dims)).
Proof. apply dict_set_nodup. Qed.

Lemma group_indices_nodup (indicator_keys : list string)
      (indicators : list IndicatorRecord) :
  NoDup (dict_keys (group_indices indicator_keys indicators)).
Proof.
  unfold group_indices.
  generalize (combine (seq 0 (length indicator_keys)) indicator_keys).
  assert (G : forall (l : list (nat * string)) acc,
             NoDup (dict_keys acc) ->
             NoDup (dict_keys
                      (fold_left
                         (fun dims ik =>
                            dims_append
                              (dict_get_default (snd ik) "default"%string
                                 (dict_of_pairs
                                    (map (fun i => (ind_key i, dimension2_of i))
                                         indicators)))
                              (fst ik) dims) l acc))).
  { induction l as [|ik l IH]; intros acc Hacc; simpl; [exact Hacc|].
    apply IH. now apply dims_append_nodup. }
  intros l. apply G. constructor.
Qed.

Lemma combine_seq_fst (f : nat -> R) (keys : list string) :
  forall s,
    map (fun ik : nat * string => f (fst ik)) (combine (seq s (length keys)) keys)
    = map f (seq s (length keys)).
Proof.
  induction keys as [|k keys IH]; intros s; simpl; [reflexivity|].
  now rewrite IH.
Qed.

(** The index lists of the groups split the column indices: a sum over all
    columns is the sum of the sums over the groups. *)
Lemma group_indices_total (f : nat -> R) (indicator_keys : list string)
      (indicators : list IndicatorRecord) :
  vsum (map (fun gi : string * list nat => vsum (map f (snd gi)))
            (group_indices indicator_keys indicators))
  = vsum (map f (seq 0 (length indicator_keys))).
Proof.
  unfold group_indices. rewrite <- (combine_seq_fst f indicator_keys 0).
  generalize (combine (seq 0 (length indicator_keys)) indicator_keys).
  assert (G : forall (l : list (nat * string)) acc,
             vsum (map (fun gi : string * list nat => vsum (map f (snd gi)))
                       (fold_left
                          (fun dims ik =>
                             dims_append
                               (dict_get_default (snd ik) "default"%string
                                  (dict_of_pairs
                                     (map (fun i => (ind_key i, dimension2_of i))
                                          indicators)))
                               (fst ik) dims) l acc))
             = vsum (map (fun gi : string * list nat => vsum (map f (snd gi))) acc)
               + vsum (map (fun ik : nat * string => f (fst ik)) l)).
  { induction l as [|ik l IH]; intros acc; simpl; [lra|].
    rewrite IH, dims_append_total. lra. }
  intros l. rewrite G. simpl. lra.
Qed.

Lemma dot_as_sum (r w : vec) :
  length r = length w ->
  dot r w = vsum (map (fun j => nth j r 0 * nth j w 0) (seq 0 (length w))).
Proof.
  unfold dot. revert w. induction r as [|a r IH]; intros [|b w] H;
    simpl in H; try discriminate; [reflexivity|].
  simpl length. simpl seq. simpl. rewrite IH by lia.
  rewrite <- seq_shift, map_map. reflexivity.
Qed.

Lemma dot_take_indices (r w : vec) (idxs : list nat) (s : R) :
  dot (take_indices r idxs) (map (fun a => a / s) (take_indices w idxs))
  = vsum (map (fun j => nth j r 0 * (nth j w 0 / s)) idxs).
Proof.
  unfold dot, take_indices. f_equal.
  induction idxs as [|j idxs IH]; simpl; [reflexivity | now rewrite IH].
Qed.

Lemma vsum_map_scale (f : nat -> R) (s : R) (l : list nat) :
  vsum (map (fun j => s * f j) l) = s * vsum (map f l).
Proof. induction l as [|j l IH]; simpl; [lra | rewrite IH; lra]. Qed.

Lemma sub_scores_loop_keeps (z : ndarray) (w : vec) (dims : dict (list nat))
      (g : string) :
  forall acc out,
    sub_scores_loop z w dims acc = Ok out ->
    ~ In g (dict_keys dims) -> dict_get g out = dict_get g acc.
Proof.
  induction dims as [|[k idxs] dims IH]; intros acc out H Hg; simpl in H.
  - now inversion H.
  - simpl in Hg. destruct (Rleb _ 0).
    + apply IH; [exact H | tauto].
    + apply bind_ok in H. destruct H as (v & _ & H).
      rewrite (IH _ _ H) by tauto. apply dict_get_set_other. intros ->. tauto.
Qed.

Lemma sub_scores_loop_lookup (z : ndarray) (w : vec) (dims : dict (list nat))
      (g : string) (idxs : list nat) :
  forall acc out,
    sub_scores_loop z w dims acc = Ok out ->
    NoDup (dict_keys dims) -> In (g, idxs) dims ->
    (vsum (take_indices w idxs) <= 0 -> dict_get g out = dict_get g acc)
    /\ (0 < vsum (take_indices w idxs) ->
        dict_get g out
        = Some (map (fun r => vsum (map (fun j => nth j r 0
                                                  * (nth j w 0 / vsum (take_indices w idxs)))
                                        idxs))
                    (rows z))).
Proof.
  induction dims as [|[k ix] dims IH]; intros acc out H Hnd Hin; simpl in H.
  - destruct Hin.
  - simpl in Hnd. inversion Hnd as [|? ? Hk Hnd']; subst.
    destruct Hin as [E | Hin].
    + inversion E; subst k ix. clear E.
      destruct (Rleb (vsum (take_indices w idxs)) 0) eqn:Ew.
      * apply Rleb_true in Ew. split; [|intros; lra].
        intros _. now apply (sub_scores_loop_keeps z w dims g).
      * apply Rleb_false in Ew. split; [intros; lra|]. intros _.
        apply bind_ok in H. destruct H as (v & Hv & H).
        rewrite (sub_scores_loop_keeps z w dims g _ _ H Hk), dict_get_set_same.
        unfold matvec in Hv. destruct (Nat.eqb _ _); [|discriminate].
        inversion Hv; subst v. f_equal. cbn [rows take_columns].
        rewrite map_map. apply map_ext. intros r. apply dot_take_indices.
    + assert (Hne : g <> k).
      { intros ->. apply Hk. apply in_map_iff. exists (k, idxs). now split. }
      destruct (Rleb (vsum (take_indices w ix)) 0).
      * now apply IH.
      * apply bind_ok in H. destruct H as (v & _ & H).
        destruct (IH _ _ H Hnd' Hin) as (A & B).
        rewrite dict_get_set_other in A by exact Hne. now split.
Qed.

(** X12.  The sub-score loop of [compute_scores]: a group of columns whose
    weights add up to a positive sum gets, in every row, the average of
    its standardized entries weighted by the weights divided by that sum;
    a group whose weights add up to 0 or less gets no sub-score at all. *)
Theorem sub_scores_by_group (z : ndarray) (indicator_keys : list string)
        (indicators : list IndicatorRecord) (weights : dict R)
        (score_raw : vec) (sub_scores : dict vec) :
  compute_scores z indicator_keys indicators weights = Ok (score_raw, sub_scores) ->
  exists w,
    mapM (fun k => dict_lookup k weights) indicator_keys = Ok w
    /\ forall g idxs,
         In (g, idxs) (group_indices indicator_keys indicators) ->
         (vsum (take_indices w idxs) <= 0 -> dict_get g sub_scores = None)
         /\ (0 < vsum (take_indices w idxs) ->
             dict_get g sub_scores
             = Some (map (fun r =>
                            vsum (map (fun j => nth j r 0
                                                * (nth j w 0 / vsum (take_indices w idxs)))
                                      idxs))
                         (rows z))).
Proof.
  unfold compute_scores. intros H.
  apply bind_ok in H. destruct H as (w & Hw & H).
  apply bind_ok in H. destruct H as (sr & Hsr & H).
  apply bind_ok in H. destruct H as (ss & Hss & H). inversion H; subst sr ss.
  exists w. split; [exact Hw|]. intros g idxs Hin.
  exact (sub_scores_loop_lookup z w _ g idxs _ _ Hss
           (group_indices_nodup indicator_keys indicators) Hin).
Qed.

Lemma sub_scores_by_group_witness :
  exists sub_scores w,
    compute_scores sample_z ["x1"; "x2"]%string []
                   [("x1", 1 / 2); ("x2", 1 / 2)]%string
    = Ok ([0; 1 / 2; 1], sub_scores)
    /\ mapM (fun k => dict_lookup k [("x1", 1 / 2); ("x2", 1 / 2)]%string)
            ["x1"; "x2"]%string = Ok w
    /\ forall g idxs,
         In (g, idxs) (group_indices ["x1"; "x2"]%string []) ->
         vsum (take_indices w idxs) <= 0 -> dict_get g sub_scores = None.
Proof.
  destruct (sample_compute_scores "x1" "x2" [] ltac:(discriminate))
    as (ss & Hcs & _).
  destruct (sub_scores_by_group _ _ _ _ _ _ Hcs) as (w & Hw & Hg).
  exists ss, w. split; [exact Hcs|]. split; [exact Hw|].
  intros g idxs Hin. exact (proj1 (Hg g idxs Hin)).
Defined.

(** ** The raw score as a sum over the groups *)

Lemma mapM_lookup_forall (P : R -> Prop) (ws : dict R) (keys : list string) :
  forall w,
    mapM (fun k => dict_lookup k ws) keys = Ok w ->
    Forall P (dict_values ws) -> Forall P w.
Proof.
  induction keys as [|k keys IH]; intros w H HP; simpl in H.
  - inversion H. constructor.
  - apply bind_ok in H. destruct H as (a & Ha & H).
    apply bind_ok in H. destruct H as (t & Ht & H). inversion H; subst w.
    constructor; [|now apply IH].
    unfold dict_lookup in Ha. destruct (dict_get k ws) as [v|] eqn:E; [|discriminate].
    inversion Ha; subst a.
    pose proof (dict_get_default_forall P k v ws) as D.
    unfold dict_get_default in D. rewrite E in D. apply D; [|exact HP].
    clear - E HP. induction ws as [|[k' v'] ws IH]; simpl in E; [discriminate|].
    inversion HP; subst. destruct (String.eqb k k'); [now inversion E; subst | auto].
Qed.

Lemma nth_nonneg (w : vec) (j : nat) :
  Forall (fun t => 0 <= t) w -> 0 <= nth j w 0.
Proof.
  intros H. destruct (Nat.lt_ge_cases j (length w)) as [Hj | Hj].
  - rewrite Forall_forall in H. apply H. now apply nth_In.
  - rewrite nth_overflow by exact Hj. lra.
Qed.

(** X13.  With non-negative weights the raw score of every row is the sum,
    over the groups of columns, of the group's weight (the sum of the
    weights of its columns) times the group's sub-score for that row; a
    group without a sub-score has weight 0 and adds nothing. *)
Theorem score_is_sum_over_groups (z : ndarray) (indicator_keys : list string)
        (indicators : list IndicatorRecord) (weights : dict R)
        (score_raw : vec) (sub_scores : dict vec) :
  well_shaped z ->
  Forall (fun t => 0 <= t) (dict_values weights) ->
  compute_scores z indicator_keys indicators weights = Ok (score_raw, sub_scores) ->
  exists w,
    mapM (fun k => dict_lookup k weights) indicator_keys = Ok w
    /\ forall i, (i < nrows z)%nat ->
         nth i score_raw 0
         = vsum (map (fun gi : string * list nat =>
                        vsum (take_indices w (snd gi))
                        * nth i (dict_get_default (fst gi) [] sub_scores) 0)
                     (group_indices indicator_keys indicators)).
Proof.
  intros Hz Hpos Hcs.
  pose proof (compute_scores_shape _ _ _ _ _ _ Hcs) as Hshape.
  pose proof Hcs as Hcs'. unfold compute_scores in Hcs'.
  apply bind_ok in Hcs'. destruct Hcs' as (w & Hw & Hcs').
  apply bind_ok in Hcs'. destruct Hcs' as (sr & Hsr & Hcs').
  apply bind_ok in Hcs'. destruct Hcs' as (ss & Hss & Hcs').
  inversion Hcs'; subst sr ss. clear Hcs'.
  exists w. split; [exact Hw|]. intros i Hi.
  pose proof (mapM_length _ _ _ Hw) as Lw.
  pose proof (mapM_lookup_forall _ _ _ _ Hw Hpos) as Wpos.
  unfold matvec in Hsr. destruct (Nat.eqb _ _); [|discriminate].
  inversion Hsr; subst score_raw. clear Hsr.
  set (r := nth i (rows z) []).
  assert (Lr : length r = length w).
  { assert (In r (rows z)) by (apply nth_In; exact Hi).
    unfold well_shaped in Hz. rewrite Forall_forall in Hz.
    rewrite (Hz r H). congruence. }
  change 0 with (dot [] w) at 1. rewrite (map_nth (fun r => dot r w)).
  fold r. rewrite (dot_as_sum r w Lr), Lw.
  rewrite <- (group_indices_total (fun j => nth j r 0 * nth j w 0)
                indicator_keys indicators).
  f_equal. apply map_ext_in. intros [g idxs] Hin. cbn [fst snd].
  destruct (sub_scores_loop_lookup z w _ g idxs _ _ Hss
              (group_indices_nodup indicator_keys indicators) Hin) as (Hskip & Hkeep).
  destruct (Rle_or_lt (vsum (take_indices w idxs)) 0) as [Hle | Hlt].
  - assert (Hall : Forall (fun t => 0 <= t) (take_indices w idxs)).
    { unfold take_indices. apply Forall_map. apply Forall_forall.
      intros j _. now apply nth_nonneg. }
    pose proof (vsum_nonneg _ Hall) as Hge.
    assert (Hz0 : vsum (take_indices w idxs) = 0) by lra.
    pose proof (vsum_zero_all_zero _ Hall Hz0) as Hzero.
    rewrite Hz0, Rmult_0_l.
    assert (E : map (fun j => nth j r 0 * nth j w 0) idxs = map (fun _ => 0) idxs).
    { apply map_ext_in. intros j Hj.
      unfold take_indices in Hzero. rewrite Forall_map, Forall_forall in Hzero.
      rewrite (Hzero j Hj). lra. }
    rewrite E.
    assert (Z : forall l : list nat, vsum (map (fun _ => 0) l) = 0)
      by (induction l as [|? ? IH]; simpl; [reflexivity | rewrite IH; lra]).
    rewrite Z. reflexivity.
  - pose proof (Hkeep Hlt) as Hk. unfold dict_get_default. unfold vec in *.
    rewrite Hk.
    set (F := fun r0 : list R =>
                vsum (map (fun j => nth j r0 0
                                    * (nth j w 0 / vsum (take_indices w idxs)))
                          idxs)).
    rewrite (nth_indep (map F (rows z)) 0 (F []))
      by (rewrite length_map; exact Hi).
    rewrite map_nth. fold r. unfold F.
    rewrite <- vsum_map_scale. f_equal. apply map_ext. intros j.
    field. lra.
Qed.

Lemma score_is_sum_over_groups_witness :
  well_shaped sample_z
  /\ exists sub_scores w,
       compute_scores sample_z ["x1"; "x2"]%string [ind_a]
                      [("x1", 1 / 2); ("x2", 1 / 2)]%string
       = Ok ([0; 1 / 2; 1], sub_scores)
       /\ mapM (fun k => dict_lookup k [("x1", 1 / 2); ("x2", 1 / 2)]%string)
               ["x1"; "x2"]%string = Ok w
       /\ nth 2 [0; 1 / 2; 1] 0
          = vsum (map (fun gi : string * list nat =>
                         vsum (take_indices w (snd gi))
                         * nth 2 (dict_get_default (fst gi) [] sub_scores) 0)
                      (group_indices ["x1"; "x2"]%string [ind_a])).
Proof.
  assert (Hz : well_shaped sample_z) by (repeat constructor).
  split; [exact Hz|].
  destruct (sample_compute_scores "x1" "x2" [ind_a] ltac:(discriminate))
    as (ss & Hcs & _).
  assert (Hpos : Forall (fun t => 0 <= t)
                        (dict_values [("x1", 1 / 2); ("x2", 1 / 2)]%string))
    by (simpl; constructor; [lra|]; constructor; [lra|]; constructor).
  destruct (score_is_sum_over_groups _ _ _ _ _ _ Hz Hpos Hcs) as (w & Hw & Hsum).
  exists ss, w. split; [exact Hcs|]. split; [exact Hw|].
  apply Hsum. unfold nrows, sample_z. simpl. lia.
Defined.

(** ** Which columns form a group *)

Lemma key_to_dim_last (indicators : list IndicatorRecord) (k : string) :
  dict_get_default k "default"%string
    (dict_of_pairs (map (fun i => (ind_key i, dimension2_of i)) indicators))
  = dimension_of_key indicators k.
Proof.
  unfold dimension_of_key.
  induction indicators as [|i inds IH] using rev_ind; [reflexivity|].
  rewrite map_app. simpl map. rewrite dict_of_pairs_snoc, dict_get_default_set.
  rewrite rev_app_distr. simpl. destruct (String.eqb (ind_key i) k); [reflexivity|].
  exact IH.
Qed.

Lemma combine_seq_in (keys : list string) (j : nat) (k : string) :
  forall s,
    In (j, k) (combine (seq s (length keys)) keys)
    <-> (s <= j)%nat /\ nth_error keys (j - s) = Some k.
Proof.
  induction keys as [|k0 keys IH]; intros s; simpl.
  - split; [tauto|]. intros (_ & H). destruct (j - s)%nat; discriminate.
  - rewrite IH. split.
    + intros [E | (Hs & Hn)].
      * inversion E; subst. rewrite Nat.sub_diag. simpl. split; [lia | reflexivity].
      * split; [lia|]. replace (j - s)%nat with (S (j - S s)) by lia. exact Hn.
    + intros (Hs & Hn). destruct (Nat.eq_dec s j) as [-> | Hne].
      * left. rewrite Nat.sub_diag in Hn. simpl in Hn. congruence.
      * right. split; [lia|].
        replace (j - s)%nat with (S (j - S s)) in Hn by lia. exact Hn.
Qed.

(** Column [j] is listed under [g] exactly when its key is filed under
    [g]. *)
Lemma group_indices_members (indicator_keys : list string)
        (indicators : list IndicatorRecord) (g : string) (j : nat) :
  In j (dict_get_default g [] (group_indices indicator_keys indicators))
  <-> exists k, nth_error indicator_keys j = Some k
                /\ dimension_of_key indicators k = g.
Proof.
  unfold group_indices.
  assert (G : forall (l : list (nat * string)) acc,
             In j (dict_get_default g []
                     (fold_left
                        (fun dims ik =>
                           dims_append
                             (dict_get_default (snd ik) "default"%string
                                (dict_of_pairs
                                   (map (fun i => (ind_key i, dimension2_of i))
                                        indicators)))
                             (fst ik) dims) l acc))
             <-> In j (dict_get_default g [] acc)
                 \/ exists k, In (j, k) l /\ dimension_of_key indicators k = g).
  { induction l as [|[idx k0] l IH]; intros acc; simpl.
    - split; [now left|]. intros [H | (k & [] & _)]. exact H.
    - rewrite IH, dims_append_get, key_to_dim_last. split.
      + intros [H | (k & Hin & Hg)].
        * destruct (String.eqb_spec (dimension_of_key indicators k0) g) as [E | E].
          -- apply in_app_iff in H. destruct H as [H | [<- | []]]; [now left|].
             right. exists k0. split; [now left | exact E].
          -- now left.
        * right. exists k. split; [now right | exact Hg].
      + intros [H | (k & [E | Hin] & Hg)].
        * left. destruct (String.eqb _ g); [apply in_app_iff; now left | exact H].
        * inversion E; subst idx k0. left.
          rewrite Hg, String.eqb_refl. apply in_app_iff. right. now left.
        * right. exists k. now split. }
  rewrite G. unfold dict_get_default at 1. simpl. split.
  - intros [[] | (k & Hin & Hg)]. exists k. split; [|exact Hg].
    apply combine_seq_in in Hin. destruct Hin as (_ & Hn).
    now rewrite Nat.sub_0_r in Hn.
  - intros (k & Hn & Hg). right. exists k. split; [|exact Hg].
    apply combine_seq_in. split; [lia|]. now rewrite Nat.sub_0_r.
Qed.

(** X14.  The groups of [compute_scores]: column [j] is listed under the
    dimension [g] exactly when the key of that column is filed under [g],
    that is when the last indicator record with this key has the
    dimension [g], or when no record has this key and [g] is
    ["default"]. *)
Theorem group_indices_spec (indicator_keys : list string)
        (indicators : list IndicatorRecord) (g : string) (j : nat) :
  In j (dict_get_default g [] (group_indices indicator_keys indicators))
  <-> exists k, nth_error indicator_keys j = Some k
                /\ dimension_of_key indicators k = g.
Proof.
  split; intros H.
  - now apply group_indices_members.
  - now apply group_indices_members in H.
Qed.

(** ** The entropy weight of a column of zeros *)

Lemma entropy_diversity_zero_column (c : vec) :
  (forall a, In a c -> a = 0) -> entropy_diversity c = 1.
Proof.
  intros H. unfold entropy_diversity.
  assert (Es : vsum c = 0) by (rewrite (vsum_all_equal c 0 H); ring).
  rewrite Es. replace (Reqb 0 0) with true by (symmetry; now apply Reqb_true).
  rewrite vsum_map_zero; [ring|].
  intros a Ha. rewrite (H a Ha). replace (0 / 1) with 0 by field. apply plogp_zero.
Qed.

Lemma ln_INR_pos (n : nat) : (2 <= n)%nat -> 0 < ln (INR n).
Proof.
  intros H. rewrite <- ln_1. apply ln_increasing; [lra|].
  now apply INR_rows_gt_1.
Qed.

(** X15.  A column of zeros under [_entropy_weights], on a rectangular
    non-negative matrix: it gets the diversity 1, hence a positive weight
    that no other column exceeds. *)
Theorem entropy_zero_column_weighs_most (z : ndarray) (w : vec) (j : nat) :
  well_shaped z -> nonnegative z -> (j < ncols z)%nat ->
  _entropy_weights z = Ok w ->
  (forall a, In a (column j z) -> a = 0) ->
  0 < nth j w 0 /\ forall j', (j' < ncols z)%nat -> nth j' w 0 <= nth j w 0.
Proof.
  intros Hz Hpos Hj Hw H0.
  destruct (entropy_weights_nonneg z w Hz Hpos Hw) as (Hd & _).
  rewrite (entropy_weights_columns z Hz) in Hw. cbn zeta in Hw.
  set (d := map (fun j => entropy_diversity (column j z)) (seq 0 (ncols z))) in *.
  destruct (Rleb (vsum d) 0) eqn:Et; [discriminate|].
  apply Rleb_false in Et. inversion Hw; subst w. clear Hw.
  assert (Ld : length d = ncols z) by (unfold d; now rewrite length_map, length_seq).
  assert (Hnth : forall i, (i < ncols z)%nat ->
                           nth i (map (fun dj => dj / vsum d) d) 0
                           = entropy_diversity (column i z) / vsum d).
  { intros i Hi. rewrite nth_map_in by lia. unfold d.
    now rewrite (nth_seq_map (fun j => entropy_diversity (column j z))). }
  assert (Hinv : 0 < / vsum d) by (apply Rinv_0_lt_compat; lra).
  rewrite (Hnth j Hj), (entropy_diversity_zero_column _ H0).
  split; [unfold Rdiv; lra|].
  intros j' Hj'. rewrite (Hnth j' Hj').
  assert (Hb : 0 <= entropy_diversity (column j' z) <= 1).
  { rewrite Forall_forall in Hd. apply Hd. unfold d.
    apply in_map_iff. exists j'. split; [reflexivity|]. apply in_seq. lia. }
  unfold Rdiv. apply Rmult_le_compat_r; lra.
Qed.

Lemma zero_column_entropy : _entropy_weights zero_column_z = Ok [1 / 2; 1 / 2].
Proof.
  unfold _entropy_weights. eval_engine. decide_reals. eval_engine. decide_reals.
  replace (1 / (0 + (1 + 0))) with 1 by lra. rewrite ln_1.
  decide_reals. struct_eq.
Qed.

Lemma entropy_zero_column_weighs_most_witness :
  well_shaped zero_column_z /\ nonnegative zero_column_z
  /\ _entropy_weights zero_column_z = Ok [1 / 2; 1 / 2]
  /\ 0 < nth 0 [1 / 2; 1 / 2] 0.
Proof.
  assert (Hz : well_shaped zero_column_z) by (repeat constructor).
  assert (Hp : nonnegative zero_column_z).
  { unfold nonnegative, zero_column_z. simpl.
    repeat (constructor; [repeat (constructor; [lra|]); constructor|]).
    constructor. }
  split; [exact Hz|]. split; [exact Hp|]. split; [exact zero_column_entropy|].
  refine (proj1 (entropy_zero_column_weighs_most zero_column_z _ 0%nat
                   Hz Hp _ zero_column_entropy _)).
  - simpl. lia.
  - intros a [<- | [<- | []]]; reflexivity.
Defined.

(** ** AHP consistency figures *)

Lemma ri_table_bounds (n : nat) : (3 <= n)%nat -> 0.58 <= ri_table n <= 1.59.
Proof.
  intros H.
  do 16 (destruct n as [|n]; [first [lia | simpl; lra]|]).
  simpl. lra.
Qed.

(** X16.  The consistency figures [_ahp_weights] returns for an [n x n]
    matrix.  CI is [(lambda_max - n) / (n - 1)], and 0 for a single
    indicator; CR is CI divided by the random index of the table, which
    lies between 0.58 and 1.59 from three indicators on (1.59 beyond the
    table), and CR is 0 for one or two indicators whatever [lambda_max]
    is.  When [lambda_max = n] both figures are 0, and when
    [lambda_max >= n] neither is negative. *)
Theorem ahp_consistency_figures
        (eig : ndarray -> list complex * list (list complex))
        (matrix : ndarray) (w : vec) (lambda_max ci cr : R) :
  _ahp_weights eig matrix = Ok (w, lambda_max, ci, cr) ->
  let n := nrows matrix in
  (1 <= n)%nat /\ ncols matrix = n
  /\ (n = 1%nat -> ci = 0 /\ cr = 0)
  /\ (n = 2%nat -> ci = lambda_max - 2 /\ cr = 0)
  /\ ((3 <= n)%nat ->
      ci = (lambda_max - INR n) / (INR n - 1)
      /\ 0.58 <= ri_table n <= 1.59 /\ cr = ci / ri_table n)
  /\ ((15 < n)%nat -> cr = ci / 1.59)
  /\ (lambda_max = INR n -> ci = 0 /\ cr = 0)
  /\ (INR n <= lambda_max -> 0 <= ci /\ 0 <= cr).
Proof.
  intros H n. unfold _ahp_weights in H. fold n in H.
  destruct (Nat.eqb n (ncols matrix)) eqn:Esq; simpl in H; [|discriminate].
  apply Nat.eqb_eq in Esq.
  destruct (Nat.ltb n 1) eqn:En; [discriminate|]. apply Nat.ltb_ge in En.
  destruct (eig matrix) as [eigvals eigvecs].
  apply bind_ok in H. destruct H as (idx & _ & H).
  apply bind_ok in H. destruct H as (lam & _ & H).
  apply bind_ok in H. destruct H as ([] & _ & H).
  destruct (Reqb _ 0); [discriminate|].
  inversion H; subst w lambda_max ci cr. clear H.
  split; [exact En|]. split; [now symmetry|].
  assert (Hci : forall m, (2 <= m)%nat -> 0 < INR m - 1).
  { intros m Hm. pose proof (INR_rows_gt_1 m Hm). lra. }
  split; [|split; [|split; [|split; [|split]]]].
  - intros E. rewrite E. simpl. split; [reflexivity|].
    replace (Reqb 0 0) with true by (symmetry; now apply Reqb_true). reflexivity.
  - intros E. rewrite E. simpl.
    replace (Reqb 0 0) with true by (symmetry; now apply Reqb_true).
    split; [field | reflexivity].
  - intros H3. pose proof (ri_table_bounds n H3) as Hri.
    replace (Nat.ltb 1 n) with true by (symmetry; apply Nat.ltb_lt; lia).
    replace (Reqb (ri_table n) 0) with false by (symmetry; apply Reqb_false; lra).
    split; [reflexivity|]. split; [exact Hri | reflexivity].
  - intros H15. pose proof (ri_table_bounds n ltac:(lia)) as Hri.
    replace (Nat.ltb 1 n) with true by (symmetry; apply Nat.ltb_lt; lia).
    replace (Reqb (ri_table n) 0) with false by (symmetry; apply Reqb_false; lra).
    f_equal. clear - H15. do 16 (destruct n as [|n]; [lia|]). reflexivity.
  - intros El. subst lam.
    assert (C : (if Nat.ltb 1 n then (INR n - INR n) / (INR n - 1) else 0) = 0).
    { destruct (Nat.ltb 1 n) eqn:E1; [|reflexivity].
      apply Nat.ltb_lt in E1. pose proof (Hci n ltac:(lia)). field. lra. }
    rewrite C. split; [reflexivity|].
    destruct (Reqb (ri_table n) 0); [reflexivity|]. unfold Rdiv. ring.
  - intros Hl.
    assert (C : 0 <= (if Nat.ltb 1 n then (lam - INR n) / (INR n - 1) else 0)).
    { destruct (Nat.ltb 1 n) eqn:E1; [|lra].
      apply Nat.ltb_lt in E1. pose proof (Hci n ltac:(lia)).
      apply Rmult_le_pos; [lra|]. left. now apply Rinv_0_lt_compat. }
    split; [exact C|].
    destruct (Reqb (ri_table n) 0) eqn:Er; [lra|].
    apply Reqb_false in Er.
    assert (Hri : 0 < ri_table n).
    { destruct (Nat.le_gt_cases 3 n) as [H3 | H3].
      - pose proof (ri_table_bounds n H3). lra.
      - exfalso. apply Er. clear - H3 En.
        destruct n as [|[|[|n]]]; [lia | reflexivity | reflexivity | lia]. }
    apply Rmult_le_pos; [exact C|]. left. now apply Rinv_0_lt_compat.
Qed.

Lemma consistent_ahp_runs :
  exists w ci cr,
    _ahp_weights consistent_eig consistent_matrix = Ok (w, 3, ci, cr).
Proof.
  unfold _ahp_weights. eval_engine. decide_reals. eval_engine. decide_reals.
  eval_engine. decide_reals. do 3 eexists. reflexivity.
Qed.

Lemma ahp_consistency_figures_witness :
  exists w ci cr,
    _ahp_weights consistent_eig consistent_matrix = Ok (w, 3, ci, cr)
    /\ ci = 0 /\ cr = 0.
Proof.
  destruct consistent_ahp_runs as (w & ci & cr & H).
  exists w, ci, cr. split; [exact H|].
  refine (proj1 (proj2 (proj2 (proj2 (proj2 (proj2 (proj2
            (ahp_consistency_figures _ _ _ _ _ _ H))))))) _).
  unfold nrows, consistent_matrix. simpl. lra.
Defined.

(** ** PCA weights in closed form *)

Lemma vec_index_nth (a : vec) (i : nat) (v : R) :
  vec_index a i = Ok v -> v = nth i a 0.
Proof.
  unfold vec_index. destruct (nth_error a i) as [b|] eqn:E; [|discriminate].
  intros H. inversion H; subst. symmetry. now apply nth_error_nth.
Qed.

Lemma pca_accumulate_closed (eigvals : vec) (eigvecs : ndarray) (todo : nat) :
  forall w l w',
    pca_accumulate eigvals eigvecs w l todo = Ok w' ->
    length w = nrows eigvecs ->
    forall j, (j < length w)%nat ->
      nth j w' 0
      = nth j w 0
        + vsum (map (fun l' => Rsqr (entry eigvecs j l') * Rsqr (nth l' eigvals 0))
                    (seq l todo)).
Proof.
  induction todo as [|todo IH]; intros w l w' H Hlen j Hj; simpl in H.
  - inversion H; subst. simpl. lra.
  - apply bind_ok in H. destruct H as (lam & Hlam & H).
    apply bind_ok in H. destruct H as ([] & _ & H).
    apply bind_ok in H. destruct H as (w1 & Hw1 & H).
    pose proof (vec_index_nth _ _ _ Hlam) as El.
    pose proof (vec_iadd_length _ _ _ Hw1) as L1.
    rewrite (IH _ _ _ H ltac:(lia) j ltac:(lia)).
    simpl seq. simpl map. simpl vsum.
    assert (E1 : nth j w1 0
                 = nth j w 0 + Rsqr (entry eigvecs j l) * Rsqr (nth l eigvals 0)).
    { unfold vec_iadd in Hw1. rewrite length_map, column_length in Hw1.
      replace (Nat.eqb (nrows eigvecs) (length w)) with true in Hw1
        by (symmetry; apply Nat.eqb_eq; lia).
      inversion Hw1; subst w1.
      rewrite map2_nth by (rewrite ?length_map, ?column_length; lia).
      rewrite nth_map_in by (rewrite column_length; lia).
      rewrite column_nth by lia. now rewrite El. }
    rewrite E1. lra.
Qed.

(** X17.  The weights [_pca_weights] returns, when the eigenvector matrix
    has one row per column of [z]: with the eigenvalues in descending
    order and [k] components retained, the weight of column [j] is
    proportional to the sum over the first [k] components [l] of
    [v_jl ^ 2 * lambda_l ^ 2], and the weights are these sums divided by
    their total. *)
Theorem pca_weights_closed_form (eigh : ndarray -> vec * ndarray) (z : ndarray)
        (cum_var_threshold : R) (r : PcaResult) :
  nrows (snd (eigh (np_cov z))) = ncols z ->
  _pca_weights eigh z cum_var_threshold = Ok r ->
  let raw := fun j =>
    vsum (map (fun l => Rsqr (entry (pca_eigvecs eigh z) j l)
                        * Rsqr (nth l (pca_eigvals eigh z) 0))
              (seq 0 (pca_k r))) in
  let s := vsum (map raw (seq 0 (ncols z))) in
  0 < s
  /\ forall j, (j < ncols z)%nat -> nth j (pca_weights r) 0 = raw j / s.
Proof.
  intros Hrows H raw s. unfold _pca_weights in H.
  destruct (Nat.ltb (nrows z) 2); [discriminate|].
  destruct (Nat.eqb (ncols z) 1); [discriminate|].
  destruct (Rleb (vsum (pca_eigvals eigh z)) 0); [discriminate|].
  apply bind_ok in H. destruct H as (cumulative & _ & H).
  apply bind_ok in H. destruct H as (w_raw & Hacc & H).
  destruct (Rleb (vsum w_raw) 0) eqn:E; [discriminate|]. apply Rleb_false in E.
  inversion H; subst r; clear H. cbn [pca_weights pca_k] in *.
  set (k := Nat.max 1 (Nat.min (np_searchsorted (pca_cum eigh z) cum_var_threshold + 1)
                               (ncols z))) in *.
  assert (Lw : length w_raw = ncols z).
  { rewrite (pca_accumulate_length _ _ _ _ _ _ Hacc). apply repeat_length. }
  assert (Hr : nrows (pca_eigvecs eigh z) = ncols z).
  { unfold pca_eigvecs. destruct (eigh (np_cov z)) as [ev E0]. simpl in Hrows.
    unfold nrows in *. simpl. now rewrite length_map. }
  assert (Hraw : w_raw = map raw (seq 0 (ncols z))).
  { apply list_ext_nth; [now rewrite length_map, length_seq|].
    intros j Hj. rewrite (nth_seq_map raw) by lia.
    rewrite (pca_accumulate_closed _ _ _ _ _ _ Hacc) ;
      [|rewrite repeat_length; now symmetry | rewrite repeat_length; lia].
    rewrite nth_repeat, Rplus_0_l. reflexivity. }
  split.
  - unfold s. rewrite <- Hraw. lra.
  - intros j Hj. rewrite nth_map_in by lia. unfold s.
    rewrite <- Hraw. f_equal. rewrite Hraw at 1. now apply (nth_seq_map raw).
Qed.

Lemma pca_weights_closed_form_witness :
  nrows (snd (correlated_eigh (np_cov correlated_z))) = ncols correlated_z
  /\ exists r,
       _pca_weights correlated_eigh correlated_z 0.85 = Ok r
       /\ 0 < vsum (map (fun j =>
                      vsum (map (fun l =>
                                   Rsqr (entry (pca_eigvecs correlated_eigh correlated_z) j l)
                                   * Rsqr (nth l (pca_eigvals correlated_eigh correlated_z) 0))
                                (seq 0 (pca_k r))))
                   (seq 0 (ncols correlated_z))).
Proof.
  split; [reflexivity|].
  destruct correlated_pca_runs as (r & Hr & _).
  exists r. split; [exact Hr|].
  exact (proj1 (pca_weights_closed_form correlated_eigh correlated_z 0.85 r
                  eq_refl Hr)).
Defined.

(** ** A row that is better everywhere does not score lower *)

Lemma vsum_map_le_nat (f g : nat -> R) (l : list nat) :
  (forall j, In j l -> f j <= g j) -> vsum (map f l) <= vsum (map g l).
Proof.
  induction l as [|j l IH]; intros H; simpl; [lra|].
  pose proof (H j (or_introl eq_refl)).
  assert (vsum (map f l) <= vsum (map g l)) by (apply IH; intros; apply H; now right).
  lra.
Qed.

Lemma dot_monotone (r1 r2 w : vec) :
  length r1 = length w -> length r2 = length w ->
  Forall (fun t => 0 <= t) w ->
  (forall j, (j < length w)%nat -> nth j r1 0 <= nth j r2 0) ->
  dot r1 w <= dot r2 w.
Proof.
  intros L1 L2 Hw H. rewrite (dot_as_sum r1 w L1), (dot_as_sum r2 w L2).
  apply vsum_map_le_nat. intros j Hj. apply in_seq in Hj.
  apply Rmult_le_compat_r; [now apply nth_nonneg | apply H; lia].
Qed.

Lemma matvec_nth (z : ndarray) (w sr : vec) (i : nat) :
  matvec z w = Ok sr -> (i < nrows z)%nat ->
  nth i sr 0 = dot (nth i (rows z) []) w.
Proof.
  unfold matvec. destruct (Nat.eqb _ _); [|discriminate].
  intros H Hi. inversion H; subst sr.
  rewrite (nth_indep _ 0 (dot [] w)) by (now rewrite length_map).
  apply (map_nth (fun r => dot r w)).
Qed.

Lemma well_shaped_nth (z : ndarray) (i : nat) :
  well_shaped z -> (i < nrows z)%nat -> length (nth i (rows z) []) = ncols z.
Proof.
  intros Hz Hi. unfold well_shaped in Hz. rewrite Forall_forall in Hz.
  apply Hz. now apply nth_In.
Qed.

Lemma scale_0_100_monotone (values : vec) (vmin vmax : R) (i1 i2 : nat) :
  vmin <= vmax ->
  (i1 < length values)%nat -> (i2 < length values)%nat ->
  nth i1 values 0 <= nth i2 values 0 ->
  nth i1 (scale_0_100 values vmin vmax) 0 <= nth i2 (scale_0_100 values vmin vmax) 0.
Proof.
  intros Hle H1 H2 H. destruct (Req_dec_T vmax vmin) as [E | E].
  - subst vmax. rewrite scale_0_100_degenerate.
    rewrite !(nth_map_in (fun _ => 50)) by assumption. lra.
  - rewrite (scale_0_100_nondegenerate _ _ _ E).
    rewrite !(nth_map_in (fun v => (v - vmin) / (vmax - vmin) * 100)) by assumption.
    assert (0 < / (vmax - vmin)) by (apply Rinv_0_lt_compat; lra).
    unfold Rdiv. nra.
Qed.

Lemma div_monotone (a b c d : R) : 0 < d -> a <= b -> (a - c) / d <= (b - c) / d.
Proof.
  intros Hd H. unfold Rdiv. apply Rmult_le_compat_r; [|lra].
  left. now apply Rinv_0_lt_compat.
Qed.

Section Monotone.

Variable eigh : ndarray -> vec * ndarray.
Variable eig : ndarray -> list complex * list (list complex).
Variables (id created name : string) (method : WeightMethod) (keys : list string).
Variable indicators : list IndicatorRecord.
Variable x_train : ndarray.
Variable directions : list Direction.
Variable ds : list string.
Variable ahp_matrix : option (list (list R)).
Variable thr : R.
Variable model : WeightModelRecord.

Hypothesis distinct : NoDup keys.
Hypothesis rectangular : well_shaped x_train.
Hypothesis trained :
  train_weight_model eigh eig id created method name keys indicators x_train
                     directions ds ahp_matrix thr = Ok model.

Lemma trained_weights_nonneg :
  exists w, mapM (fun k => dict_lookup k (weights model)) (indicatorKeys model) = Ok w
            /\ length w = length keys /\ Forall (fun t => 0 <= t) w.
Proof.
  destruct (train_weight_model_inv _ _ _ _ _ _ _ _ _ _ _ _ _ _ trained)
    as (x & z & w_vec & std & pinfo & ainfo & score_raw & sub_scores
        & lo & hi & sub_lo & sub_hi
        & Hx & Hfit & Hw & _ & _ & _ & _ & _ & Hkeys & _).
  assert (Hxs : well_shaped x) by (eapply apply_direction_well_shaped; eassumption).
  assert (Hnn : Forall (fun t => 0 <= t) w_vec).
  { destruct (train_fit_inv _ _ _ _ _ _ _ _ _ _ _ _ Hfit)
      as [(min_v & max_v & smin & smax & _ & Hf & Ht & He & _)
         |(mean & sd & smean & sstd & _ & _ & _ & _ & _
           & [(_ & r & Hr & ->)|(_ & am & m & l & ci & cr & _ & _ & Ha)])].
    - destruct (minmax_standardized_nonneg _ _ _ _ Hxs Hf Ht) as (Hz1 & Hz2).
      now destruct (entropy_weights_nonneg z w_vec Hz1 Hz2 He).
    - eapply pca_weights_nonneg; eassumption.
    - now destruct (ahp_weights_sum _ _ _ _ _ _ Ha) as (_ & _ & ?). }
  destruct (keyed_read_back keys w_vec _ distinct Hw) as (_ & Hl & Rw).
  exists (firstn (length keys) w_vec). rewrite Hkeys. split; [exact Rw|].
  split; [rewrite length_firstn; lia | now apply firstn_forall].
Qed.

Lemma trained_scale_ordered :
  exists sc lo hi, scaling model = Some sc /\ scoreMin sc = Some lo
                   /\ scoreMax sc = Some hi /\ lo <= hi.
Proof.
  destruct (train_weight_model_inv _ _ _ _ _ _ _ _ _ _ _ _ _ _ trained)
    as (x & z & w_vec & std & pinfo & ainfo & score_raw & sub_scores
        & lo & hi & sub_lo & sub_hi
        & _ & _ & _ & _ & Hlo & Hhi & _ & _ & _ & _ & _ & Hsc).
  do 3 eexists. split; [exact Hsc|]. split; [reflexivity|]. split; [reflexivity|].
  pose proof (np_min_max_bounds _ _ _ Hlo Hhi) as Hb.
  pose proof (np_min_in _ _ Hlo) as Hin.
  rewrite Forall_forall in Hb. destruct (Hb lo Hin). lra.
Qed.

Lemma trained_standardize_monotone (x x2 z : ndarray)
      (directions' : list Direction) (i1 i2 : nat) :
  well_shaped x -> ncols x = length keys ->
  _apply_direction x directions' = Ok x2 ->
  apply_standardize model x directions' = Ok z ->
  (i1 < nrows x)%nat -> (i2 < nrows x)%nat ->
  (forall j, (j < ncols x)%nat -> entry x2 i1 j <= entry x2 i2 j) ->
  well_shaped z /\ ncols z = ncols x /\ nrows z = nrows x
  /\ forall j, (j < ncols x)%nat -> entry z i1 j <= entry z i2 j.
Proof.
  intros Hx Hcols Hx2 Hz H1 H2 Hle.
  destruct (train_weight_model_inv _ _ _ _ _ _ _ _ _ _ _ _ _ _ trained)
    as (x0 & z0 & w_vec & std & pinfo & ainfo & sr0 & ss0 & lo & hi & sub_lo & sub_hi
        & Hx0 & Hfit & Hw & Hcs & _ & _ & _ & _ & Hkeys & _ & Hstd & _).
  pose proof (compute_scores_shape _ _ _ _ _ _ Hcs) as Hshape.
  pose proof (apply_direction_well_shaped _ _ _ _ Hx Hx2) as Wx2.
  pose proof (apply_direction_ncols _ _ _ _ Hx2) as Cx2.
  pose proof (apply_direction_nrows _ _ _ _ Hx2) as Rx2.
  unfold apply_standardize in Hz. rewrite Hx2 in Hz. cbn [bind] in Hz.
  rewrite Hstd, Hkeys in Hz.
  destruct (train_fit_inv _ _ _ _ _ _ _ _ _ _ _ _ Hfit)
    as [(min_v & max_v & smin & smax & _ & Hf & Ht & _ & Kmin & Kmax & Es)
       |(mean & sd & smean & sstd & Hf & Ht & Kmean & Ksd & Es & _)];
    rewrite Es in Hz.
  - destruct (minmax_fit_lengths _ _ _ Hf) as (L1 & L2 & Hne).
    pose proof (minmax_transform_ncols _ _ _ _ L1 L2 Ht) as Hc.
    destruct (keyed_read_back keys min_v _ distinct Kmin) as (_ & _ & Ra).
    destruct (keyed_read_back keys max_v _ distinct Kmax) as (_ & _ & Rb).
    rewrite firstn_all2 in Ra by lia. rewrite firstn_all2 in Rb by lia.
    rewrite Ra in Hz. cbn [bind] in Hz. rewrite Rb in Hz. cbn [bind] in Hz.
    destruct (transform_entries_minmax_aux x2 z min_v max_v Wx2 ltac:(lia) ltac:(lia) Hz)
      as (Hnd & (Sc & Sr & Sw) & He).
    split; [exact Sw|]. split; [lia|]. split; [lia|].
    intros j Hj. rewrite !He by lia. apply div_monotone; [|apply Hle; lia].
    pose proof (minmax_fit_bounds x0 min_v max_v j Hf ltac:(lia)) as Hb.
    assert (Hcol : column j x0 <> []).
    { intros Hc0. apply (f_equal (@length R)) in Hc0.
      rewrite column_length in Hc0. unfold nrows in Hc0.
      destruct (rows x0); [congruence | discriminate]. }
    destruct (column j x0) as [|a c]; [congruence|].
    inversion Hb; subst. pose proof (Hnd j ltac:(lia)). lra.
  - destruct (zscore_fit_lengths _ _ _ Hf) as (L1 & L2 & Hn).
    pose proof (zscore_transform_ncols _ _ _ _ L1 L2 Ht) as Hc.
    destruct (keyed_read_back keys mean _ distinct Kmean) as (_ & _ & Ra).
    destruct (keyed_read_back keys sd _ distinct Ksd) as (_ & _ & Rb).
    rewrite firstn_all2 in Ra by lia. rewrite firstn_all2 in Rb by lia.
    rewrite Ra in Hz. cbn [bind] in Hz. rewrite Rb in Hz. cbn [bind] in Hz.
    destruct (transform_entries_zscore_aux x2 z mean sd Wx2 ltac:(lia) ltac:(lia) Hz)
      as (Hnd & (Sc & Sr & Sw) & He).
    split; [exact Sw|]. split; [lia|]. split; [lia|].
    intros j Hj. rewrite !He by lia. apply div_monotone; [|apply Hle; lia].
    destruct (zscore_fit_entry _ _ _ j Hf ltac:(lia)) as (_ & Esd).
    pose proof (Hnd j ltac:(lia)) as Hnz. rewrite Esd in Hnz |- *.
    unfold col_std in *. cbn zeta in *.
    match goal with |- 0 < sqrt ?t => pose proof (sqrt_pos t) end. lra.
Qed.

End Monotone.

(** X18.  A record trained with pairwise distinct keys on a rectangular
    matrix of at least two rows ranks consistently.  When it is applied to
    a rectangular matrix with one column per key, a row whose
    direction-normalized values are all at most those of another row gets
    a raw score, a 0-100 index and sub-scores that are at most those of
    the other row. *)
Theorem better_row_scores_no_lower
        (eigh : ndarray -> vec * ndarray)
        (eig : ndarray -> list complex * list (list complex))
        (id created name : string) (method : WeightMethod)
        (keys : list string) (indicators indicators' : list IndicatorRecord)
        (x_train x x2 z : ndarray) (directions directions' : list Direction)
        (ds : list string) (ahp_matrix : option (list (list R))) (thr : R)
        (model : WeightModelRecord)
        (score_raw index : vec) (sub_scores sub_index : dict vec) (i1 i2 : nat) :
  NoDup keys -> well_shaped x_train -> (2 <= nrows x_train)%nat ->
  train_weight_model eigh eig id created method name keys indicators x_train
                     directions ds ahp_matrix thr = Ok model ->
  well_shaped x -> ncols x = length keys ->
  _apply_direction x directions' = Ok x2 ->
  apply_weight_model_locals model indicators' x directions'
  = Ok (z, score_raw, sub_scores, sub_index, index) ->
  (i1 < nrows x)%nat -> (i2 < nrows x)%nat ->
  (forall j, (j < ncols x)%nat -> entry x2 i1 j <= entry x2 i2 j) ->
  nth i1 score_raw 0 <= nth i2 score_raw 0
  /\ nth i1 index 0 <= nth i2 index 0
  /\ forall g v, dict_get g sub_scores = Some v -> nth i1 v 0 <= nth i2 v 0.
Proof.
  intros Hnd Hrect _ Htrain Hx Hcols Hx2 Hloc H1 H2 Hle.
  destruct (trained_weights_nonneg _ _ _ _ _ _ _ _ _ _ _ _ _ _ Hnd Hrect Htrain)
    as (w & Hw & Lw & Wpos).
  destruct (trained_scale_ordered _ _ _ _ _ _ _ _ _ _ _ _ _ _ Htrain)
    as (sc & lo & hi & Hsc & Hslo & Hshi & Hlohi).
  unfold apply_weight_model_locals in Hloc.
  apply bind_ok in Hloc. destruct Hloc as (z1 & Hz & Hloc).
  apply bind_ok in Hloc. destruct Hloc as ([sr1 ss1] & Hcs & Hloc).
  apply bind_ok in Hloc. destruct Hloc as (dmin & _ & Hloc).
  apply bind_ok in Hloc. destruct Hloc as (dmax & _ & Hloc).
  apply bind_ok in Hloc. destruct Hloc as (si1 & _ & Hloc).
  inversion Hloc; subst z1 sr1 ss1 si1. clear Hloc.
  destruct (trained_standardize_monotone _ _ _ _ _ _ _ _ _ _ _ _ _ _ Hnd Htrain
              x x2 z directions' i1 i2 Hx Hcols Hx2 Hz H1 H2 Hle)
    as (Wz & Cz & Rz & Hze).
  unfold compute_scores in Hcs. rewrite Hw in Hcs. cbn [bind] in Hcs.
  apply bind_ok in Hcs. destruct Hcs as (sr & Hsr & Hcs).
  apply bind_ok in Hcs. destruct Hcs as (ss & Hss & Hcs).
  inversion Hcs; subst sr ss. clear Hcs.
  set (r1 := nth i1 (rows z) []). set (r2 := nth i2 (rows z) []).
  assert (Lr1 : length r1 = length w)
    by (unfold r1; rewrite well_shaped_nth by (assumption || lia); lia).
  assert (Lr2 : length r2 = length w)
    by (unfold r2; rewrite well_shaped_nth by (assumption || lia); lia).
  assert (Hrows : forall j, nth j r1 0 <= nth j r2 0).
  { intros j. destruct (Nat.lt_ge_cases j (length w)) as [Hj | Hj].
    - apply (Hze j). lia.
    - rewrite !nth_overflow by lia. lra. }
  assert (Hscore : nth i1 score_raw 0 <= nth i2 score_raw 0).
  { rewrite (matvec_nth z w score_raw i1 Hsr) by lia.
    rewrite (matvec_nth z w score_raw i2 Hsr) by lia.
    apply dot_monotone; try assumption. intros j _. apply Hrows. }
  assert (Lsr : length score_raw = nrows z).
  { unfold matvec in Hsr. destruct (Nat.eqb _ _); [|discriminate].
    inversion Hsr. unfold nrows. now rewrite length_map. }
  split; [exact Hscore|]. split.
  - unfold scaling_or_empty. rewrite Hsc, Hslo, Hshi. cbn [option_default].
    apply scale_0_100_monotone; try assumption; lia.
  - intros g v Hg.
    assert (Hin : In g (dict_keys (group_indices (indicatorKeys model) indicators'))).
    { destruct (in_dec string_dec g
                  (dict_keys (group_indices (indicatorKeys model) indicators')))
        as [Hin | Hout]; [exact Hin|].
      rewrite (sub_scores_loop_keeps _ _ _ g _ _ Hss Hout) in Hg. discriminate. }
    apply in_map_iff in Hin. destruct Hin as ([g' idxs] & Eg & Hin).
    simpl in Eg. subst g'.
    destruct (sub_scores_loop_lookup z w _ g idxs _ _ Hss
                (group_indices_nodup _ _) Hin) as (Hskip & Hkeep).
    destruct (Rle_or_lt (vsum (take_indices w idxs)) 0) as [Hwg | Hwg].
    + rewrite (Hskip Hwg) in Hg. discriminate.
    + rewrite (Hkeep Hwg) in Hg. inversion Hg; subst v. clear Hg.
      set (F := fun r0 : list R =>
                  vsum (map (fun j => nth j r0 0
                                      * (nth j w 0 / vsum (take_indices w idxs)))
                            idxs)).
      assert (B1 : (i1 < length (map F (rows z)))%nat)
        by (rewrite length_map; change (i1 < nrows z)%nat; rewrite Rz; exact H1).
      assert (B2 : (i2 < length (map F (rows z)))%nat)
        by (rewrite length_map; change (i2 < nrows z)%nat; rewrite Rz; exact H2).
      rewrite (nth_indep (map F (rows z)) 0 (F []) B1).
      rewrite (nth_indep (map F (rows z)) 0 (F []) B2).
      rewrite !map_nth. fold r1 r2. unfold F.
      apply vsum_map_le_nat. intros j _.
      apply Rmult_le_compat_r; [|apply Hrows].
      apply Rmult_le_pos; [now apply nth_nonneg|].
      left. now apply Rinv_0_lt_compat.
Qed.

Lemma better_row_scores_no_lower_witness :
  NoDup ["x1"; "x2"]%string /\ well_shaped sample_x /\ (2 <= nrows sample_x)%nat
  /\ exists model z score_raw sub_scores sub_index index,
       train_weight_model correlated_eigh consistent_eig "id" "now" entropy "m"
                          ["x1"; "x2"]%string [] sample_x [positive; positive]
                          [] None 0.85 = Ok model
       /\ apply_weight_model_locals model [] sample_x [positive; positive]
          = Ok (z, score_raw, sub_scores, sub_index, index)
       /\ nth 0 score_raw 0 <= nth 1 score_raw 0
       /\ nth 0 index 0 <= nth 1 index 0.
Proof.
  assert (Hx : well_shaped sample_x) by (repeat constructor).
  assert (Hn : (2 <= nrows sample_x)%nat) by (unfold nrows, sample_x; simpl; lia).
  split; [exact two_keys_distinct|]. split; [exact Hx|]. split; [exact Hn|].
  destruct (sample_train correlated_eigh consistent_eig "id" "now" "m" "x1" "x2"
              [] [] None 0.85 ltac:(discriminate))
    as (model & ss & sub_lo & sub_hi & Htrain & _).
  destruct (roundtrip_distinct_keys _ _ _ _ _ _ _ _ _ _ _ _ _ _
              two_keys_distinct Htrain) as (z & sr & ss' & si & _ & Happ).
  unfold apply_weight_model in Happ. apply bind_ok in Happ.
  destruct Happ as ([[[[z1 sr1] ss1] si1] index] & Hloc & Happ).
  simpl in Happ. inversion Happ; subst z1 sr1 ss1 si1. clear Happ.
  exists model, z, sr, ss', si, index. split; [exact Htrain|]. split; [exact Hloc|].
  destruct (better_row_scores_no_lower
              correlated_eigh consistent_eig "id" "now" "m" entropy
              ["x1"; "x2"]%string [] [] sample_x sample_x sample_x z
              [positive; positive] [positive; positive] [] None 0.85 model
              sr index ss' si 0%nat 1%nat
              two_keys_distinct Hx Hn Htrain Hx eq_refl eq_refl Hloc)
    as (A & B & _).
  - unfold nrows, sample_x. simpl. lia.
  - unfold nrows, sample_x. simpl. lia.
  - intros [|[|[|j]]] Hj; unfold entry, sample_x; simpl; lra.
  - split; assumption.
Defined.

(** ** The variance share PCA reports *)

Lemma cumsum_from_last (v : vec) :
  forall acc, v <> [] ->
    nth (length v - 1) (cumsum_from acc v) 0 = acc + vsum v.
Proof.
  induction v as [|a v IH]; intros acc Hne; [congruence|].
  destruct v as [|b v].
  - simpl. lra.
  - replace (length (a :: b :: v) - 1)%nat with (S (length (b :: v) - 1))
      by (simpl; lia).
    change (cumsum_from acc (a :: b :: v))
      with ((acc + a) :: cumsum_from (acc + a) (b :: v)).
    cbn [nth]. rewrite IH by discriminate.
    change (vsum (a :: b :: v)) with (a + vsum (b :: v)). lra.
Qed.

(** X19.  The cumulative share [_pca_weights] reports, when numpy returns
    one eigenvalue per column: it lies between 0 and 1; it reaches the
    threshold whenever the threshold is at most 1; and for a threshold
    above 1 all components are kept and the share is 1. *)
Theorem pca_cumulative_bounds (eigh : ndarray -> vec * ndarray) (z : ndarray)
        (cum_var_threshold : R) (r : PcaResult) :
  length (fst (eigh (np_cov z))) = ncols z ->
  _pca_weights eigh z cum_var_threshold = Ok r ->
  0 <= pca_cumulative r <= 1
  /\ (cum_var_threshold <= 1 -> cum_var_threshold <= pca_cumulative r)
  /\ (1 < cum_var_threshold -> pca_k r = ncols z /\ pca_cumulative r = 1).
Proof.
  intros Hcount H. unfold _pca_weights in H.
  destruct (Nat.ltb (nrows z) 2); [discriminate|].
  destruct (Nat.eqb (ncols z) 1); [discriminate|].
  destruct (Rleb (vsum (pca_eigvals eigh z)) 0) eqn:Et; [discriminate|].
  apply Rleb_false in Et.
  remember (Nat.max 1 (Nat.min (np_searchsorted (pca_cum eigh z) cum_var_threshold + 1)
                               (ncols z))) as k eqn:Hk.
  apply bind_ok in H. destruct H as (cumulative & Hc & H).
  apply bind_ok in H. destruct H as (w_raw & _ & H).
  destruct (Rleb (vsum w_raw) 0); [discriminate|]. inversion H; subst r; clear H.
  cbn [pca_k pca_cumulative].
  pose proof (vec_index_nth _ _ _ Hc) as Ec.
  pose proof (pca_count_positive eigh z Hcount ltac:(lra)) as Hp.
  pose proof (pca_cum_length eigh z Hcount) as Hlen.
  pose proof (pca_cum_nondecreasing eigh z Hcount ltac:(lra)) as Hmono.
  pose proof (pca_eigvals_length eigh z Hcount) as Hev.
  pose proof (pca_eigvals_nonneg eigh z Hcount) as Hnn.
  destruct (np_searchsorted_spec (pca_cum eigh z) cum_var_threshold Hmono)
    as (S1 & S2 & S3).
  rewrite Hlen in S1, S3.
  set (ss := np_searchsorted (pca_cum eigh z) cum_var_threshold) in *.
  assert (Hlast : nth (ncols z - 1) (pca_cum eigh z) 0 = 1).
  { unfold pca_cum, np_cumsum.
    rewrite nth_map_in by (rewrite cumsum_from_length; lia).
    rewrite <- Hev at 1. rewrite cumsum_from_last.
    - field. lra.
    - intros E. rewrite E in Hev. simpl in Hev. lia. }
  assert (Hle1 : forall i, (i < ncols z)%nat -> nth i (pca_cum eigh z) 0 <= 1).
  { intros i Hi. rewrite <- Hlast. apply Hmono; lia. }
  assert (Hge0 : forall i, (i < ncols z)%nat -> 0 <= nth i (pca_cum eigh z) 0).
  { intros i Hi. unfold pca_cum, np_cumsum.
    rewrite nth_map_in by (rewrite cumsum_from_length; lia).
    pose proof (cumsum_from_lower _ Hnn 0 i ltac:(lia)).
    apply Rmult_le_pos; [assumption|]. left. apply Rinv_0_lt_compat. lra. }
  assert (Hk1 : (1 <= k)%nat /\ (k <= ncols z)%nat) by lia.
  subst cumulative. split; [|split].
  - split; [apply Hge0 | apply Hle1]; lia.
  - intros Hthr.
    assert (Hss : (ss < ncols z)%nat).
    { destruct (Nat.lt_ge_cases ss (ncols z)) as [|Hge]; [assumption|].
      specialize (S2 (ncols z - 1)%nat ltac:(lia)). lra. }
    replace (k - 1)%nat with ss by lia. apply S3; lia.
  - intros Hthr.
    assert (Hss : ss = ncols z).
    { destruct (Nat.lt_ge_cases ss (ncols z)) as [Hlt|Hge]; [|lia].
      specialize (S3 ss ltac:(lia) Hlt). specialize (Hle1 ss Hlt). lra. }
    assert (k = ncols z) by lia. split; [assumption|].
    replace (k - 1)%nat with (ncols z - 1)%nat by lia. exact Hlast.
Qed.

Lemma pca_cumulative_bounds_witness :
  length (fst (correlated_eigh (np_cov correlated_z))) = ncols correlated_z
  /\ exists r,
       _pca_weights correlated_eigh correlated_z 0.85 = Ok r
       /\ 0.85 <= pca_cumulative r.
Proof.
  split; [reflexivity|].
  destruct correlated_pca_runs as (r & Hr & _).
  exists r. split; [exact Hr|].
  apply (proj1 (proj2 (pca_cumulative_bounds correlated_eigh correlated_z 0.85 r
                         eq_refl Hr))).
  lra.
Defined.

(** ** Group weights and dimension weights *)

Lemma dict_get_of_in {V : Type} (k : string) (v : V) (d : dict V) :
  NoDup (dict_keys d) -> In (k, v) d -> dict_get k d = Some v.
Proof.
  induction d as [|[k' v'] d IH]; intros Hnd Hin; [destruct Hin|].
  simpl in Hnd. inversion Hnd as [|? ? Hk Hnd']; subst. simpl.
  destruct Hin as [E | Hin].
  - inversion E; subst. now rewrite String.eqb_refl.
  - destruct (String.eqb_spec k k') as [-> | Hne]; [|now apply IH].
    exfalso. apply Hk. apply in_map_iff. exists (k', v). now split.
Qed.

Lemma vsum_single_key (F : list nat -> R) (g : string) (idxs : list nat)
      (dims : dict (list nat)) :
  NoDup (dict_keys dims) -> In (g, idxs) dims ->
  vsum (map (fun gi : string * list nat =>
               if String.eqb (fst gi) g then F (snd gi) else 0) dims)
  = F idxs.
Proof.
  induction dims as [|[k v] dims IH]; intros Hnd Hin; [destruct Hin|].
  simpl in Hnd. inversion Hnd as [|? ? Hk Hnd']; subst. simpl.
  destruct Hin as [E | Hin].
  - inversion E; subst. rewrite String.eqb_refl.
    assert (Z : vsum (map (fun gi : string * list nat =>
                             if String.eqb (fst gi) g then F (snd gi) else 0) dims)
                = 0).
    { clear - Hk. induction dims as [|[k v] dims IH]; simpl; [reflexivity|].
      simpl in Hk. destruct (String.eqb_spec k g) as [-> | Hne]; [tauto|].
      rewrite IH by tauto. lra. }
    rewrite Z. lra.
  - destruct (String.eqb_spec k g) as [-> | Hne].
    + exfalso. apply Hk. apply in_map_iff. exists (g, idxs). now split.
    + rewrite IH by assumption. lra.
Qed.

Lemma vsum_filter (P : IndicatorRecord -> bool) (h : IndicatorRecord -> R)
      (l : list IndicatorRecord) :
  vsum (map h (filter P l)) = vsum (map (fun a => if P a then h a else 0) l).
Proof.
  induction l as [|a l IH]; simpl; [reflexivity|].
  destruct (P a); simpl; rewrite IH; lra.
Qed.

Lemma map_by_index {A : Type} (h : A -> R) (d : A) (l : list A) :
  map h l = map (fun j => h (nth j l d)) (seq 0 (length l)).
Proof.
  induction l as [|a l IH]; simpl; [reflexivity|].
  f_equal. rewrite <- seq_shift, map_map. exact IH.
Qed.

Lemma keys_injective (indicators : list IndicatorRecord) (a b : IndicatorRecord) :
  NoDup (map ind_key indicators) -> In a indicators -> In b indicators ->
  ind_key a = ind_key b -> a = b.
Proof.
  induction indicators as [|i inds IH]; intros Hnd Ha Hb E; [destruct Ha|].
  simpl in Hnd. inversion Hnd as [|? ? Hi Hnd']; subst.
  destruct Ha as [<- | Ha], Hb as [<- | Hb]; try reflexivity.
  - exfalso. apply Hi. rewrite E. now apply in_map.
  - exfalso. apply Hi. rewrite <- E. now apply in_map.
  - now apply IH.
Qed.

Lemma dimension_of_own_key (indicators : list IndicatorRecord) (ind : IndicatorRecord) :
  NoDup (map ind_key indicators) -> In ind indicators ->
  dimension_of_key indicators (ind_key ind) = dimension2_of ind.
Proof.
  intros Hnd Hin. unfold dimension_of_key.
  destruct (find (fun i => String.eqb (ind_key i) (ind_key ind)) (rev indicators))
    as [i|] eqn:E.
  - apply find_some in E. destruct E as (Hi & Ek).
    apply in_rev in Hi. apply String.eqb_eq in Ek.
    now rewrite (keys_injective indicators i ind Hnd Hi Hin Ek).
  - exfalso. pose proof (find_none _ _ E ind ltac:(now apply in_rev in Hin)) as C.
    simpl in C. now rewrite String.eqb_refl in C.
Qed.

(** X20.  When the indicator records are passed in the order of the keys,
    one record per key and no key twice, the weight a group of columns is
    normalized by in [compute_scores] is the weight
    [build_dimension2_weights] stores for that dimension. *)
Theorem group_weight_is_dimension_weight (indicator_keys : list string)
        (indicators : list IndicatorRecord) (weights : dict R) (w : vec)
        (g : string) (idxs : list nat) :
  NoDup indicator_keys ->
  map ind_key indicators = indicator_keys ->
  mapM (fun k => dict_lookup k weights) indicator_keys = Ok w ->
  In (g, idxs) (group_indices indicator_keys indicators) ->
  vsum (take_indices w idxs)
  = dict_get_default g 0 (build_dimension2_weights indicators weights).
Proof.
  intros Hnd Hkeys Hw Hin.
  set (dims := group_indices indicator_keys indicators) in *.
  pose proof (group_indices_nodup indicator_keys indicators) as Hdn. fold dims in Hdn.
  set (f := fun j : nat =>
              if String.eqb (dimension_of_key indicators
                               (nth j indicator_keys EmptyString)) g
              then nth j w 0 else 0).
  pose proof (group_indices_total f indicator_keys indicators) as Htot.
  fold dims in Htot.
  assert (Hleft : map (fun gi : string * list nat => vsum (map f (snd gi))) dims
                  = map (fun gi : string * list nat =>
                           if String.eqb (fst gi) g
                           then vsum (take_indices w (snd gi)) else 0) dims).
  { apply map_ext_in. intros [g' idxs'] Hin'. cbn [fst snd].
    assert (Hdim : forall j, In j idxs' ->
                     dimension_of_key indicators (nth j indicator_keys EmptyString) = g').
    { intros j Hj.
      pose proof (dict_get_of_in g' idxs' dims Hdn Hin') as Hget.
      assert (Hj' : In j (dict_get_default g' [] dims))
        by (unfold dict_get_default; now rewrite Hget).
      apply group_indices_members in Hj'. destruct Hj' as (k & Hk & Hg').
      now rewrite (nth_error_nth _ _ EmptyString Hk). }
    destruct (String.eqb_spec g' g) as [-> | Hne].
    - unfold take_indices. f_equal. apply map_ext_in. intros j Hj. unfold f.
      now rewrite (Hdim j Hj), String.eqb_refl.
    - assert (E : map f idxs' = map (fun _ => 0) idxs').
      { apply map_ext_in. intros j Hj. unfold f. rewrite (Hdim j Hj).
        destruct (String.eqb_spec g' g); [contradiction | reflexivity]. }
      rewrite E. clear. induction idxs' as [|j l IH]; simpl; [reflexivity|].
      rewrite IH. lra. }
  rewrite Hleft in Htot.
  rewrite (vsum_single_key (fun ix => vsum (take_indices w ix)) g idxs dims Hdn Hin)
    in Htot.
  rewrite Htot.
  destruct (build_dimension2_weights_fold weights g indicators []) as (Hv & _ & _).
  cbn zeta in Hv. unfold build_dimension2_weights. rewrite Hv.
  unfold dict_get_default at 1. simpl dict_get. rewrite Rplus_0_l.
  unfold indicators_of_group. rewrite vsum_filter.
  assert (Hlen : length indicators = length indicator_keys)
    by (rewrite <- Hkeys; now rewrite length_map).
  rewrite (map_by_index _ ind_a indicators), Hlen.
  f_equal. apply map_ext_in. intros j Hj. apply in_seq in Hj.
  assert (Hjl : (j < length indicators)%nat) by lia.
  set (ind := nth j indicators ind_a).
  assert (Hind : In ind indicators) by (apply nth_In; exact Hjl).
  assert (Ek : nth j indicator_keys EmptyString = ind_key ind).
  { rewrite <- Hkeys. rewrite (nth_indep _ EmptyString (ind_key ind_a))
      by (rewrite length_map; exact Hjl).
    apply (map_nth ind_key). }
  unfold f. rewrite Ek.
  rewrite (dimension_of_own_key indicators ind) by (rewrite ?Hkeys; assumption).
  destruct (String.eqb (dimension2_of ind) g); [|reflexivity].
  assert (Hn : nth_error indicator_keys j = Some (ind_key ind)).
  { rewrite <- Ek. apply nth_error_nth'. lia. }
  destruct (mapM_nth_error _ _ _ _ _ Hw Hn) as (b & Hb & Hnb).
  rewrite (nth_error_nth _ _ 0 Hnb).
  unfold dict_lookup in Hb. unfold dict_get_default.
  destruct (dict_get (ind_key ind) weights); [now inversion Hb | discriminate].
Qed.

Lemma group_weight_is_dimension_weight_witness :
  NoDup ["x1"; "x2"]%string
  /\ In ("economy"%string, [0%nat])
        (group_indices ["x1"; "x2"]%string [ind_x1; ind_x2])
  /\ vsum (take_indices [1 / 2; 1 / 2] [0%nat])
     = dict_get_default "economy"%string 0
         (build_dimension2_weights [ind_x1; ind_x2]
            [("x1", 1 / 2); ("x2", 1 / 2)]%string).
Proof.
  assert (Hin : In ("economy"%string, [0%nat])
                   (group_indices ["x1"; "x2"]%string [ind_x1; ind_x2]))
    by (left; reflexivity).
  split; [exact two_keys_distinct|]. split; [exact Hin|].
  apply (group_weight_is_dimension_weight ["x1"; "x2"]%string [ind_x1; ind_x2]
           [("x1", 1 / 2); ("x2", 1 / 2)]%string [1 / 2; 1 / 2]
           "economy"%string [0%nat] two_keys_distinct eq_refl);
    [|exact Hin].
  apply lookup_two. discriminate.
Defined.

(** ** A matrix with another number of columns *)

Lemma bcast_len_one (p : nat) : bcast_len 1 p = Ok p.
Proof.
  unfold bcast_len. destruct (Nat.eqb_spec 1 p) as [<- | H1]; [reflexivity|].
  destruct (Nat.eqb_spec p 1) as [E | _]; [congruence | reflexivity].
Qed.

Lemma bcast_len_to_one (c : nat) : bcast_len c 1 = Ok c.
Proof.
  unfold bcast_len. destruct (Nat.eqb c 1); reflexivity.
Qed.

Lemma bcast_len_mismatch (c p : nat) :
  c <> p -> c <> 1%nat -> p <> 1%nat -> bcast_len c p = Err ValueError.
Proof.
  intros H1 H2 H3. unfold bcast_len.
  destruct (Nat.eqb_spec c p); [contradiction|].
  destruct (Nat.eqb_spec p 1); [contradiction|].
  destruct (Nat.eqb_spec c 1); [contradiction | reflexivity].
Qed.

Lemma two_stage_bcast (f g : R -> R -> R) (x : ndarray) (a d : vec) :
  length d = length a ->
  (num <- mat_bcast f x a ;; mat_bcast g num d)
  = (c <- bcast_len (ncols x) (length a) ;;
     c2 <- bcast_len c (length a) ;;
     Ok {| ncols := c2;
           rows := map (fun r => row_bcast g (row_bcast f r a) d) (rows x) |}).
Proof.
  intros Hd. unfold mat_bcast.
  destruct (bcast_len (ncols x) (length a)) as [c|e]; [|reflexivity].
  cbn [bind ncols rows]. rewrite Hd.
  destruct (bcast_len c (length a)) as [c2|e]; [|reflexivity].
  cbn [bind]. now rewrite map_map.
Qed.

Section OtherColumnCount.

Variable eigh : ndarray -> vec * ndarray.
Variable eig : ndarray -> list complex * list (list complex).
Variables (id created name : string) (method : WeightMethod) (keys : list string).
Variable indicators : list IndicatorRecord.
Variable x_train : ndarray.
Variable directions : list Direction.
Variable ds : list string.
Variable ahp_matrix : option (list (list R)).
Variable thr : R.
Variable model : WeightModelRecord.

Hypothesis distinct : NoDup keys.
Hypothesis trained :
  train_weight_model eigh eig id created method name keys indicators x_train
                     directions ds ahp_matrix thr = Ok model.

(** What the applier computes from the stored parameters of a trained
    record: a subtraction and a division, both broadcast. *)
Lemma trained_standardize_form :
  exists a d : vec,
    length a = length keys /\ length d = length keys
    /\ forall x x2 directions',
         _apply_direction x directions' = Ok x2 ->
         apply_standardize model x directions'
         = (num <- mat_bcast Rminus x2 a ;; mat_bcast Rdiv num d).
Proof.
  destruct (train_weight_model_inv _ _ _ _ _ _ _ _ _ _ _ _ _ _ trained)
    as (x0 & z0 & w_vec & std & pinfo & ainfo & sr0 & ss0 & lo & hi & sub_lo & sub_hi
        & Hx0 & Hfit & Hw & Hcs & _ & _ & _ & _ & Hkeys & _ & Hstd & _).
  pose proof (compute_scores_shape _ _ _ _ _ _ Hcs) as Hshape.
  destruct (train_fit_inv _ _ _ _ _ _ _ _ _ _ _ _ Hfit)
    as [(min_v & max_v & smin & smax & _ & Hf & Ht & _ & Kmin & Kmax & Es)
       |(mean & sd & smean & sstd & Hf & Ht & Kmean & Ksd & Es & _)].
  - destruct (minmax_fit_lengths _ _ _ Hf) as (L1 & L2 & _).
    pose proof (minmax_transform_ncols _ _ _ _ L1 L2 Ht) as Hc.
    destruct (keyed_read_back keys min_v _ distinct Kmin) as (_ & _ & Ra).
    destruct (keyed_read_back keys max_v _ distinct Kmax) as (_ & _ & Rb).
    rewrite firstn_all2 in Ra by lia. rewrite firstn_all2 in Rb by lia.
    exists min_v, (map2 Rminus max_v min_v).
    split; [lia|]. split; [rewrite map2_length; lia|].
    intros x x2 directions' Hx2. unfold apply_standardize.
    rewrite Hx2. cbn [bind]. rewrite Hstd, Es, Hkeys, Ra. cbn [bind].
    rewrite Rb. cbn [bind]. unfold _minmax_transform.
    rewrite vec_bcast_same by lia. cbn [bind].
    replace (existsb (fun d => Reqb d 0) (map2 Rminus max_v min_v)) with false;
      [reflexivity|].
    symmetry. apply existsb_zero_false. intros j Hj.
    rewrite map2_length in Hj by lia. rewrite map2_nth by lia.
    pose proof (minmax_transform_nondegenerate x0 z0 min_v max_v ltac:(lia) Ht j Hj).
    lra.
  - destruct (zscore_fit_lengths _ _ _ Hf) as (L1 & L2 & _).
    pose proof (zscore_transform_ncols _ _ _ _ L1 L2 Ht) as Hc.
    destruct (keyed_read_back keys mean _ distinct Kmean) as (_ & _ & Ra).
    destruct (keyed_read_back keys sd _ distinct Ksd) as (_ & _ & Rb).
    rewrite firstn_all2 in Ra by lia. rewrite firstn_all2 in Rb by lia.
    exists mean, sd. split; [lia|]. split; [lia|].
    intros x x2 directions' Hx2. unfold apply_standardize.
    rewrite Hx2. cbn [bind]. rewrite Hstd, Es, Hkeys, Ra. cbn [bind].
    rewrite Rb. cbn [bind]. unfold _zscore_transform.
    replace (existsb (fun s => Reqb s 0) sd) with false; [reflexivity|].
    symmetry. apply existsb_zero_false.
    exact (zscore_transform_nondegenerate x0 z0 mean sd Ht).
Qed.

Lemma trained_weights_lookup :
  indicatorKeys model = keys
  /\ exists w, mapM (fun k => dict_lookup k (weights model)) keys = Ok w
               /\ length w = length keys.
Proof.
  destruct (train_weight_model_inv _ _ _ _ _ _ _ _ _ _ _ _ _ _ trained)
    as (x0 & z0 & w_vec & std & pinfo & ainfo & sr0 & ss0 & lo & hi & sub_lo & sub_hi
        & _ & _ & Hw & _ & _ & _ & _ & _ & Hkeys & _).
  split; [exact Hkeys|].
  destruct (keyed_read_back keys w_vec _ distinct Hw) as (_ & Hl & Rw).
  exists (firstn (length keys) w_vec). split; [exact Rw|].
  rewrite length_firstn. lia.
Qed.

End OtherColumnCount.

(** X21.  The applier does not compare the number of columns with the
    number of keys; numpy's broadcasting decides.  For a record trained
    with pairwise distinct keys and a rectangular matrix with at least one
    row whose number of columns differs from the number of keys: a single
    column is broadcast to all the keys and the call succeeds; any other
    number of columns ends in [ValueError]. *)
Theorem apply_with_other_column_count
        (eigh : ndarray -> vec * ndarray)
        (eig : ndarray -> list complex * list (list complex))
        (id created name : string) (method : WeightMethod)
        (keys : list string) (indicators indicators' : list IndicatorRecord)
        (x_train x : ndarray) (directions directions' : list Direction)
        (ds : list string) (ahp_matrix : option (list (list R))) (thr : R)
        (model : WeightModelRecord) :
  NoDup keys ->
  train_weight_model eigh eig id created method name keys indicators x_train
                     directions ds ahp_matrix thr = Ok model ->
  well_shaped x -> rows x <> [] -> ncols x <> length keys ->
  (forall i, nth_error directions' i = Some negative -> (i < ncols x)%nat) ->
  (ncols x = 1%nat ->
   exists z score_raw sub_scores sub_index,
     apply_weight_model model indicators' x directions'
     = Ok (z, score_raw, sub_scores, sub_index)
     /\ ncols z = length keys /\ nrows z = nrows x)
  /\ (ncols x <> 1%nat ->
      apply_weight_model model indicators' x directions' = Err ValueError).
Proof.
  intros Hnd Htrain Hx Hne Hcols Hdirs.
  destruct (trained_standardize_form _ _ _ _ _ _ _ _ _ _ _ _ _ _ Hnd Htrain)
    as (a & d & La & Ld & Hform).
  destruct (trained_weights_lookup _ _ _ _ _ _ _ _ _ _ _ _ _ _ Hnd Htrain)
    as (Hkeys & w & Hw & Lw).
  destruct (apply_direction_from_ok directions' 0 x) as (x2 & Hx2);
    [intros i Hi; simpl; now apply Hdirs|].
  change (_apply_direction x directions' = Ok x2) in Hx2.
  pose proof (apply_direction_ncols _ _ _ _ Hx2) as Cx2.
  pose proof (apply_direction_nrows _ _ _ _ Hx2) as Rx2.
  pose proof (Hform x x2 directions' Hx2) as Hz.
  rewrite (two_stage_bcast Rminus Rdiv x2 a d ltac:(lia)) in Hz.
  rewrite Cx2, La in Hz.
  split.
  - intros H1. rewrite H1, bcast_len_one in Hz. cbn [bind] in Hz.
    rewrite bcast_len_same in Hz. cbn [bind] in Hz.
    match type of Hz with _ = Ok ?zz => set (z := zz) in * end.
    assert (Rz : nrows z = nrows x)
      by (unfold z, nrows; simpl; rewrite length_map; exact Rx2).
    assert (Hnez : rows z <> []).
    { unfold nrows in Rz. destruct (rows z); [|discriminate].
      destruct (rows x); [congruence | discriminate]. }
    rewrite <- Hkeys in Hw.
    destruct (apply_after_standardize model indicators' x z directions' w Hz Hnez
                ltac:(rewrite Hkeys; reflexivity) Hw) as (sr & ss & si & Happ & _).
    exists z, sr, ss, si. split; [exact Happ|]. split; [reflexivity | exact Rz].
  - intros H1. unfold apply_weight_model, apply_weight_model_locals.
    destruct (Nat.eq_dec (length keys) 1) as [Ep | Ep].
    + rewrite Ep, bcast_len_to_one in Hz. cbn [bind] in Hz.
      rewrite bcast_len_to_one in Hz. cbn [bind] in Hz.
      rewrite Hz. cbn [bind]. unfold compute_scores. rewrite Hkeys, Hw. cbn [bind].
      unfold matvec. cbn [ncols].
      replace (Nat.eqb (ncols x) (length w)) with false
        by (symmetry; apply Nat.eqb_neq; lia).
      reflexivity.
    + rewrite (bcast_len_mismatch (ncols x) (length keys) Hcols H1 Ep) in Hz.
      cbn [bind] in Hz. rewrite Hz. reflexivity.
Qed.

Lemma apply_with_other_column_count_witness :
  NoDup ["x1"; "x2"]%string /\ well_shaped three_column_x
  /\ well_shaped single_column_x
  /\ exists model,
       train_weight_model correlated_eigh consistent_eig "id" "now" entropy "m"
                          ["x1"; "x2"]%string [] sample_x [positive; positive]
                          [] None 0.85 = Ok model
       /\ apply_weight_model model [] three_column_x [positive; positive]
          = Err ValueError
       /\ exists z score_raw sub_scores sub_index,
            apply_weight_model model [] single_column_x [negative]
            = Ok (z, score_raw, sub_scores, sub_index)
            /\ ncols z = 2%nat.
Proof.
  assert (Hx : well_shaped three_column_x) by (repeat constructor).
  assert (Hx1 : well_shaped single_column_x) by (repeat constructor).
  split; [exact two_keys_distinct|]. split; [exact Hx|]. split; [exact Hx1|].
  destruct (sample_train correlated_eigh consistent_eig "id" "now" "m" "x1" "x2"
              [] [] None 0.85 ltac:(discriminate))
    as (model & ss & sub_lo & sub_hi & Htrain & _).
  exists model. split; [exact Htrain|]. split.
  - refine (proj2 (apply_with_other_column_count _ _ _ _ _ _ _ _ [] _ three_column_x
                     _ [positive; positive] _ _ _ _ two_keys_distinct Htrain Hx
                     _ _ _) _).
    + discriminate.
    + simpl. lia.
    + intros [|[|i]] Hi; simpl in Hi; try discriminate. destruct i; discriminate.
    + simpl. lia.
  - destruct (proj1 (apply_with_other_column_count _ _ _ _ _ _ _ _ [] _
                       single_column_x _ [negative] _ _ _ _ two_keys_distinct
                       Htrain Hx1 ltac:(discriminate) ltac:(simpl; lia)
                       ltac:(intros [|[|i]] Hi; simpl in Hi; try discriminate;
                             simpl; lia))
                eq_refl)
      as (z & sr & ss' & si & Happ & Hc & _).
    exists z, sr, ss', si. split; [exact Happ | exact Hc].
Defined.

(** ** The size of the AHP matrix *)

Lemma keyed_error (keys : list string) (v : vec) (e : exn) :
  keyed keys v = Err e -> e = IndexError.
Proof.
  unfold keyed.
  generalize (combine (seq 0 (length keys)) keys). intros l H.
  destruct (mapM (fun ik : nat * string => a <- vec_index v (fst ik) ;; Ok (snd ik, a)) l)
    as [ps|e'] eqn:E; simpl in H; [discriminate|].
  inversion H; subst e'. clear H.
  induction l as [|ik l IH]; simpl in E; [discriminate|].
  unfold vec_index in E at 1.
  destruct (nth_error v (fst ik)); simpl in E.
  - destruct (mapM _ l) as [ps|e'] eqn:El; simpl in E; [discriminate|].
    inversion E; subst e'. now apply IH.
  - now inversion E.
Qed.

Lemma keyed_short (keys : list string) (v : vec) :
  (length v < length keys)%nat -> keyed keys v = Err IndexError.
Proof.
  intros H. destruct (keyed keys v) as [d|e] eqn:E.
  - exfalso. unfold keyed in E. apply bind_ok in E. destruct E as (ps & Hps & _).
    destruct (keyed_pairs v keys 0%nat ps Hps) as (_ & _ & [K | K]); lia.
  - now rewrite (keyed_error keys v e E).
Qed.

Lemma vsum_firstn_skipn (n : nat) (v : vec) :
  vsum v = vsum (firstn n v) + vsum (skipn n v).
Proof. rewrite <- (firstn_skipn n v) at 1. apply vsum_app. Qed.

(** X22.  The trainer does not compare the AHP matrix with the key list.
    With pairwise distinct keys, a trained AHP record stores the first
    [len(keys)] entries of the AHP weight vector, so its weights add up to
    1 less the entries left over; and when the weight vector is shorter
    than the key list, training ends in [IndexError]. *)
Theorem ahp_matrix_size_unchecked
        (eigh : ndarray -> vec * ndarray)
        (eig : ndarray -> list complex * list (list complex))
        (id created name : string)
        (keys : list string) (indicators : list IndicatorRecord)
        (x_train : ndarray) (directions : list Direction) (ds : list string)
        (am : list (list R)) (thr : R) :
  NoDup keys ->
  (forall model,
      train_weight_model eigh eig id created ahp name keys indicators x_train
                         directions ds (Some am) thr = Ok model ->
      exists m w lambda_max ci cr,
        np_array2 am = Ok m
        /\ _ahp_weights eig m = Ok (w, lambda_max, ci, cr)
        /\ (length keys <= length w)%nat
        /\ weights model = combine keys (firstn (length keys) w)
        /\ vsum (dict_values (weights model)) = 1 - vsum (skipn (length keys) w))
  /\ (forall x mean sd z m w lambda_max ci cr,
         _apply_direction x_train directions = Ok x ->
         _zscore_fit x = Ok (mean, sd) ->
         _zscore_transform x mean sd = Ok z ->
         np_array2 am = Ok m ->
         _ahp_weights eig m = Ok (w, lambda_max, ci, cr) ->
         (length w < length keys)%nat ->
         train_weight_model eigh eig id created ahp name keys indicators x_train
                            directions ds (Some am) thr = Err IndexError).
Proof.
  intros Hnd. split.
  - intros model Htrain.
    destruct (train_weight_model_inv _ _ _ _ _ _ _ _ _ _ _ _ _ _ Htrain)
      as (x & z & w_vec & std & pinfo & ainfo & sr & ss & lo & hi & sub_lo & sub_hi
          & _ & Hfit & Hw & _).
    destruct (train_fit_inv _ _ _ _ _ _ _ _ _ _ _ _ Hfit)
      as [(min_v & max_v & smin & smax & Em & _) | (mean & sd & smean & sstd & _ & _ & _
            & _ & _ & [(Em & _) | (_ & am' & m & l & ci & cr & Eam & Hm & Ha)])];
      try discriminate.
    inversion Eam; subst am'. clear Eam.
    destruct (keyed_read_back keys w_vec _ Hnd Hw) as (Ew & Hl & _).
    destruct (ahp_weights_sum _ _ _ _ _ _ Ha) as (Hsum & _).
    exists m, w_vec, l, ci, cr. split; [exact Hm|]. split; [exact Ha|].
    split; [exact Hl|]. split; [exact Ew|].
    rewrite Ew, combine_values by (rewrite length_firstn; lia).
    rewrite (vsum_firstn_skipn (length keys) w_vec) in Hsum. lra.
  - intros x mean sd z m w l ci cr Hx Hf Ht Hm Ha Hlen.
    unfold train_weight_model. rewrite Hx. cbn [bind]. unfold train_fit.
    rewrite Hf. cbn [bind]. rewrite Ht. cbn [bind]. rewrite Hm. cbn [bind].
    rewrite Ha. cbn [bind].
    destruct (keyed keys mean) as [smean|e] eqn:Kmean;
      [|now rewrite (keyed_error _ _ _ Kmean)].
    cbn [bind].
    destruct (keyed keys sd) as [sstd|e] eqn:Ksd;
      [|now rewrite (keyed_error _ _ _ Ksd)].
    cbn [bind]. now rewrite (keyed_short keys w Hlen).
Qed.

Lemma unit_ahp_runs :
  exists w ci cr,
    _ahp_weights unit_eig {| ncols := 1; rows := [[1]] |} = Ok (w, 1, ci, cr)
    /\ length w = 1%nat.
Proof.
  unfold _ahp_weights. eval_engine. decide_reals. eval_engine. decide_reals.
  do 3 eexists. split; reflexivity.
Qed.

Lemma ahp_matrix_size_unchecked_witness :
  NoDup ["x1"; "x2"]%string
  /\ train_weight_model correlated_eigh unit_eig "id" "now" ahp "m"
                        ["x1"; "x2"]%string [] sample_x [positive; positive]
                        [] (Some [[1]]) 0.85
     = Err IndexError.
Proof.
  split; [exact two_keys_distinct|].
  destruct unit_ahp_runs as (w & ci & cr & Ha & Lw).
  refine (proj2 (ahp_matrix_size_unchecked correlated_eigh unit_eig "id" "now" "m"
                   ["x1"; "x2"]%string [] sample_x [positive; positive] []
                   [[1]] 0.85 two_keys_distinct)
                sample_x [20; 2] [10; 1] correlated_z _ w 1 ci cr
                eq_refl sample_zscore_fit sample_zscore_transform eq_refl Ha _).
  rewrite Lw. simpl. lia.
Defined.

(** ** Entropy training gives every indicator a positive weight *)

Lemma vsum_map_lt (f g : R -> R) (l : vec) :
  (forall a, In a l -> f a <= g a) ->
  (exists a, In a l /\ f a < g a) ->
  vsum (map f l) < vsum (map g l).
Proof.
  induction l as [|a l IH]; intros Hle (b & Hb & Hlt); [destruct Hb|].
  simpl. pose proof (Hle a (or_introl eq_refl)) as Ha.
  assert (Hl : vsum (map f l) <= vsum (map g l))
    by (apply vsum_map_le; intros; apply Hle; now right).
  destruct Hb as [<- | Hb]; [lra|].
  assert (vsum (map f l) < vsum (map g l)).
  { apply IH; [intros; apply Hle; now right | eauto]. }
  lra.
Qed.

(** A non-negative column with an entry 0 and a positive sum has a
    positive diversity. *)
Lemma entropy_diversity_positive (c : vec) :
  Forall (fun t => 0 <= t) c -> In 0 c -> 0 < vsum c -> (2 <= length c)%nat ->
  0 < entropy_diversity c.
Proof.
  intros Hc H0 Hs Hn. unfold entropy_diversity.
  replace (Nat.ltb 1 (length c)) with true by (symmetry; apply Nat.ltb_lt; lia).
  replace (Reqb (vsum c) 0) with false by (symmetry; apply Reqb_false; lra).
  set (N := INR (length c)). set (s := vsum c) in *.
  assert (HN : 1 < N) by (unfold N; now apply INR_rows_gt_1).
  assert (HlnN : 0 < ln N) by (unfold N; now apply ln_INR_pos).
  set (ps := map (fun a => a / s) c).
  assert (Hps : vsum (map (fun a => plogp (a / s)) c) = vsum (map plogp ps))
    by (unfold ps; now rewrite map_map).
  rewrite Hps.
  assert (Hpnn : Forall (fun t => 0 <= t) ps) by (apply normalized_nonneg; assumption).
  assert (Hsum : vsum ps = 1) by (unfold ps, s; apply vsum_normalized; fold s; lra).
  assert (Hlen : length ps = length c) by (unfold ps; apply length_map).
  assert (H0p : In 0 ps).
  { unfold ps. apply in_map_iff. exists 0. split; [unfold Rdiv; ring | exact H0]. }
  assert (Hgibbs : - vsum (map plogp ps) < ln N).
  { pose proof (vsum_map_lt (fun p => - plogp p - p * ln N)
                            (fun p => / N - p) ps) as G.
    rewrite vsum_gibbs_left, vsum_gibbs_right, Hsum, Hlen in G.
    fold N in G. rewrite Rinv_r in G by lra.
    assert (A : forall a, In a ps -> - plogp a - a * ln N <= / N - a).
    { intros a Ha. apply plogp_gibbs; [|lra].
      rewrite Forall_forall in Hpnn. now apply Hpnn. }
    assert (B : exists a, In a ps /\ - plogp a - a * ln N < / N - a).
    { exists 0. split; [exact H0p|]. rewrite plogp_zero.
      assert (0 < / N) by (apply Rinv_0_lt_compat; lra). lra. }
    specialize (G A B). lra. }
  assert (Hk : 0 < 1 / ln N) by (apply Rdiv_lt_0_compat; lra).
  assert (Hk1 : 1 / ln N * ln N = 1) by (field; lra).
  nra.
Qed.

Lemma two_values_two_rows (c : vec) : In 0 c -> In 1 c -> (2 <= length c)%nat.
Proof.
  destruct c as [|a [|b c]]; simpl; intros H0 H1.
  - destruct H0.
  - destruct H0 as [E0 | []], H1 as [E1 | []]. lra.
  - lia.
Qed.

(** X23.  On a rectangular matrix with at least one column that was
    min-max standardized with the parameters fitted on it,
    [_entropy_weights] cannot fail, and it gives every column a strictly
    positive weight: each standardized column holds a 0 and a 1, so its
    diversity is positive. *)
Theorem entropy_training_weights_positive (x z : ndarray) (min_v max_v : vec) :
  well_shaped x -> (1 <= ncols x)%nat ->
  _minmax_fit x = Ok (min_v, max_v) ->
  _minmax_transform x min_v max_v = Ok z ->
  exists w, _entropy_weights z = Ok w
            /\ length w = ncols x
            /\ Forall (fun t => 0 < t) w.
Proof.
  intros Hx Hp Hf Ht.
  destruct (minmax_fit_lengths _ _ _ Hf) as (L1 & L2 & Hne).
  destruct (transform_entries_minmax_aux x z min_v max_v Hx L1 L2 Ht)
    as (Hnd & (Sc & Sr & Sw) & He).
  destruct (minmax_standardized_nonneg _ _ _ _ Hx Hf Ht) as (_ & Hnn).
  assert (Hd : forall j, (j < ncols x)%nat ->
                         0 < entropy_diversity (column j z)).
  { intros j Hj.
    destruct (minmax_fit_entry x min_v max_v j Hf Hj) as (Hmin & Hmax).
    pose proof (np_min_in _ _ Hmin) as Imin. pose proof (np_max_in _ _ Hmax) as Imax.
    assert (Hcol : column j z
                   = map (fun t => (t - nth j min_v 0)
                                   / (nth j max_v 0 - nth j min_v 0)) (column j x)).
    { apply column_of_entries; [now symmetry|]. intros i Hi. now apply He. }
    pose proof (Hnd j Hj) as Hne'.
    assert (I0 : In 0 (column j z)).
    { rewrite Hcol. apply in_map_iff. exists (nth j min_v 0).
      split; [unfold Rdiv; ring | exact Imin]. }
    assert (I1 : In 1 (column j z)).
    { rewrite Hcol. apply in_map_iff. exists (nth j max_v 0).
      split; [field; lra | exact Imax]. }
    pose proof (column_nonneg z j Hnn) as Hcn.
    apply entropy_diversity_positive; [exact Hcn | exact I0 | |].
    - pose proof (vsum_entry_le _ Hcn) as Hle. rewrite Forall_forall in Hle.
      specialize (Hle 1 I1). lra.
    - now apply two_values_two_rows. }
  rewrite (entropy_weights_columns z Sw). cbn zeta. rewrite <- Sc.
  set (d := map (fun j => entropy_diversity (column j z)) (seq 0 (ncols x))).
  assert (Hdpos : Forall (fun t => 0 < t) d).
  { unfold d. apply Forall_map. apply Forall_forall. intros j Hj.
    apply in_seq in Hj. apply Hd. lia. }
  assert (Hdnn : Forall (fun t => 0 <= t) d).
  { eapply Forall_impl; [|exact Hdpos]. intros t Hpos. cbv beta in *. lra. }
  assert (Hd0 : d <> []).
  { intros E. apply (f_equal (@length R)) in E.
    unfold d in E. rewrite length_map, length_seq in E. simpl in E. lia. }
  assert (Htot : 0 < vsum d).
  { destruct d as [|t d']; [congruence|].
    inversion Hdpos; subst. inversion Hdnn; subst.
    pose proof (vsum_nonneg d' ltac:(assumption)). simpl. lra. }
  replace (Rleb (vsum d) 0) with false by (symmetry; apply Rleb_false; lra).
  eexists. split; [reflexivity|]. split.
  - unfold d. now rewrite !length_map, length_seq.
  - apply Forall_map. eapply Forall_impl; [|exact Hdpos].
    intros t Hpos. cbv beta. apply Rdiv_lt_0_compat; lra.
Qed.

Lemma entropy_training_weights_positive_witness :
  well_shaped sample_x
  /\ _minmax_fit sample_x = Ok ([10; 1], [30; 3])
  /\ _minmax_transform sample_x [10; 1] [30; 3] = Ok sample_z
  /\ exists w, _entropy_weights sample_z = Ok w /\ Forall (fun t => 0 < t) w.
Proof.
  assert (Hx : well_shaped sample_x) by (repeat constructor).
  split; [exact Hx|]. split; [exact sample_fit|]. split; [exact sample_transform|].
  destruct (entropy_training_weights_positive sample_x sample_z _ _ Hx
              ltac:(simpl; lia) sample_fit sample_transform) as (w & Hw & _ & Hpos).
  exists w. split; assumption.
Defined.

(** ** The dictionaries of a trained record *)

Lemma keyed_keys (keys : list string) (v : vec) (d : dict R) :
  NoDup keys -> keyed keys v = Ok d -> dict_keys d = keys.
Proof.
  intros Hnd H. destruct (keyed_read_back keys v d Hnd H) as (-> & Hl & _).
  apply combine_keys. rewrite length_firstn. lia.
Qed.

Lemma dict_mapM_keys {A B : Type} (f : A -> res B) (d : dict A) (r : dict B) :
  NoDup (dict_keys d) -> dict_mapM f d = Ok r -> dict_keys r = dict_keys d.
Proof.
  intros Hnd H. unfold dict_mapM in H.
  apply bind_ok in H. destruct H as (pairs & Hp & H). inversion H; subst r.
  destruct (mapM_pairs_get f d pairs Hp) as (Hk & _).
  rewrite dict_of_pairs_nodup by (rewrite Hk; exact Hnd). exact Hk.
Qed.

(** X24.  What a record trained with pairwise distinct keys holds: the
    weights and both standardization dictionaries have exactly the
    indicator keys, in order; the standardization is min-max for the
    entropy method and z-score for PCA and AHP; and the two sub-score
    scaling dictionaries have the same dimensions, each once. *)
Theorem trained_record_is_keyed
        (eigh : ndarray -> vec * ndarray)
        (eig : ndarray -> list complex * list (list complex))
        (id created : string) (method : WeightMethod) (name : string)
        (keys : list string) (indicators : list IndicatorRecord)
        (x_train : ndarray) (directions : list Direction) (ds : list string)
        (ahp_matrix : option (list (list R))) (thr : R) (model : WeightModelRecord) :
  NoDup keys ->
  train_weight_model eigh eig id created method name keys indicators x_train
                     directions ds ahp_matrix thr = Ok model ->
  indicatorKeys model = keys
  /\ dict_keys (weights model) = keys
  /\ ((method = entropy
       /\ exists smin smax, standardization model = minmax smin smax
                            /\ dict_keys smin = keys /\ dict_keys smax = keys)
      \/ ((method = pca \/ method = ahp)
          /\ exists smean sstd, standardization model = zscore smean sstd
                                /\ dict_keys smean = keys /\ dict_keys sstd = keys))
  /\ exists sc sub_lo sub_hi,
       scaling model = Some sc
       /\ subScoreMin sc = Some sub_lo /\ subScoreMax sc = Some sub_hi
       /\ dict_keys sub_lo = dict_keys sub_hi /\ NoDup (dict_keys sub_lo).
Proof.
  intros Hnd Htrain.
  destruct (train_weight_model_inv _ _ _ _ _ _ _ _ _ _ _ _ _ _ Htrain)
    as (x & z & w_vec & std & pinfo & ainfo & sr & ss & lo & hi & sub_lo & sub_hi
        & _ & Hfit & Hw & Hcs & _ & _ & Hslo & Hshi & Hkeys & _ & Hstd & Hsc).
  split; [exact Hkeys|]. split; [exact (keyed_keys _ _ _ Hnd Hw)|]. split.
  - rewrite Hstd.
    destruct (train_fit_inv _ _ _ _ _ _ _ _ _ _ _ _ Hfit)
      as [(min_v & max_v & smin & smax & Em & _ & _ & _ & Kmin & Kmax & ->)
         |(mean & sd & smean & sstd & _ & _ & Kmean & Ksd & -> & Hm)].
    + left. split; [exact Em|]. exists smin, smax.
      split; [reflexivity|].
      split; [exact (keyed_keys _ _ _ Hnd Kmin) | exact (keyed_keys _ _ _ Hnd Kmax)].
    + right. split; [destruct Hm as [(E & _) | (E & _)]; auto|].
      exists smean, sstd. split; [reflexivity|].
      split; [exact (keyed_keys _ _ _ Hnd Kmean) | exact (keyed_keys _ _ _ Hnd Ksd)].
  - pose proof (compute_scores_nodup _ _ _ _ _ _ Hcs) as Hnds.
    pose proof (dict_mapM_keys _ _ _ Hnds Hslo) as K1.
    pose proof (dict_mapM_keys _ _ _ Hnds Hshi) as K2.
    do 3 eexists. split; [exact Hsc|]. split; [reflexivity|]. split; [reflexivity|].
    split; [congruence | now rewrite K1].
Qed.

Lemma trained_record_is_keyed_witness :
  NoDup ["x1"; "x2"]%string
  /\ exists model,
       train_weight_model correlated_eigh consistent_eig "id" "now" entropy "m"
                          ["x1"; "x2"]%string [] sample_x [positive; positive]
                          [] None 0.85 = Ok model
       /\ dict_keys (weights model) = ["x1"; "x2"]%string.
Proof.
  split; [exact two_keys_distinct|].
  destruct (sample_train correlated_eigh consistent_eig "id" "now" "m" "x1" "x2"
              [] [] None 0.85 ltac:(discriminate))
    as (model & ss & sub_lo & sub_hi & Htrain & _).
  exists model. split; [exact Htrain|].
  exact (proj1 (proj2 (trained_record_is_keyed _ _ _ _ _ _ _ _ _ _ _ _ _ _
                         two_keys_distinct Htrain))).
Defined.

(** ** A record that lacks an entry *)

Lemma mapM_lookup_missing (d : dict R) (keys : list string) :
  (exists k, In k keys /\ dict_get k d = None) ->
  mapM (fun k => dict_lookup k d) keys = Err KeyError.
Proof.
  induction keys as [|k0 keys IH]; intros (k & Hin & Hk); [destruct Hin|].
  simpl. unfold dict_lookup at 1. destruct (dict_get k0 d) as [v|] eqn:E0.
  - cbn [bind]. destruct Hin as [-> | Hin]; [congruence|].
    rewrite IH by eauto. reflexivity.
  - reflexivity.
Qed.

(** X25.  Applying a record that lacks an entry for one of its indicator
    keys ends in [KeyError], once the directions fit the matrix: an entry
    missing from either dictionary of the standardization is noticed
    before anything is computed, one missing from the weights after the
    standardization went through. *)
Theorem apply_missing_entry (model : WeightModelRecord)
        (indicators : list IndicatorRecord) (x x2 : ndarray)
        (directions : list Direction) (k : string) :
  _apply_direction x directions = Ok x2 ->
  In k (indicatorKeys model) ->
  (forall a b,
      standardization model = minmax a b \/ standardization model = zscore a b ->
      dict_get k a = None \/ dict_get k b = None ->
      apply_weight_model model indicators x directions = Err KeyError)
  /\ (forall z,
         apply_standardize model x directions = Ok z ->
         dict_get k (weights model) = None ->
         apply_weight_model model indicators x directions = Err KeyError).
Proof.
  intros Hx2 Hin. split.
  - intros a b Hstd Hmiss.
    assert (Hs : apply_standardize model x directions = Err KeyError).
    { unfold apply_standardize. rewrite Hx2. cbn [bind].
      assert (G : (va <- mapM (fun k => dict_lookup k a) (indicatorKeys model) ;;
                   vb <- mapM (fun k => dict_lookup k b) (indicatorKeys model) ;;
                   _minmax_transform x2 va vb) = Err KeyError
                  /\ (va <- mapM (fun k => dict_lookup k a) (indicatorKeys model) ;;
                      vb <- mapM (fun k => dict_lookup k b) (indicatorKeys model) ;;
                      _zscore_transform x2 va vb) = Err KeyError).
      { destruct (mapM (fun k => dict_lookup k a) (indicatorKeys model))
          as [va|e] eqn:Ea.
        - destruct Hmiss as [Hm | Hm].
          + rewrite mapM_lookup_missing in Ea by eauto. discriminate.
          + cbn [bind]. rewrite mapM_lookup_missing by eauto. split; reflexivity.
        - destruct Hmiss as [Hm | Hm].
          + rewrite mapM_lookup_missing in Ea by eauto. inversion Ea.
            split; reflexivity.
          + destruct (in_dec string_dec k (indicatorKeys model)) as [_ | C];
              [|contradiction].
            assert (e = KeyError).
            { clear - Ea. revert e Ea.
              induction (indicatorKeys model) as [|k0 l IH]; intros e Ea;
                simpl in Ea; [discriminate|].
              unfold dict_lookup in Ea at 1.
              destruct (dict_get k0 a); cbn [bind] in Ea; [|now inversion Ea].
              destruct (mapM (fun k => dict_lookup k a) l) as [v|e'] eqn:El;
                cbn [bind] in Ea; [discriminate|].
              inversion Ea; subst. now apply IH. }
            subst e. split; reflexivity. }
      destruct Hstd as [-> | ->]; [exact (proj1 G) | exact (proj2 G)]. }
    unfold apply_weight_model, apply_weight_model_locals. now rewrite Hs.
  - intros z Hz Hmiss.
    unfold apply_weight_model, apply_weight_model_locals, compute_scores.
    rewrite Hz. cbn [bind]. rewrite mapM_lookup_missing by eauto. reflexivity.
Qed.

Lemma incomplete_standardize :
  apply_standardize incomplete_model sample_x [positive; positive] = Ok sample_z.
Proof.
  unfold apply_standardize.
  change (_apply_direction sample_x [positive; positive]) with (Ok sample_x).
  cbn [bind standardization incomplete_model indicatorKeys].
  rewrite !(lookup_two "x1" "x2") by discriminate. cbn [bind].
  exact sample_transform.
Qed.

Lemma apply_missing_entry_witness :
  _apply_direction sample_x [positive; positive] = Ok sample_x
  /\ In "x2"%string (indicatorKeys incomplete_model)
  /\ apply_weight_model incomplete_model [] sample_x [positive; positive]
     = Err KeyError.
Proof.
  split; [reflexivity|].
  assert (Hin : In "x2"%string (indicatorKeys incomplete_model))
    by (right; left; reflexivity).
  split; [exact Hin|].
  exact (proj2 (apply_missing_entry incomplete_model [] sample_x sample_x
                  [positive; positive] "x2" eq_refl Hin)
               sample_z incomplete_standardize eq_refl).
Defined.
